(** * accelerated-arrays: CPU image backend, OpenGL wrappers and read adapters

    A shallow embedding of [src/cpu_image.cpp], [src/opengl/adapters.cpp]
    and [src/opengl/read_adapters.cpp], followed by the properties of the
    specification that were checked against it.

    Conventions of the embedding:
    - a C++ [int] is a [Z]; every arithmetic operation wraps to 32 bits
      (module [CInt]), so a statement that needs the absence of overflow
      says so in a hypothesis;
    - a failed [assert], an out-of-range [std::vector] access and
      [std::abort] end the run: host-side functions return [option], the
      OpenGL layer runs in the monad [GL.M], whose outcome is [Ok] or
      [Abort];
    - the OpenGL driver is a record of the binding state the wrappers
      touch, plus the list of calls that release hardware objects and the
      list of logged warnings. *)

From Stdlib Require Import ZArith QArith Qround Lia Strings.Byte Strings.Ascii Strings.String.
From stdpp Require Import base option list strings pretty gmap.

Local Open Scope Z_scope.

(* ===================================================================== *)
(** * Part I: the embedding                                               *)
(* ===================================================================== *)

(** ** C++ [int] arithmetic *)

Module CInt.

Definition INT_MIN : Z := - 2 ^ 31.
Definition INT_MAX : Z := 2 ^ 31 - 1.

Definition in_range (z : Z) : Prop := INT_MIN ≤ z ≤ INT_MAX.

(** Two's complement reduction to 32 bits. *)
Definition wrap (z : Z) : Z := (z + 2 ^ 31) `mod` 2 ^ 32 - 2 ^ 31.

Definition add (a b : Z) : Z := wrap (a + b).
Definition sub (a b : Z) : Z := wrap (a - b).
Definition mul (a b : Z) : Z := wrap (a * b).
Definition neg (a : Z) : Z := wrap (- a).
(** [/] and [%] truncate towards zero. *)
Definition div (a b : Z) : Z := wrap (Z.quot a b).
Definition rem (a b : Z) : Z := wrap (Z.rem a b).

End CInt.

Declare Scope cint_scope.
Delimit Scope cint_scope with cint.
Notation "a [+] b" := (CInt.add a b) (at level 50, left associativity) : cint_scope.
Notation "a [-] b" := (CInt.sub a b) (at level 50, left associativity) : cint_scope.
Notation "a [*] b" := (CInt.mul a b) (at level 40, left associativity) : cint_scope.
Notation "a [/] b" := (CInt.div a b) (at level 40, left associativity) : cint_scope.
Notation "a [%] b" := (CInt.rem a b) (at level 40, left associativity) : cint_scope.
Local Open Scope cint_scope.

(** ** [src/cpu_image.cpp] *)

Module CpuImage.

(** [Image::Border]. *)
Inductive Border := ZERO | MIRROR | REPEAT | WRAP | UNDEFINED.

(** [applyBorder1D(int &i, int size, Border border)]: the result is the
    returned flag and the value left in [i]; [None] is a failed [assert]. *)
Definition applyBorder1D (i size : Z) (border : Border) : option (bool * Z) :=
  if bool_decide (0 ≤ i ∧ i < size) then Some (true, i)
  else match border with
  | ZERO => Some (false, i)
  | MIRROR =>
      let i' :=
        if bool_decide (i < 0) then CInt.neg i
        else if bool_decide (size ≤ i) then size [-] 1 [-] (i [-] (size [-] 1))
        else i in
      if bool_decide (0 ≤ i' ∧ i' < size) then Some (true, i') else None
  | REPEAT =>
      let i' :=
        if bool_decide (i < 0) then 0
        else if bool_decide (size ≤ i) then size [-] 1
        else i in
      Some (true, i')
  | WRAP =>
      let i' :=
        if bool_decide (i < 0) then size [-] (CInt.neg i [%] size)
        else i [%] size in
      Some (true, i')
  | UNDEFINED => None
  end.

(** The host image: the fields of the base class that the backend reads
    ([width], [height], [channels], and [bytesPerChannel()], which the
    header derives from the data type) and the backing [std::vector]. *)
Record Image := mkImage {
  width : Z;
  height : Z;
  channels : Z;
  bytesPerChannel : Z;
  data : list byte
}.

(** [Image::applyBorder(int &x, int &y, Border)]: [&&] evaluates the
    second axis only when the first one returned [true]. *)
Definition applyBorder (img : Image) (x y : Z) (border : Border)
  : option (bool * Z * Z) :=
  match applyBorder1D x (width img) border with
  | None => None
  | Some (false, x') => Some (false, x', y)
  | Some (true, x') =>
      match applyBorder1D y (height img) border with
      | None => None
      | Some (b, y') => Some (b, x', y')
      end
  end.

(** Modelled from the spec: [size()] is declared in the image header; the
    total byte size is width x height x channels x bytesPerElement. *)
Definition size (img : Image) : Z :=
  width img * height img * channels img * bytesPerChannel img.

(** [index(x, y)]. Whatever integer type [bytesPerChannel()] has, the
    value is the one given here as long as no product overflows, which
    the addressing statements assume. *)
Definition index (img : Image) (x y : Z) : Z :=
  (y [*] width img [+] x) [*] channels img [*] bytesPerChannel img.

(** [v[k]] of a [std::vector] or of a caller's array of known extent:
    outside the extent the access is undefined, here a failure. *)
Definition at_ {A} (v : list A) (k : Z) : option A :=
  if bool_decide (0 ≤ k) then v !! Z.to_nat k else None.

Definition store {A} (v : list A) (k : Z) (a : A) : option (list A) :=
  if bool_decide (0 ≤ k < Z.of_nat (length v)) then Some (<[Z.to_nat k := a]> v)
  else None.

(** [for (i = i0; i < i0 + n; ++i) dst[i + dstOff] = src[i + srcOff];]
    the shape of the two per-channel loops. *)
Fixpoint copy_loop (src : list byte) (srcOff : Z) (dst : list byte) (dstOff : Z)
    (i : Z) (n : nat) : option (list byte) :=
  match n with
  | O => Some dst
  | S n' =>
      b ← at_ src (i + srcOff);
      dst' ← store dst (i + dstOff) b;
      copy_loop src srcOff dst' dstOff (i + 1) n'
  end.

(** [get(x, y, channel, targetArray)]: the caller's array after the call. *)
Definition get (img : Image) (x y channel : Z) (targetArray : list byte)
  : option (list byte) :=
  if bool_decide (0 ≤ channel ∧ channel < channels img) then
    let bpc := bytesPerChannel img in
    let offset := index img x y [+] channel [*] bpc in
    copy_loop (data img) offset targetArray 0 0 (Z.to_nat bpc)
  else None.

(** [set(x, y, channel, srcArray)]: the image after the call. *)
Definition set (img : Image) (x y channel : Z) (srcArray : list byte)
  : option Image :=
  if bool_decide (0 ≤ channel ∧ channel < channels img) then
    let bpc := bytesPerChannel img in
    let offset := index img x y [+] channel [*] bpc in
    data' ← copy_loop srcArray 0 (data img) offset 0 (Z.to_nat bpc);
    Some (mkImage (width img) (height img) (channels img) bpc data')
  else None.

(** The constructor: [data.resize(size())] zero-fills the vector. *)
Definition create (w h ch bpc : Z) : Image :=
  mkImage w h ch bpc (replicate (Z.to_nat (w * h * ch * bpc)) x00%byte).

(** The images the addressing statements are about: positive extents, a
    byte size that an [int] holds, and a vector of exactly [size()] bytes,
    as the constructor leaves it and [set] keeps it. *)
Definition valid (img : Image) : Prop :=
  1 ≤ width img ∧ 1 ≤ height img ∧ 1 ≤ channels img ∧ 1 ≤ bytesPerChannel img
  ∧ size img ≤ CInt.INT_MAX
  ∧ Z.of_nat (length (data img)) = size img.

End CpuImage.

(** ** [src/opengl/adapters.cpp] *)

Module GL.

(** The OpenGL entry points issued by the wrappers below. *)
Inductive Call :=
| glBindTexture (target texture : Z)
| glBindFramebuffer (framebuffer : Z)
| glUseProgram (program : Z)
| glBindBuffer (target buffer : Z)
| glEnableVertexAttribArray (index : Z)
| glDisableVertexAttribArray (index : Z)
| glVertexAttribPointer (index : Z)
| glDeleteTextures (texture : Z)
| glDeleteFramebuffers (framebuffer : Z)
| glDeleteProgram (program : Z)
| glDeleteBuffers (buffer : Z).

(** Values of the OpenGL headers. *)
Definition GL_TEXTURE_2D : Z := 0x0DE1.
Definition GL_ARRAY_BUFFER : Z := 0x8892.
Definition GL_ELEMENT_ARRAY_BUFFER : Z := 0x8893.

Inductive LogLine :=
| log_warn (fmt : string) (args : list Z)
| log_error (tag fmt : string) (args : list Z).

(** The part of the context the wrappers act on. A binding that is absent
    from a map is the null object. [faults] is the driver's side of the
    story: the error flags each coming call will raise, one entry per
    call, so that every statement below holds for every behaviour of the
    driver. [released] collects the [glDelete*] calls, [log] the lines of
    [log_warn] and [log_error] ([LOG_TRACE] is not recorded). *)
Record Driver := mkDriver {
  activeTexture : Z;
  textureBinding : gmap (Z * Z) Z;
  bufferBinding : gmap Z Z;
  framebufferBinding : Z;
  currentProgram : Z;
  errors : list Z;
  faults : list (list Z);
  released : list Call;
  log : list LogLine
}.

Definition boundTexture (s : Driver) (target : Z) : Z :=
  default 0 (textureBinding s !! (activeTexture s, target)).

Definition boundBuffer (s : Driver) (target : Z) : Z :=
  default 0 (bufferBinding s !! target).

Definition is_release (c : Call) : bool :=
  match c with
  | glDeleteTextures _ | glDeleteFramebuffers _
  | glDeleteProgram _ | glDeleteBuffers _ => true
  | _ => false
  end.

(** What a call does to the context. *)
Definition effect (c : Call) (s : Driver) : Driver :=
  let tb :=
    match c with
    | glBindTexture target texture =>
        <[(activeTexture s, target) := texture]> (textureBinding s)
    | _ => textureBinding s
    end in
  let bb :=
    match c with
    | glBindBuffer target buffer => <[target := buffer]> (bufferBinding s)
    | _ => bufferBinding s
    end in
  let fb :=
    match c with
    | glBindFramebuffer framebuffer => framebuffer
    | _ => framebufferBinding s
    end in
  let prog :=
    match c with
    | glUseProgram program => program
    | _ => currentProgram s
    end in
  mkDriver (activeTexture s) tb bb fb prog
    (errors s ++ hd [] (faults s)) (tl (faults s))
    (if is_release c then released s ++ [c] else released s)
    (log s).

(** A run either returns or ends in [std::abort] / a failed [assert]. *)
Inductive Outcome (A : Type) :=
| Ok (a : A) (s : Driver)
| Abort (s : Driver).
Arguments Ok {A} a s.
Arguments Abort {A} s.

Definition M (A : Type) : Type := Driver → Outcome A.

Definition final {A} (o : Outcome A) : Driver :=
  match o with Ok _ s => s | Abort s => s end.

Definition result {A} (o : Outcome A) : option A :=
  match o with Ok a _ => Some a | Abort _ => None end.

#[export] Instance M_ret : MRet M := λ A a s, Ok a s.
#[export] Instance M_bind : MBind M := λ A B f m s,
  match m s with
  | Ok a s' => f a s'
  | Abort s' => Abort s'
  end.

Definition gl (c : Call) : M unit := λ s, Ok () (effect c s).

Definition abort {A} : M A := λ s, Abort s.

Definition emit (l : LogLine) : M unit := λ s,
  Ok () (mkDriver (activeTexture s) (textureBinding s) (bufferBinding s)
           (framebufferBinding s) (currentProgram s) (errors s) (faults s)
           (released s) (log s ++ [l])).

(** [glGetError()]: the oldest pending flag, or [GL_NO_ERROR]. *)
Definition glGetError : M Z := λ s,
  match errors s with
  | [] => Ok 0 s
  | e :: es =>
      Ok e (mkDriver (activeTexture s) (textureBinding s) (bufferBinding s)
              (framebufferBinding s) (currentProgram s) es (faults s)
              (released s) (log s))
  end.

(** [while ((error = glGetError())) { any = true; log_error(...); }];
    every turn removes a flag, so the number of pending flags plus one
    bounds the turns. *)
Fixpoint checkError_loop (fuel : nat) (tag : string) (any : bool) : M bool :=
  match fuel with
  | O => mret any
  | S fuel' =>
      error ← glGetError;
      if bool_decide (error ≠ 0) then
        emit (log_error tag "%s produced glError (0x%x)" [error]);;
        checkError_loop fuel' tag true
      else mret any
  end.

(** [checkError(tag)]. *)
Definition checkError (tag : string) : M unit := λ s,
  (any ← checkError_loop (S (length (errors s))) tag false;
   if any : bool then abort else mret ()) s.

(** [Binder::Target] and [Destroyable]. *)
Class Target (T : Type) := {
  bind : T → M unit;
  unbind : T → M unit
}.

Class Destroyable (T : Type) := {
  destroy : T → M T
}.

(** [Binder]: the constructor binds, the destructor unbinds at the end of
    the enclosing block. [std::abort] does not unwind, so an aborting body
    takes the scope with it. *)
Definition Binder `{Target T} {A} (target : T) (body : M A) : M A :=
  bind target;; a ← body; unbind target;; mret a.

Module TextureImplementation.

Record t := mk { bindType : Z; id : Z }.

Definition destroy (self : t) : M t :=
  (if bool_decide (id self ≠ 0) then gl (glDeleteTextures (id self)) else mret ());;
  mret (mk (bindType self) 0).

Definition destructor (self : t) : M unit :=
  if bool_decide (id self ≠ 0) then emit (log_warn "leaking GL texture" [])
  else mret ().

Definition bind (self : t) : M unit :=
  gl (glBindTexture (bindType self) (id self));;
  checkError "bind".

Definition unbind (self : t) : M unit :=
  gl (glBindTexture (bindType self) 0);;
  checkError "unbind".

Definition getId (self : t) : Z := id self.

End TextureImplementation.

#[export] Instance Texture_Target : Target TextureImplementation.t :=
  {| bind := TextureImplementation.bind; unbind := TextureImplementation.unbind |}.
#[export] Instance Texture_Destroyable : Destroyable TextureImplementation.t :=
  {| destroy := TextureImplementation.destroy |}.

Module FrameBufferImplementation.

Record t := mk {
  width : Z;
  height : Z;
  id : Z;
  texture : TextureImplementation.t
}.

Definition destroy (self : t) : M t :=
  (if bool_decide (id self ≠ 0) then gl (glDeleteFramebuffers (id self)) else mret ());;
  texture' ← TextureImplementation.destroy (texture self);
  mret (mk (width self) (height self) 0 texture').

(** The body of the destructor, then the destructor of the member. *)
Definition destructor (self : t) : M unit :=
  (if bool_decide (id self ≠ 0) then
     emit (log_warn "leaking frame buffer %d" [id self])
   else mret ());;
  TextureImplementation.destructor (texture self).

Definition bind (self : t) : M unit :=
  gl (glBindFramebuffer (id self));;
  checkError "bind".

Definition unbind (self : t) : M unit :=
  gl (glBindFramebuffer 0);;
  checkError "unbind".

Definition getId (self : t) : Z := id self.
Definition getTextureId (self : t) : Z := TextureImplementation.getId (texture self).

End FrameBufferImplementation.

#[export] Instance FrameBuffer_Target : Target FrameBufferImplementation.t :=
  {| bind := FrameBufferImplementation.bind; unbind := FrameBufferImplementation.unbind |}.
#[export] Instance FrameBuffer_Destroyable : Destroyable FrameBufferImplementation.t :=
  {| destroy := FrameBufferImplementation.destroy |}.

Module GlslProgramImplementation.

Record t := mk { program : Z }.

Definition getId (self : t) : Z := program self.

Definition bind (self : t) : M unit := gl (glUseProgram (program self)).

Definition unbind (self : t) : M unit := gl (glUseProgram 0).

Definition destroy (self : t) : M t :=
  if bool_decide (program self ≠ 0) then
    gl (glDeleteProgram (program self));;
    mret (mk 0)
  else mret self.

Definition destructor (self : t) : M unit :=
  if bool_decide (program self ≠ 0) then
    emit (log_warn "leaking GL program %d" [program self])
  else mret ().

End GlslProgramImplementation.

#[export] Instance GlslProgram_Target : Target GlslProgramImplementation.t :=
  {| bind := GlslProgramImplementation.bind; unbind := GlslProgramImplementation.unbind |}.
#[export] Instance GlslProgram_Destroyable : Destroyable GlslProgramImplementation.t :=
  {| destroy := GlslProgramImplementation.destroy |}.

Module GlslFragmentShaderImplementation.

Record t := mk {
  vertexBuffer : Z;
  vertexIndexBuffer : Z;
  aVertexData : Z;
  program : GlslProgramImplementation.t
}.

(** Neither buffer name is cleared here. *)
Definition destroy (self : t) : M t :=
  (if bool_decide (vertexBuffer self ≠ 0) then
     gl (glDeleteBuffers (vertexBuffer self));;
     gl (glDeleteBuffers (vertexIndexBuffer self))
   else mret ());;
  program' ← GlslProgramImplementation.destroy (program self);
  mret (mk (vertexBuffer self) (vertexIndexBuffer self) (aVertexData self) program').

(** No destructor of its own: the member's one runs. *)
Definition destructor (self : t) : M unit :=
  GlslProgramImplementation.destructor (program self).

Definition bind (self : t) : M unit :=
  GlslProgramImplementation.bind (program self);;
  gl (glBindBuffer GL_ARRAY_BUFFER (vertexBuffer self));;
  gl (glBindBuffer GL_ELEMENT_ARRAY_BUFFER (vertexIndexBuffer self));;
  checkError "bind/glBindBuffer x 2";;
  gl (glEnableVertexAttribArray (aVertexData self));;
  gl (glVertexAttribPointer (aVertexData self));;
  checkError "bind/glVertexAttribPointer(aVertexData, ...)".

Definition unbind (self : t) : M unit :=
  gl (glDisableVertexAttribArray (aVertexData self));;
  checkError "unbind/glDisableVertexAttribArray x 2";;
  gl (glBindBuffer GL_ELEMENT_ARRAY_BUFFER 0);;
  gl (glBindBuffer GL_ARRAY_BUFFER 0);;
  checkError "unbind/glBindBuffer x 2";;
  GlslProgramImplementation.unbind (program self).

Definition getId (self : t) : Z := GlslProgramImplementation.getId (program self).

End GlslFragmentShaderImplementation.

#[export] Instance GlslFragmentShader_Target : Target GlslFragmentShaderImplementation.t :=
  {| bind := GlslFragmentShaderImplementation.bind;
     unbind := GlslFragmentShaderImplementation.unbind |}.
#[export] Instance GlslFragmentShader_Destroyable
  : Destroyable GlslFragmentShaderImplementation.t :=
  {| destroy := GlslFragmentShaderImplementation.destroy |}.

(** Two contexts that differ in the error queue and the log at most. *)
Definition same_context (s s' : Driver) : Prop :=
  activeTexture s' = activeTexture s
  ∧ textureBinding s' = textureBinding s
  ∧ bufferBinding s' = bufferBinding s
  ∧ framebufferBinding s' = framebufferBinding s
  ∧ currentProgram s' = currentProgram s
  ∧ faults s' = faults s
  ∧ released s' = released s.

(** A context with nothing bound, no pending flag and a driver that
    raises none. *)
Definition quiet : Driver := mkDriver 0 ∅ ∅ 0 0 [] [] [] [].

End GL.

(** ** [src/opengl/read_adapters.cpp] *)

Module ReadAdapters.

(** The description of an [::accelerated::Image] that the adapter reads:
    extents, channel count and the element size of its data type. *)
Record Image := mkImage {
  width : Z;
  height : Z;
  channels : Z;
  bytesPerChannel : Z
}.

(** Modelled from the spec: [bytesPerPixel()] and [size()] are declared in
    the image header; per-pixel byte stride is channels x bytesPerElement
    and total byte size is width x height x channels x bytesPerElement. *)
Definition bytesPerPixel (img : Image) : Z := channels img * bytesPerChannel img.
Definition size (img : Image) : Z := width img * height img * bytesPerPixel img.

(** *** The generated fragment shader *)

(** The lines that [createFunction] writes to the shader body, one
    constructor per output statement. *)
Inductive Stmt :=
| DeclOutCoord
| DeclX0 (ratio : Z)
| DeclCol (i : Z) (swiz : Z)
| AssignOut (dst : Z) (i : Z) (src : Z).

Definition fullSwiz : string := "rgba".

(** [fullSwiz[k]] as written by [operator<<]. *)
Definition swizzle (k : Z) : string :=
  if bool_decide (0 ≤ k) then
    match String.get (Z.to_nat k) fullSwiz with
    | Some c => String c ""
    | None => ""
    end
  else "".

Definition nl : string := String "010"%char "".

(** The text of a statement. [vecType] is [getGlslVecType(img)] and
    [swiz] is [glsl::swizzleSubset(img.channels)], both from headers. *)
Definition render (vecType swiz : string) (st : Stmt) : string :=
  match st with
  | DeclOutCoord => "ivec2 outCoord = ivec2(v_texCoord / u_outSize);" +:+ nl
  | DeclX0 ratio => "int x0 = int(outCoord.x * " +:+ pretty ratio +:+ ");" +:+ nl
  | DeclCol i _ =>
      vecType +:+ " col" +:+ pretty i +:+ " = texelFetch(u_texture, "
      +:+ "ivec2(x0 + " +:+ pretty i +:+ ", outCoord.y)" +:+ ", 0)." +:+ swiz
      +:+ ";" +:+ nl
  | AssignOut dst i src =>
      "outValue." +:+ swizzle dst +:+ " = col" +:+ pretty i +:+ "."
      +:+ swizzle src +:+ ";" +:+ nl
  end.

Definition renderBody (vecType swiz : string) (body : list Stmt) : string :=
  "void main() {" +:+ nl
  +:+ foldr (λ st rest, render vecType swiz st +:+ rest) "" body
  +:+ "}" +:+ nl.

(** The two nested [for] loops of [createFunction]. *)
Definition shaderBody (channels targetChannels : Z) : list Stmt :=
  let ratio := targetChannels [/] channels in
  DeclOutCoord :: DeclX0 ratio ::
  flat_map (λ i,
      DeclCol i channels ::
      map (λ j, AssignOut (i [*] channels [+] j) i j) (seqZ 0 channels))
    (seqZ 0 ratio).

Record Builder := mkBuilder {
  fragmentShaderBody : list Stmt;
  spec : Image;
  outSpecChannels : Z
}.

(** [createFunction(img, targetChannels, targetWidth)]: the builder and
    the value left in [targetWidth]; [None] is a failed [assert] (or the
    division by a zero channel count). *)
Definition createFunction (img : Image) (targetChannels : Z)
  : option (Builder * Z) :=
  let origChannelsPerRow := channels img [*] width img in
  if bool_decide (channels img = 0) then None
  else if negb (bool_decide (channels img < targetChannels)) then None
  else if negb (bool_decide (targetChannels [%] channels img = 0)) then None
  else
    let targetWidth := origChannelsPerRow [/] targetChannels in
    let targetWidth :=
      if bool_decide (origChannelsPerRow [%] targetChannels ≠ 0)
      then targetWidth [+] 1 else targetWidth in
    Some (mkBuilder (shaderBody (channels img) targetChannels) img targetChannels,
          targetWidth).

(** *** Running the shader *)

(** Conversion of a float to [int] drops the fraction. *)
Definition Qtruncate (q : Q) : Z :=
  if bool_decide (0 ≤ Qnum q) then Qfloor q else Qceiling q.

(** The texture coordinate that reaches the fragment at pixel [(x, y)] of
    a [w] x [h] viewport: the quad of [GlslFragmentShaderImplementation]
    carries the coordinates (0,0)..(1,1) at its corners and covers the
    viewport, and fragments are shaded at pixel centres. *)
Definition v_texCoord (w h x y : Z) : Q * Q :=
  (Qdiv (Qmake (2 * x + 1) 2) (inject_Z w), Qdiv (Qmake (2 * y + 1) 2) (inject_Z h)).

(** [GlslPipelineImplementation::call]:
    [glUniform2f(outSizeUniform, getWidth(), getHeight())]. *)
Definition u_outSize (w h : Z) : Q * Q := (inject_Z w, inject_Z h).

(** The variables of one shader invocation; [outValue] starts undefined. *)
Record Frag (V : Type) := mkFrag {
  outCoord : option (Z * Z);
  x0 : option Z;
  col : gmap Z (list V);
  outValue : list (option V)
}.
Arguments mkFrag {V} _ _ _ _.
Arguments outCoord {V} _.
Arguments x0 {V} _.
Arguments col {V} _.
Arguments outValue {V} _.

(** One statement. [texelFetch x y] is the vec4 read at integer texel
    coordinates, level 0; a use of an undeclared variable or of a
    component that the type does not have is a failure. *)
Definition exec {V} (texelFetch : Z → Z → list V) (texCoord outSize : Q * Q)
    (f : Frag V) (st : Stmt) : option (Frag V) :=
  match st with
  | DeclOutCoord =>
      let c := (Qtruncate (Qdiv texCoord.1 outSize.1),
                Qtruncate (Qdiv texCoord.2 outSize.2)) in
      Some (mkFrag (Some c) (x0 f) (col f) (outValue f))
  | DeclX0 ratio =>
      c ← outCoord f;
      Some (mkFrag (outCoord f) (Some (c.1 [*] ratio)) (col f) (outValue f))
  | DeclCol i swiz =>
      c ← outCoord f;
      x ← x0 f;
      let v := take (Z.to_nat swiz) (texelFetch (x [+] i) c.2) in
      Some (mkFrag (outCoord f) (x0 f) (<[i := v]> (col f)) (outValue f))
  | AssignOut dst i src =>
      v ← col f !! i;
      a ← CpuImage.at_ v src;
      out ← CpuImage.store (outValue f) dst (Some a);
      Some (mkFrag (outCoord f) (x0 f) (col f) out)
  end.

Fixpoint run {V} (texelFetch : Z → Z → list V) (texCoord outSize : Q * Q)
    (f : Frag V) (body : list Stmt) : option (Frag V) :=
  match body with
  | [] => Some f
  | st :: body' =>
      f' ← exec texelFetch texCoord outSize f st;
      run texelFetch texCoord outSize f' body'
  end.

(** One invocation of the shader on a target with [targetChannels]
    channels: the value written, provided every component of [outValue]
    has been assigned. *)
Definition fragment {V} (body : list Stmt) (targetChannels : Z)
    (texelFetch : Z → Z → list V) (texCoord outSize : Q * Q) : option (list V) :=
  f ← run texelFetch texCoord outSize
        (mkFrag None None ∅ (replicate (Z.to_nat targetChannels) None)) body;
  mapM id (outValue f).

(** The value the pass writes to pixel [(x, y)] of a target of
    [w] x [h] pixels. *)
Definition shade {V} (body : list Stmt) (targetChannels : Z)
    (texelFetch : Z → Z → list V) (w h x y : Z) : option (list V) :=
  fragment body targetChannels texelFetch (v_texCoord w h x y) (u_outSize w h).

(** What the repack pass is meant to write at [(x, y)]: the channels of
    the [ratio] source pixels from column [x * ratio] of row [y]. *)
Definition repacked {V} (channels ratio : Z) (texelFetch : Z → Z → list V)
    (x y : Z) : list V :=
  flat_map (λ i, take (Z.to_nat channels) (texelFetch (x * ratio + i) y))
    (seqZ 0 ratio).

(** *** Row compaction *)

(** [std::memcpy(dst + dstOff, src + srcOff, n)] between two arrays of
    known extent. *)
Definition memcpy (dst : list byte) (dstOff : Z) (src : list byte) (srcOff : Z)
    (n : Z) : option (list byte) :=
  if bool_decide (0 ≤ n ∧ 0 ≤ srcOff ∧ srcOff + n ≤ Z.of_nat (length src)
                  ∧ 0 ≤ dstOff ∧ dstOff + n ≤ Z.of_nat (length dst))
  then Some (list_inserts (Z.to_nat dstOff)
               (take (Z.to_nat n) (drop (Z.to_nat srcOff) src)) dst)
  else None.

(** The [for] loop of the repack closure, [rows] turns from the given
    offsets: the output array and [inOffset] when it ends. *)
Fixpoint repack_loop (cpuBuffer : list byte) (origRowWidth bufRowWidth : Z)
    (rows : nat) (inOffset outOffset : Z) (out : list byte)
  : option (list byte * Z) :=
  match rows with
  | O => Some (out, inOffset)
  | S rows' =>
      out' ← memcpy out outOffset cpuBuffer inOffset origRowWidth;
      repack_loop cpuBuffer origRowWidth bufRowWidth rows'
        (inOffset [+] bufRowWidth) (outOffset [+] origRowWidth) out'
  end.

(** The rows the compaction is to deliver: for each of [rows] rows, the
    first [origRowWidth] bytes of the row that starts [i * bufRowWidth]
    bytes after [from]; the padding that follows them is left out. *)
Definition compacted (cpuBuffer : list byte) (origRowWidth bufRowWidth : Z)
    (from rows : Z) : list byte :=
  flat_map (λ i, take (Z.to_nat origRowWidth)
                   (drop (Z.to_nat (from + i * bufRowWidth)) cpuBuffer))
    (seqZ 0 rows).

(** The closure stored in [cpuFunction] keeps the two row widths. *)
Record Repack := mkRepack { origRowWidth : Z; bufRowWidth : Z }.

Record Adapter := mkAdapter {
  cpuBuffer : list byte;
  cpuFunction : option Repack;
  buffer : Image
}.

(** Calling [cpuFunction(out)]: the caller's array afterwards. *)
Definition call_cpuFunction (a : Adapter) (f : Repack) (out : list byte)
  : option (list byte) :=
  let nRows := height (buffer a) in
  '(out', inOffset) ←
    repack_loop (cpuBuffer a) (origRowWidth f) (bufRowWidth f)
      (Z.to_nat nRows) 0 0 out;
  if bool_decide (inOffset = CInt.wrap (size (buffer a))) then Some out' else None.

(** [setRepackFunction(image)]: the returned flag and the adapter.
    [resize] keeps the bytes it has and zero-fills the rest. *)
Definition setRepackFunction (a : Adapter) (image : Image)
  : option (bool * Adapter) :=
  if bool_decide (size (buffer a) = size image) then Some (false, a)
  else
    let cpuBuffer' := resize (Z.to_nat (size (buffer a))) x00%byte (cpuBuffer a) in
    let origRowWidth := width image [*] CInt.wrap (bytesPerPixel image) in
    let bufRowWidth := width (buffer a) [*] CInt.wrap (bytesPerPixel (buffer a)) in
    if bool_decide (origRowWidth < bufRowWidth) then
      Some (true, mkAdapter cpuBuffer' (Some (mkRepack origRowWidth bufRowWidth))
                    (buffer a))
    else None.

(** *** The read function *)

Inductive Future := future (n : nat).

Inductive ReadTarget := adapterCpuBuffer | callerData (outData : Z).

(** A unit of work handed to the [Processor]: the closure that calls
    [adapter->cpuFunction(outData)]. *)
Inductive Work := cpuCopy (outData : Z).

(** The calls the read function makes on its collaborators, with the
    future each one handed back. *)
Inductive Event :=
| callUnary
| readRaw (target : ReadTarget) (returned : Future)
| enqueue (work : Work) (returned : Future).

(** The collaborators: the calls so far and the number of futures they
    have created. *)
Record World := mkWorld { trace : list Event; futures : nat }.

Definition do_callUnary (w : World) : World :=
  mkWorld (trace w ++ [callUnary]) (futures w).

Definition do_readRaw (target : ReadTarget) (w : World) : Future * World :=
  let f := future (futures w) in
  (f, mkWorld (trace w ++ [readRaw target f]) (S (futures w))).

Definition do_enqueue (work : Work) (w : World) : Future * World :=
  let f := future (futures w) in
  (f, mkWorld (trace w ++ [enqueue work f]) (S (futures w))).

(** The function returned by [createReadAdpater], called on [outData]. *)
Definition read (adapter : Adapter) (outData : Z) (w : World) : Future * World :=
  let w := do_callUnary w in
  match cpuFunction adapter with
  | Some _ =>
      let '(_, w) := do_readRaw adapterCpuBuffer w in
      do_enqueue (cpuCopy outData) w
  | None => do_readRaw (callerData outData) w
  end.

Definition is_enqueue (e : Event) : bool :=
  match e with enqueue _ _ => true | _ => false end.

(** [createReadAdpater] in the build without [USE_OPENGL_ES_ONLY]: the
    adapter behind the returned function and whether the warning
    "image read dimensions not optimal, need CPU repacking" was logged. *)
Definition createReadAdpater (image : Image) : option (Adapter * bool) :=
  let targetChannels := if bool_decide (channels image = 2) then 4 else channels image in
  '(_, targetWidth) ← createFunction image targetChannels;
  let buffer :=
    mkImage targetWidth (height image) targetChannels (bytesPerChannel image) in
  '(warned, adapter) ← setRepackFunction (mkAdapter [] None buffer) image;
  Some (adapter, warned).

End ReadAdapters.

(** ** [src/cpu_image.cpp]: whole-pixel and bulk access *)

Module CpuImageBulk.
Import CpuImage.

(** The image with another content of the vector. *)
Definition with_data (img : Image) (d : list byte) : Image :=
  mkImage (width img) (height img) (channels img) (bytesPerChannel img) d.

(** [get(x, y, channel, targetArray + off)]: the per-channel [get] called
    on a pointer into the caller's array. *)
Definition get_at (img : Image) (x y channel : Z) (targetArray : list byte)
    (off : Z) : option (list byte) :=
  if bool_decide (0 ≤ channel ∧ channel < channels img) then
    let bpc := bytesPerChannel img in
    let offset := index img x y [+] channel [*] bpc in
    copy_loop (data img) offset targetArray off 0 (Z.to_nat bpc)
  else None.

(** [set(x, y, channel, srcArray + off)]. *)
Definition set_at (img : Image) (x y channel : Z) (srcArray : list byte)
    (off : Z) : option Image :=
  if bool_decide (0 ≤ channel ∧ channel < channels img) then
    let bpc := bytesPerChannel img in
    let offset := index img x y [+] channel [*] bpc in
    data' ← copy_loop srcArray off (data img) offset 0 (Z.to_nat bpc);
    Some (mkImage (width img) (height img) (channels img) bpc data')
  else None.

(** [for (int i = 0; i < channels; ++i) get(x, y, i, targetArray + i * bpc);]
    from channel [i], [n] turns. *)
Fixpoint get_loop (img : Image) (x y : Z) (targetArray : list byte)
    (i : Z) (n : nat) : option (list byte) :=
  match n with
  | O => Some targetArray
  | S n' =>
      t ← get_at img x y i targetArray (i * bytesPerChannel img);
      get_loop img x y t (i + 1) n'
  end.

(** [get(x, y, targetArray)], all channels of one pixel. *)
Definition get_all (img : Image) (x y : Z) (targetArray : list byte)
  : option (list byte) :=
  get_loop img x y targetArray 0 (Z.to_nat (channels img)).

(** [for (int i = 0; i < channels; ++i) set(x, y, i, srcArray + i * bpc);] *)
Fixpoint set_loop (img : Image) (x y : Z) (srcArray : list byte)
    (i : Z) (n : nat) : option Image :=
  match n with
  | O => Some img
  | S n' =>
      img' ← set_at img x y i srcArray (i * bytesPerChannel img);
      set_loop img' x y srcArray (i + 1) n'
  end.

(** [set(x, y, srcArray)], all channels of one pixel. *)
Definition set_all (img : Image) (x y : Z) (srcArray : list byte)
  : option Image :=
  set_loop img x y srcArray 0 (Z.to_nat (channels img)).

(** [readRaw(outputData)]: the caller's array after
    [std::memcpy(outputData, data.data(), size())]; the future it returns
    is already resolved and carries nothing. *)
Definition readRaw (img : Image) (outputData : list byte) : option (list byte) :=
  ReadAdapters.memcpy outputData 0 (data img) 0 (size img).

(** [writeRaw(inputData)]: the image after
    [std::memcpy(data.data(), inputData, size())]. *)
Definition writeRaw (img : Image) (inputData : list byte) : option Image :=
  data' ← ReadAdapters.memcpy (data img) 0 inputData 0 (size img);
  Some (with_data img data').

End CpuImageBulk.

(** ** [src/opengl/adapters.cpp]: flags, texture units, drawing *)

Module GLExt.
Import GL.

(** Values of the OpenGL headers. *)
Definition GL_TEXTURE0 : Z := 0x84C0.
Definition GL_DEPTH_TEST : Z := 0x0B71.
Definition GL_BLEND : Z := 0x0BE2.
Definition GL_TRIANGLES : Z := 0x0004.
Definition GL_UNSIGNED_INT : Z := 0x1405.

(** A context after its error queue was read out under [tag]: the queue
    is empty and the log has one [log_error] line per flag. *)
Definition drained (tag : string) (s : Driver) : Driver :=
  mkDriver (activeTexture s) (textureBinding s) (bufferBinding s)
    (framebufferBinding s) (currentProgram s) [] (faults s) (released s)
    (log s ++ map (λ e, log_error tag "%s produced glError (0x%x)" [e]) (errors s)).

(** The further entry points used by the flag setter, the texture-uniform
    binder, the frame buffer's viewport and the draw. *)
Inductive Call :=
| glIsEnabled (cap : Z)
| glEnable (cap : Z)
| glDisable (cap : Z)
| glActiveTexture (texture : Z)
| glUniform1i (location v0 : Z)
| glUniform2f (location v0 v1 : Z)
| glViewport (x y width height : Z)
| glDrawElements (mode count type : Z).

(** The state a draw call reads, as it stood when the draw was issued. *)
Record Snapshot := mkSnapshot {
  atDriver : Driver;
  atEnabled : gset Z;
  atViewport : Z * Z * Z * Z;
  atUniforms : gmap (Z * Z) (list Z)
}.

(** The context with the capabilities that are enabled, the viewport,
    the uniform values (per program and location) and the draws issued.
    In [driver], [activeTexture] is the index of the active unit: the
    argument of [glActiveTexture] less [GL_TEXTURE0]. *)
Record Context := mkContext {
  driver : Driver;
  enabled : gset Z;
  viewport : Z * Z * Z * Z;
  uniforms : gmap (Z * Z) (list Z);
  draws : list Snapshot
}.

(** The driver's side of a call: the flags scheduled for it are raised. *)
Definition raise (s : Driver) : Driver :=
  mkDriver (activeTexture s) (textureBinding s) (bufferBinding s)
    (framebufferBinding s) (currentProgram s)
    (errors s ++ hd [] (faults s)) (tl (faults s)) (released s) (log s).

Definition set_activeTexture (unit : Z) (s : Driver) : Driver :=
  mkDriver unit (textureBinding s) (bufferBinding s)
    (framebufferBinding s) (currentProgram s)
    (errors s) (faults s) (released s) (log s).

Definition effect (c : Call) (k : Context) : Context :=
  let d := raise (driver k) in
  match c with
  | glIsEnabled _ => mkContext d (enabled k) (viewport k) (uniforms k) (draws k)
  | glEnable cap =>
      mkContext d ({[cap]} ∪ enabled k) (viewport k) (uniforms k) (draws k)
  | glDisable cap =>
      mkContext d (enabled k ∖ {[cap]}) (viewport k) (uniforms k) (draws k)
  | glActiveTexture texture =>
      mkContext (set_activeTexture (texture - GL_TEXTURE0) d)
        (enabled k) (viewport k) (uniforms k) (draws k)
  | glUniform1i location v0 =>
      mkContext d (enabled k) (viewport k)
        (<[(currentProgram d, location) := [v0]]> (uniforms k)) (draws k)
  | glUniform2f location v0 v1 =>
      mkContext d (enabled k) (viewport k)
        (<[(currentProgram d, location) := [v0; v1]]> (uniforms k)) (draws k)
  | glViewport x y w h =>
      mkContext d (enabled k) (x, y, w, h) (uniforms k) (draws k)
  | glDrawElements _ _ _ =>
      mkContext d (enabled k) (viewport k) (uniforms k)
        (draws k ++ [mkSnapshot (driver k) (enabled k) (viewport k) (uniforms k)])
  end.

Inductive OutcomeX (A : Type) :=
| Returned (a : A) (k : Context)
| Aborted (k : Context).
Arguments Returned {A} a k.
Arguments Aborted {A} k.

Definition MX (A : Type) : Type := Context → OutcomeX A.

Definition finalX {A} (o : OutcomeX A) : Context :=
  match o with Returned _ k => k | Aborted k => k end.

#[export] Instance MX_ret : MRet MX := λ A a k, Returned a k.
#[export] Instance MX_bind : MBind MX := λ A B f m k,
  match m k with
  | Returned a k' => f a k'
  | Aborted k' => Aborted k'
  end.

Definition set_driver (k : Context) (s : Driver) : Context :=
  mkContext s (enabled k) (viewport k) (uniforms k) (draws k).

(** A computation of the first layer, run on the driver of the context. *)
Definition lift {A} (m : M A) : MX A := λ k,
  match m (driver k) with
  | Ok a s => Returned a (set_driver k s)
  | Abort s => Aborted (set_driver k s)
  end.

Definition glx (c : Call) : MX unit := λ k, Returned () (effect c k).

Definition isEnabled (cap : Z) : MX bool := λ k,
  Returned (bool_decide (cap ∈ enabled k)) (effect (glIsEnabled cap) k).

(** An exception nobody catches ends the process. *)
Definition terminate {A} : MX A := λ k, Aborted k.

Class TargetX (T : Type) := {
  bindX : T → MX unit;
  unbindX : T → MX unit
}.

#[export] Instance lifted_Target `{Target T} : TargetX T :=
  {| bindX t := lift (bind t); unbindX t := lift (unbind t) |}.

(** [Binder] over the larger context. *)
Definition BinderX `{TargetX T} {A} (target : T) (body : MX A) : MX A :=
  bindX target;; a ← body; unbindX target;; mret a.

(** [GlFlagSetter<flag, targetState>]. *)
Module GlFlagSetter.

Record t := mk { flag : Z; targetState : bool; origState : bool }.

Definition constructor (flag : Z) (targetState : bool) : MX t :=
  origState ← isEnabled flag;
  (if bool_decide (origState ≠ targetState) then
     if targetState then glx (glEnable flag) else glx (glDisable flag)
   else mret ());;
  mret (mk flag targetState origState).

Definition destructor (self : t) : MX unit :=
  if bool_decide (origState self ≠ targetState self) then
    if origState self then glx (glEnable (flag self))
    else glx (glDisable (flag self))
  else mret ().

End GlFlagSetter.

(** The scope of a flag setter declared at the head of a block. *)
Definition withFlag {A} (flag : Z) (targetState : bool) (body : MX A) : MX A :=
  setter ← GlFlagSetter.constructor flag targetState;
  a ← body;
  GlFlagSetter.destructor setter;;
  mret a.

(** [FrameBufferImplementation::setViewport]. *)
Definition setViewport (self : FrameBufferImplementation.t) : MX unit :=
  glx (glViewport 0 0 (FrameBufferImplementation.width self)
         (FrameBufferImplementation.height self));;
  lift (checkError "setViewport").

(** [GlslFragmentShaderImplementation::call]: the locals are destroyed in
    the reverse order of their declaration. *)
Definition call (self : GlslFragmentShaderImplementation.t)
    (frameBuffer : FrameBufferImplementation.t) : MX unit :=
  withFlag GL_DEPTH_TEST false
    (withFlag GL_BLEND false
       (BinderX frameBuffer
          (setViewport frameBuffer;;
           glx (glDrawElements GL_TRIANGLES 6 GL_UNSIGNED_INT);;
           lift (checkError "call")))).

Module TextureUniformBinder.

Record t := mk { slot : Z; bindType : Z; uniformId : Z; textureId : Z }.

Definition bind (self : t) : MX unit :=
  glx (glActiveTexture (GL_TEXTURE0 + slot self));;
  lift (gl (glBindTexture (bindType self) (textureId self)));;
  glx (glUniform1i (uniformId self) (slot self)).

Definition unbind (self : t) : MX unit :=
  glx (glActiveTexture (GL_TEXTURE0 + slot self));;
  lift (gl (glBindTexture (bindType self) 0));;
  glx (glActiveTexture GL_TEXTURE0).

Definition setTextureId (self : t) (id : Z) : t :=
  mk (slot self) (bindType self) (uniformId self) id.

End TextureUniformBinder.

#[export] Instance TextureUniformBinder_Target : TargetX TextureUniformBinder.t :=
  {| bindX := TextureUniformBinder.bind; unbindX := TextureUniformBinder.unbind |}.

Module GlslPipelineImplementation.

Record t := mk {
  outSizeUniform : Z;
  program : GlslFragmentShaderImplementation.t;
  textureBinders : list TextureUniformBinder.t
}.

(** The loop of the constructor: one binder per input, in order, given
    the bind type of the input and the location the driver returned for
    its uniform; the texture id starts at -1. *)
Definition makeBinders (inputs : list (Z * Z)) : list TextureUniformBinder.t :=
  imap (λ i input, TextureUniformBinder.mk (Z.of_nat i) input.1 input.2 (-1)) inputs.

(** [textureName(index, nTextures)]; [None] is the failed [assert]. *)
Definition textureName (index nTextures : nat) : option string :=
  if bool_decide (index < nTextures)%nat then
    Some ("u_texture"
          +:+ (if bool_decide (2 ≤ nTextures ∨ 1 < index)%nat
               then pretty (index + 1)%nat else ""))
  else None.

(** [bindTexture(index, textureId)]: the pipeline with the binder's
    texture id set, and that binder; [None] is the [std::out_of_range] of
    [vector::at]. *)
Definition bindTexture (self : t) (index : nat) (textureId : Z)
  : option (t * TextureUniformBinder.t) :=
  b ← textureBinders self !! index;
  let b' := TextureUniformBinder.setTextureId b textureId in
  Some (mk (outSizeUniform self) (program self)
          (<[index := b']> (textureBinders self)), b').

Definition call (self : t) (frameBuffer : FrameBufferImplementation.t) : MX unit :=
  glx (glUniform2f (outSizeUniform self)
         (FrameBufferImplementation.width frameBuffer)
         (FrameBufferImplementation.height frameBuffer));;
  lift (checkError "call");;
  GLExt.call (program self) frameBuffer.

Definition destroy (self : t) : M t :=
  program' ← GlslFragmentShaderImplementation.destroy (program self);
  mret (mk (outSizeUniform self) program' (textureBinders self)).

Definition bind (self : t) : M unit :=
  GlslFragmentShaderImplementation.bind (program self).

Definition unbind (self : t) : M unit :=
  GlslFragmentShaderImplementation.unbind (program self).

Definition getId (self : t) : Z :=
  GlslFragmentShaderImplementation.getId (program self).

End GlslPipelineImplementation.

#[export] Instance GlslPipeline_Target : Target GlslPipelineImplementation.t :=
  {| GL.bind := GlslPipelineImplementation.bind;
     GL.unbind := GlslPipelineImplementation.unbind |}.

(** The function of the repack shader ([read_adapters.cpp], the lambda
    stored in [shader->function]), on the texture of the input image and
    the frame buffer of the output image. *)
Definition shaderFunction (pipeline : GlslPipelineImplementation.t)
    (inputTextureId : Z) (output : FrameBufferImplementation.t) : MX unit :=
  BinderX pipeline
    (match GlslPipelineImplementation.bindTexture pipeline 0 inputTextureId with
     | None => terminate
     | Some (pipeline', inputBinder) =>
         BinderX inputBinder (GlslPipelineImplementation.call pipeline' output)
     end).

(** A context whose driver has no flag pending and will raise none. *)
Definition calm (k : Context) : Prop :=
  errors (driver k) = [] ∧ faults (driver k) = [].

End GLExt.

(** ** The calls a computation issues on a driver that raises no error *)

Module GLTrace.
Import GL GLExt.

(** A call of either layer. *)
Inductive AnyCall :=
| base (c : GL.Call)
| ext (c : GLExt.Call).

Definition apply (k : Context) (c : AnyCall) : Context :=
  match c with
  | base c => set_driver k (GL.effect c (driver k))
  | ext c => GLExt.effect c k
  end.

(** The context after the calls [cs], in order. *)
Definition replay (cs : list AnyCall) (k : Context) : Context := foldl apply k cs.

(** From a calm context [k], [m] returns [a] and has issued exactly the
    calls [cs]. *)
Definition issues {A} (m : MX A) (k : Context) (cs : list AnyCall) (a : A) : Prop :=
  calm k → m k = Returned a (replay cs k).

(** The calls of a block that starts with a [GlFlagSetter<flag, target>]
    and then issues [body], when the flag was [orig] on entry. *)
Definition flagCalls (flag : Z) (target orig : bool) (body : list AnyCall)
  : list AnyCall :=
  ext (glIsEnabled flag)
  :: (if xorb orig target
      then [ext (if target then glEnable flag else glDisable flag)] else [])
  ++ body
  ++ (if xorb orig target
      then [ext (if orig then glEnable flag else glDisable flag)] else []).

(** The calls of [shaderFunction], in order, when depth test and
    blending were [depthTest] and [blend] on entry: bind the pipeline,
    bind the input texture, set the output size, draw into the output
    frame buffer with both flags off, and undo the bindings in reverse
    order. *)
Definition shaderFunctionCalls (pipeline : GlslPipelineImplementation.t)
    (binder : TextureUniformBinder.t) (inputTextureId : Z)
    (output : FrameBufferImplementation.t) (depthTest blend : bool)
  : list AnyCall :=
  let runner := GlslPipelineImplementation.program pipeline in
  let vb := GlslFragmentShaderImplementation.vertexBuffer runner in
  let vib := GlslFragmentShaderImplementation.vertexIndexBuffer runner in
  let av := GlslFragmentShaderImplementation.aVertexData runner in
  let slot := TextureUniformBinder.slot binder in
  let bt := TextureUniformBinder.bindType binder in
  let w := FrameBufferImplementation.width output in
  let h := FrameBufferImplementation.height output in
  [base (glUseProgram (GlslFragmentShaderImplementation.getId runner));
   base (glBindBuffer GL_ARRAY_BUFFER vb);
   base (glBindBuffer GL_ELEMENT_ARRAY_BUFFER vib);
   base (glEnableVertexAttribArray av);
   base (glVertexAttribPointer av);
   ext (glActiveTexture (GL_TEXTURE0 + slot));
   base (glBindTexture bt inputTextureId);
   ext (glUniform1i (TextureUniformBinder.uniformId binder) slot);
   ext (glUniform2f (GlslPipelineImplementation.outSizeUniform pipeline) w h)]
  ++ flagCalls GL_DEPTH_TEST false depthTest
       (flagCalls GL_BLEND false blend
          [base (glBindFramebuffer (FrameBufferImplementation.id output));
           ext (glViewport 0 0 w h);
           ext (glDrawElements GL_TRIANGLES 6 GL_UNSIGNED_INT);
           base (glBindFramebuffer 0)])
  ++ [ext (glActiveTexture (GL_TEXTURE0 + slot));
      base (glBindTexture bt 0);
      ext (glActiveTexture GL_TEXTURE0);
      base (glDisableVertexAttribArray av);
      base (glBindBuffer GL_ELEMENT_ARRAY_BUFFER 0);
      base (glBindBuffer GL_ARRAY_BUFFER 0);
      base (glUseProgram 0)].

(** What a call does to one observable of the context, given the
    observable before the call. *)
Definition program_after (c : AnyCall) (old : Z) : Z :=
  match c with base (glUseProgram program) => program | _ => old end.

Definition framebuffer_after (c : AnyCall) (old : Z) : Z :=
  match c with base (glBindFramebuffer framebuffer) => framebuffer | _ => old end.

Definition viewport_after (c : AnyCall) (old : Z * Z * Z * Z) : Z * Z * Z * Z :=
  match c with ext (glViewport x y w h) => (x, y, w, h) | _ => old end.

Definition unit_after (c : AnyCall) (old : Z) : Z :=
  match c with ext (glActiveTexture texture) => texture - GL_TEXTURE0 | _ => old end.

(** Whether [flag] is enabled. *)
Definition flag_after (flag : Z) (c : AnyCall) (old : bool) : bool :=
  match c with
  | ext (glEnable cap) => bool_decide (cap = flag) || old
  | ext (glDisable cap) => negb (bool_decide (cap = flag)) && old
  | _ => old
  end.

(** The buffer bound to [target]. *)
Definition buffer_after (target : Z) (c : AnyCall) (old : option Z) : option Z :=
  match c with
  | base (glBindBuffer target' buffer) =>
      if bool_decide (target' = target) then Some buffer else old
  | _ => old
  end.

(** The active unit, and the texture bound to [key] = (unit, target). *)
Definition texture_after (key : Z * Z) (c : AnyCall) (old : Z * option Z)
  : Z * option Z :=
  match c with
  | ext (glActiveTexture texture) => (texture - GL_TEXTURE0, old.2)
  | base (glBindTexture target texture) =>
      (old.1, if bool_decide ((old.1, target) = key) then Some texture else old.2)
  | _ => old
  end.

(** The current program, and the value of the uniform [key] =
    (program, location). *)
Definition uniform_after (key : Z * Z) (c : AnyCall) (old : Z * option (list Z))
  : Z * option (list Z) :=
  match c with
  | base (glUseProgram program) => (program, old.2)
  | ext (glUniform1i location v0) =>
      (old.1, if bool_decide ((old.1, location) = key) then Some [v0] else old.2)
  | ext (glUniform2f location v0 v1) =>
      (old.1, if bool_decide ((old.1, location) = key) then Some [v0; v1] else old.2)
  | _ => old
  end.

Definition is_draw (c : AnyCall) : bool :=
  match c with ext (glDrawElements _ _ _) => true | _ => false end.

(** The state a draw issued on [k] records. *)
Definition snapshot (k : Context) : Snapshot :=
  mkSnapshot (driver k) (enabled k) (viewport k) (uniforms k).

(** For each draw among [cs], the calls that precede it (after [pre]). *)
Fixpoint draw_prefixes (pre cs : list AnyCall) : list (list AnyCall) :=
  match cs with
  | [] => []
  | c :: cs' =>
      (if is_draw c then [pre] else []) ++ draw_prefixes (pre ++ [c]) cs'
  end.

End GLTrace.

(* ===================================================================== *)
(** * Part II: properties                                                 *)
(* ===================================================================== *)

Section CIntFacts.

Lemma wrap_in_range z : CInt.in_range z → CInt.wrap z = z.
Proof.
  unfold CInt.in_range, CInt.INT_MIN, CInt.INT_MAX, CInt.wrap. intros H.
  rewrite Z.mod_small by lia. lia.
Qed.

End CIntFacts.

(** Range side conditions, once the three constants are visible. *)
Ltac int_range :=
  unfold CInt.in_range, CInt.INT_MIN, CInt.INT_MAX in *; first [lia | nia].

Section CIntOps.

Lemma add_exact a b : CInt.in_range (a + b) → a [+] b = a + b.
Proof. apply wrap_in_range. Qed.

Lemma sub_exact a b : CInt.in_range (a - b) → a [-] b = a - b.
Proof. apply wrap_in_range. Qed.

Lemma mul_exact a b : CInt.in_range (a * b) → a [*] b = a * b.
Proof. apply wrap_in_range. Qed.

Lemma neg_exact a : CInt.in_range (- a) → CInt.neg a = - a.
Proof. apply wrap_in_range. Qed.

Lemma rem_exact a b : CInt.in_range (Z.rem a b) → a [%] b = Z.rem a b.
Proof. apply wrap_in_range. Qed.

Lemma div_exact a b : CInt.in_range (Z.quot a b) → a [/] b = Z.quot a b.
Proof. apply wrap_in_range. Qed.

Lemma in_range_between lo hi z :
  CInt.in_range lo → CInt.in_range hi → lo ≤ z ≤ hi → CInt.in_range z.
Proof. unfold CInt.in_range. lia. Qed.

End CIntOps.

(** ** Border policy *)

Section BorderFacts.
Import CpuImage.

(** The early return of [applyBorder1D]: an index inside the extent is
    left alone whatever the mode. *)
Lemma applyBorder1D_inside i size border :
  0 ≤ i < size → applyBorder1D i size border = Some (true, i).
Proof.
  intros Hin. unfold applyBorder1D.
  rewrite bool_decide_eq_true_2; [done | lia].
Qed.

Lemma applyBorder1D_ZERO_outside i size :
  ¬ (0 ≤ i < size) → applyBorder1D i size ZERO = Some (false, i).
Proof.
  intros Hout. unfold applyBorder1D.
  rewrite bool_decide_eq_false_2; [done | lia].
Qed.

(** C3, evaluated: on a 4 x 1 image, WRAP sends x = -4 to 4, which is
    not a column of the image, and still reports a valid sample. *)
Theorem applyBorder_WRAP_minus_width :
  let img := create 4 1 1 1 in
  applyBorder img (-4) 0 WRAP = Some (true, 4, 0) ∧ ¬ (4 < width img).
Proof. intros img. split; [reflexivity | simpl; lia]. Qed.

(** The general shape of that case: a negative multiple of [size] leaves
    [size - 0]. *)
Lemma applyBorder1D_WRAP_negative_multiple size k :
  1 ≤ size → 1 ≤ k → k * size ≤ CInt.INT_MAX →
  applyBorder1D (- (k * size)) size WRAP = Some (true, size).
Proof.
  intros Hs Hk Hmax. unfold applyBorder1D.
  assert (CInt.in_range size) by (unfold CInt.in_range, CInt.INT_MAX, CInt.INT_MIN in *; nia).
  rewrite bool_decide_eq_false_2 by nia.
  rewrite bool_decide_eq_true_2 by nia.
  rewrite neg_exact by (unfold CInt.in_range, CInt.INT_MAX, CInt.INT_MIN in *; nia).
  rewrite Z.opp_involutive.
  rewrite rem_exact; rewrite Z.rem_mul by lia;
    [| unfold CInt.in_range, CInt.INT_MAX, CInt.INT_MIN; lia].
  rewrite sub_exact; rewrite Z.sub_0_r; done.
Qed.

(** WRAP never fails and always reports a valid sample. *)
Lemma applyBorder1D_WRAP_true i size :
  ∃ i', applyBorder1D i size WRAP = Some (true, i').
Proof.
  unfold applyBorder1D. case_bool_decide; eauto.
Qed.

(** What WRAP does guarantee: the result lies in [0, size], and in
    [0, size) for every index that is not a negative multiple of [size]. *)
Lemma applyBorder1D_WRAP_range i size i' :
  1 ≤ size → CInt.in_range size → CInt.INT_MIN < i ≤ CInt.INT_MAX →
  applyBorder1D i size WRAP = Some (true, i') →
  0 ≤ i' ≤ size ∧ (i' = size ↔ i < 0 ∧ Z.rem i size = 0).
Proof.
  intros Hs Hr Hi. unfold applyBorder1D.
  unfold CInt.in_range, CInt.INT_MAX, CInt.INT_MIN in *.
  case_bool_decide as Hin; [intros [= <-]; lia |].
  case_bool_decide as Hneg; intros [= <-].
  - rewrite neg_exact by (unfold CInt.in_range, CInt.INT_MAX, CInt.INT_MIN; lia).
    pose proof (Z.rem_bound_pos (- i) size ltac:(lia) ltac:(lia)) as Hb.
    rewrite rem_exact by (unfold CInt.in_range, CInt.INT_MAX, CInt.INT_MIN; lia).
    rewrite sub_exact by (unfold CInt.in_range, CInt.INT_MAX, CInt.INT_MIN; lia).
    rewrite Z.rem_opp_l in * by lia. lia.
  - pose proof (Z.rem_bound_pos i size ltac:(lia) ltac:(lia)) as Hb.
    rewrite rem_exact by (unfold CInt.in_range, CInt.INT_MAX, CInt.INT_MIN; lia).
    lia.
Qed.

(** The same on both axes of an image. *)
Lemma applyBorder_inside img x y border :
  0 ≤ x < width img → 0 ≤ y < height img →
  applyBorder img x y border = Some (true, x, y).
Proof.
  intros Hx Hy. unfold applyBorder.
  by rewrite !applyBorder1D_inside.
Qed.

Lemma applyBorder_ZERO_outside img x y :
  ¬ (0 ≤ x < width img ∧ 0 ≤ y < height img) →
  applyBorder img x y ZERO = Some (false, x, y).
Proof.
  intros Hout. unfold applyBorder.
  destruct (decide (0 ≤ x < width img)) as [Hx|Hx].
  - rewrite applyBorder1D_inside by done.
    by rewrite applyBorder1D_ZERO_outside by tauto.
  - by rewrite applyBorder1D_ZERO_outside by done.
Qed.

(** C8: an index already inside [0, size) is returned unchanged and
    valid by every mode (REPEAT, WRAP, MIRROR and ZERO among them), so
    applying the border a second time changes nothing; under ZERO an index
    outside the range is reported invalid. The same holds for the two
    coordinates of [applyBorder]: a pixel inside the image is returned
    unchanged and valid, and under ZERO a pixel with a coordinate outside
    is reported invalid. *)
Theorem applyBorder_in_range_fixed img i j size x y x' y' border :
  0 ≤ i < size → ¬ (0 ≤ j < size) →
  0 ≤ x < width img → 0 ≤ y < height img →
  ¬ (0 ≤ x' < width img ∧ 0 ≤ y' < height img) →
  applyBorder1D i size border = Some (true, i)
  ∧ (applyBorder1D i size border ≫= λ r, applyBorder1D r.2 size border)
      = applyBorder1D i size border
  ∧ applyBorder1D j size ZERO = Some (false, j)
  ∧ applyBorder img x y border = Some (true, x, y)
  ∧ applyBorder img x' y' ZERO = Some (false, x', y').
Proof.
  intros Hin Hout Hx Hy Hxy. rewrite (applyBorder1D_inside i) by done. simpl.
  rewrite (applyBorder1D_inside i) by done.
  rewrite applyBorder1D_ZERO_outside by done.
  rewrite applyBorder_inside by done.
  by rewrite applyBorder_ZERO_outside by done.
Qed.

Lemma applyBorder_in_range_fixed_witness :
  applyBorder1D 2 4 WRAP = Some (true, 2)
  ∧ (applyBorder1D 2 4 WRAP ≫= λ r, applyBorder1D r.2 4 WRAP)
      = applyBorder1D 2 4 WRAP
  ∧ applyBorder1D 7 4 ZERO = Some (false, 7)
  ∧ applyBorder (create 4 3 1 1) 3 2 WRAP = Some (true, 3, 2)
  ∧ applyBorder (create 4 3 1 1) 1 (-1) ZERO = Some (false, 1, -1).
Proof.
  apply (applyBorder_in_range_fixed (create 4 3 1 1) 2 7 4 3 2 1 (-1) WRAP);
    simpl; lia.
Defined.

(** REPEAT, unlike WRAP, does land in the extent from anywhere. *)
Lemma applyBorder1D_REPEAT_range i size :
  1 ≤ size → CInt.in_range size →
  ∃ i', applyBorder1D i size REPEAT = Some (true, i') ∧ 0 ≤ i' < size.
Proof.
  intros Hs Hr. unfold applyBorder1D.
  unfold CInt.in_range, CInt.INT_MAX, CInt.INT_MIN in *.
  repeat case_bool_decide; eexists; (split; [done |]);
    rewrite ?sub_exact by (unfold CInt.in_range, CInt.INT_MAX, CInt.INT_MIN; lia); lia.
Qed.

End BorderFacts.

(** ** Pixel addressing of the host image *)

Section CopyLoop.
Import CpuImage.

Lemma at_Some {A} (v : list A) k a :
  0 ≤ k → v !! Z.to_nat k = Some a → at_ v k = Some a.
Proof. intros Hk Hv. unfold at_. by rewrite bool_decide_eq_true_2. Qed.

Lemma store_Some {A} (v : list A) k a :
  0 ≤ k < Z.of_nat (length v) → store v k a = Some (<[Z.to_nat k := a]> v).
Proof. intros Hk. unfold store. by rewrite bool_decide_eq_true_2. Qed.

(** The loop is a block copy: [n] bytes of [src] from [i + srcOff] land in
    [dst] from [i + dstOff], provided both ranges lie inside the arrays. *)
Lemma copy_loop_spec n : ∀ src srcOff dst dstOff i,
  0 ≤ i + srcOff → i + srcOff + Z.of_nat n ≤ Z.of_nat (length src) →
  0 ≤ i + dstOff → i + dstOff + Z.of_nat n ≤ Z.of_nat (length dst) →
  copy_loop src srcOff dst dstOff i n
  = Some (list_inserts (Z.to_nat (i + dstOff))
            (take n (drop (Z.to_nat (i + srcOff)) src)) dst).
Proof.
  induction n as [|n IH]; intros src srcOff dst dstOff i Hs0 Hs1 Hd0 Hd1.
  - by rewrite take_0.
  - destruct (lookup_lt_is_Some_2 src (Z.to_nat (i + srcOff)) ltac:(lia)) as [b Hb].
    cbn [copy_loop]. rewrite (at_Some _ _ b) by done. cbn [mbind option_bind].
    rewrite store_Some by lia. cbn [mbind option_bind].
    rewrite IH by (rewrite ?length_insert; lia).
    f_equal. rewrite (drop_S _ _ _ Hb). cbn [take list_inserts].
    replace (Z.to_nat (i + 1 + dstOff)) with (S (Z.to_nat (i + dstOff))) by lia.
    replace (Z.to_nat (i + 1 + srcOff)) with (S (Z.to_nat (i + srcOff))) by lia.
    rewrite list_insert_inserts_lt by lia. done.
Qed.

Lemma take_drop_inserts {A} (l k : list A) (o : nat) :
  (o + length k ≤ length l)%nat →
  take (length k) (drop o (list_inserts o k l)) = k.
Proof.
  intros Hlen. apply list_eq. intros j.
  destruct (decide (j < length k)%nat) as [Hj|Hj].
  - rewrite lookup_take_lt, lookup_drop by done.
    rewrite list_lookup_inserts by lia. f_equal. lia.
  - rewrite lookup_take_ge by lia. symmetry. apply lookup_ge_None. lia.
Qed.

End CopyLoop.

Section Addressing.
Import CpuImage.

Variable img : Image.
Hypothesis Hvalid : valid img.

Local Abbreviation w := (width img).
Local Abbreviation h := (height img).
Local Abbreviation ch := (channels img).
Local Abbreviation bpc := (bytesPerChannel img).

(** Pixels do not overlap and the last one ends at [size()]. *)
Lemma pixel_bounds x y :
  0 ≤ x < w → 0 ≤ y < h →
  0 ≤ y * w ≤ y * w + x ∧ y * w + x ≤ w * h - 1
  ∧ 0 ≤ (y * w + x) * ch ≤ (w * h - 1) * ch
  ∧ 0 ≤ (y * w + x) * ch * bpc ≤ size img - ch * bpc
  ∧ (w * h - 1) * ch ≤ size img ∧ w * h - 1 ≤ size img.
Proof.
  destruct Hvalid as (Hw & Hh & Hch & Hbpc & Hmax & Hlen).
  unfold size. intros Hx Hy.
  assert (y * w + x ≤ w * h - 1) by nia.
  assert (0 ≤ y * w) by nia.
  assert (0 ≤ w * h - 1) by nia.
  assert ((y * w + x) * ch ≤ (w * h - 1) * ch) by nia.
  assert (0 ≤ (y * w + x) * ch) by nia.
  assert ((y * w + x) * ch * bpc ≤ (w * h - 1) * ch * bpc) by nia.
  assert (0 ≤ (w * h - 1) * ch) by nia.
  assert ((w * h - 1) * ch ≤ (w * h - 1) * ch * bpc) by nia.
  assert (w * h - 1 ≤ (w * h - 1) * ch) by nia.
  repeat split; try lia; nia.
Qed.

(** Without overflow, [index] is the row-major, channel-interleaved
    offset of the pixel. *)
Lemma index_exact x y :
  0 ≤ x < w → 0 ≤ y < h → index img x y = (y * w + x) * ch * bpc.
Proof.
  intros Hx Hy. pose proof (pixel_bounds x y Hx Hy) as Hb.
  destruct Hvalid as (Hw & Hh & Hch & Hbpc & Hmax & Hlen).
  assert (0 ≤ ch * bpc) by nia.
  unfold index. unfold CInt.INT_MAX in Hmax.
  rewrite (mul_exact y w) by int_range.
  rewrite add_exact by int_range.
  rewrite (mul_exact _ ch) by int_range.
  rewrite mul_exact by int_range.
  done.
Qed.

(** The byte offset of one channel of one pixel, and the room after it. *)
Lemma offset_exact x y channel :
  0 ≤ x < w → 0 ≤ y < h → 0 ≤ channel < ch →
  index img x y [+] channel [*] bpc = (y * w + x) * ch * bpc + channel * bpc
  ∧ 0 ≤ (y * w + x) * ch * bpc + channel * bpc
  ∧ (y * w + x) * ch * bpc + channel * bpc + bpc ≤ Z.of_nat (length (data img)).
Proof.
  intros Hx Hy Hc. pose proof (pixel_bounds x y Hx Hy) as Hb.
  rewrite index_exact by done.
  destruct Hvalid as (Hw & Hh & Hch & Hbpc & Hmax & Hlen).
  assert (0 ≤ channel * bpc ≤ (ch - 1) * bpc) by nia.
  unfold CInt.INT_MAX in Hmax.
  rewrite (mul_exact channel) by int_range.
  rewrite add_exact by int_range.
  split; [done | lia].
Qed.

End Addressing.

Section RoundTrip.
Import CpuImage.

(** [set] writes one block: the first [bytesPerChannel] bytes of the
    source array, at the channel's offset. *)
Lemma set_spec img x y channel srcArray :
  valid img →
  0 ≤ x < width img → 0 ≤ y < height img → 0 ≤ channel < channels img →
  bytesPerChannel img ≤ Z.of_nat (length srcArray) →
  let bpc := bytesPerChannel img in
  let offset := (y * width img + x) * channels img * bpc + channel * bpc in
  set img x y channel srcArray
  = Some (mkImage (width img) (height img) (channels img) bpc
            (list_inserts (Z.to_nat offset) (take (Z.to_nat bpc) srcArray) (data img))).
Proof.
  intros Hvalid Hx Hy Hc Hsrc bpc offset.
  destruct (offset_exact img Hvalid x y channel Hx Hy Hc) as (Hoff & Hoff0 & Hoff1).
  fold bpc offset in Hoff, Hoff0, Hoff1.
  pose proof Hvalid as (Hw & Hh & Hch & Hbpc & Hmax & Hlen). fold bpc in Hbpc.
  unfold set. rewrite bool_decide_eq_true_2 by lia.
  fold bpc. rewrite Hoff.
  rewrite copy_loop_spec by lia. cbn [mbind option_bind].
  by rewrite !Z.add_0_l, drop_0.
Qed.

(** [get] reads one block from the channel's offset into the front of
    the caller's array. *)
Lemma get_spec img x y channel targetArray :
  valid img →
  0 ≤ x < width img → 0 ≤ y < height img → 0 ≤ channel < channels img →
  bytesPerChannel img ≤ Z.of_nat (length targetArray) →
  let bpc := bytesPerChannel img in
  let offset := (y * width img + x) * channels img * bpc + channel * bpc in
  get img x y channel targetArray
  = Some (take (Z.to_nat bpc) (drop (Z.to_nat offset) (data img))
          ++ drop (Z.to_nat bpc) targetArray).
Proof.
  intros Hvalid Hx Hy Hc Htgt bpc offset.
  destruct (offset_exact img Hvalid x y channel Hx Hy Hc) as (Hoff & Hoff0 & Hoff1).
  fold bpc offset in Hoff, Hoff0, Hoff1.
  pose proof Hvalid as (Hw & Hh & Hch & Hbpc & Hmax & Hlen). fold bpc in Hbpc.
  unfold get. rewrite bool_decide_eq_true_2 by lia.
  fold bpc. rewrite Hoff.
  rewrite copy_loop_spec by lia. f_equal.
  rewrite !Z.add_0_l. change (Z.to_nat 0) with 0%nat.
  rewrite <- (take_drop (Z.to_nat bpc) targetArray) at 1.
  rewrite list_inserts_0_r; [done |]. rewrite !length_take, length_drop. lia.
Qed.

Lemma set_preserves_valid img x y channel srcArray img' :
  valid img →
  0 ≤ x < width img → 0 ≤ y < height img → 0 ≤ channel < channels img →
  bytesPerChannel img ≤ Z.of_nat (length srcArray) →
  set img x y channel srcArray = Some img' →
  valid img'.
Proof.
  intros Hvalid Hx Hy Hc Hsrc. rewrite set_spec by done. intros [= <-].
  unfold valid, size in *. cbn [width height channels bytesPerChannel data].
  rewrite length_inserts. done.
Qed.

(** C7: on a valid image, [set] on an in-bounds pixel and channel
    succeeds and overwrites exactly the bytes from offset
    [(y*width + x)*channels*bytesPerChannel + channel*bytesPerChannel]
    with the first [bytesPerChannel] bytes of the source array; a [get] at
    the same place then delivers those bytes to the caller's array. *)
Theorem set_get_roundtrip img x y channel srcArray targetArray :
  valid img →
  0 ≤ x < width img → 0 ≤ y < height img → 0 ≤ channel < channels img →
  bytesPerChannel img ≤ Z.of_nat (length srcArray) →
  bytesPerChannel img ≤ Z.of_nat (length targetArray) →
  let bpc := bytesPerChannel img in
  let offset := (y * width img + x) * channels img * bpc + channel * bpc in
  let written := take (Z.to_nat bpc) srcArray in
  ∃ img',
    set img x y channel srcArray = Some img'
    ∧ data img' = list_inserts (Z.to_nat offset) written (data img)
    ∧ get img' x y channel targetArray
      = Some (written ++ drop (Z.to_nat bpc) targetArray).
Proof.
  intros Hvalid Hx Hy Hc Hsrc Htgt bpc offset written.
  destruct (offset_exact img Hvalid x y channel Hx Hy Hc) as (_ & Hoff0 & Hoff1).
  fold bpc offset in Hoff0, Hoff1.
  pose proof Hvalid as (_ & _ & _ & Hbpc & _). fold bpc in Hbpc.
  pose proof (set_spec img x y channel srcArray Hvalid Hx Hy Hc Hsrc) as Hset.
  cbv zeta in Hset. fold bpc offset written in Hset.
  pose proof (set_preserves_valid _ _ _ _ _ _ Hvalid Hx Hy Hc Hsrc Hset) as Hvalid'.
  eexists. split; [exact Hset | split; [done |]].
  rewrite get_spec by done. cbn [width height channels bytesPerChannel data].
  fold bpc offset. do 2 f_equal.
  assert (Hwlen : length written = Z.to_nat bpc).
  { unfold written. rewrite length_take. lia. }
  rewrite <- Hwlen. apply take_drop_inserts. lia.
Qed.

Lemma set_get_roundtrip_witness :
  ∃ img',
    set (create 2 2 2 1) 1 1 0 [x2a%byte] = Some img'
    ∧ data img' = list_inserts 6 [x2a%byte] (data (create 2 2 2 1))
    ∧ get img' 1 1 0 [x00%byte] = Some [x2a%byte].
Proof.
  apply (set_get_roundtrip (create 2 2 2 1) 1 1 0 [x2a%byte] [x00%byte]);
    try (simpl; lia).
  unfold valid, size, CInt.INT_MAX. simpl. lia.
Defined.

(** The bytes outside the written channel keep their value. *)
Lemma set_frame img x y channel srcArray img' (k : nat) :
  valid img →
  0 ≤ x < width img → 0 ≤ y < height img → 0 ≤ channel < channels img →
  bytesPerChannel img ≤ Z.of_nat (length srcArray) →
  set img x y channel srcArray = Some img' →
  let bpc := bytesPerChannel img in
  let offset := (y * width img + x) * channels img * bpc + channel * bpc in
  (Z.of_nat k < offset ∨ offset + bpc ≤ Z.of_nat k) →
  data img' !! k = data img !! k.
Proof.
  intros Hvalid Hx Hy Hc Hsrc Hset bpc offset Hk.
  rewrite set_spec in Hset by done. injection Hset as <-. cbn [data].
  fold bpc offset.
  destruct (offset_exact img Hvalid x y channel Hx Hy Hc) as (_ & Hoff0 & _).
  fold bpc offset in Hoff0.
  pose proof Hvalid as (_ & _ & _ & Hbpc & _). fold bpc in Hbpc.
  destruct Hk as [Hk|Hk].
  - apply list_lookup_inserts_lt. lia.
  - apply list_lookup_inserts_ge. rewrite length_take. lia.
Qed.

End RoundTrip.

(** ** OpenGL wrappers: error check, destroy, finalization, unbind *)

Section CheckError.
Import GL.

Lemma same_context_refl s : same_context s s.
Proof. by repeat split. Qed.

Lemma same_context_trans s1 s2 s3 :
  same_context s1 s2 → same_context s2 s3 → same_context s1 s3.
Proof. unfold same_context. intuition congruence. Qed.

(** Draining the error queue touches the queue and the log, nothing else. *)
Lemma checkError_loop_frame fuel tag : ∀ any s,
  same_context s (final (checkError_loop fuel tag any s)).
Proof.
  induction fuel as [|fuel IH]; intros any s; [apply same_context_refl |].
  cbn [checkError_loop]. unfold mbind, M_bind, glGetError.
  destruct (errors s) as [|e es] eqn:He.
  - rewrite bool_decide_eq_false_2 by tauto. apply same_context_refl.
  - case_bool_decide; [| by repeat split].
    unfold emit. cbn -[checkError_loop same_context].
    eapply same_context_trans; [| apply IH]. by repeat split.
Qed.

Lemma checkError_frame tag s : same_context s (final (checkError tag s)).
Proof.
  unfold checkError, mbind, M_bind.
  pose proof (checkError_loop_frame (S (length (errors s))) tag false s) as H.
  destruct (checkError_loop _ _ _ _) as [[] s'|s']; exact H.
Qed.

(** With nothing pending the check returns at once. *)
Lemma checkError_quiet tag s : errors s = [] → checkError tag s = Ok () s.
Proof.
  intros He. unfold checkError. rewrite He. cbn.
  unfold mbind, M_bind, glGetError. rewrite He.
  by rewrite bool_decide_eq_false_2 by tauto.
Qed.

(** The fuel is enough: the loop ends on an empty queue or on a zero
    flag, never by running out of turns. *)
Lemma checkError_loop_drains tag : ∀ pending fuel any s,
  errors s = pending → Forall (λ e, e ≠ 0) pending → (length pending < fuel)%nat →
  ∃ s', checkError_loop fuel tag any s
        = Ok (any || bool_decide (pending ≠ [])) s'
        ∧ errors s' = [].
Proof.
  induction pending as [|e es IH]; intros fuel any s He Hnz Hfuel.
  - destruct fuel as [|fuel]; [simpl in Hfuel; lia |].
    exists s. cbn [checkError_loop]. unfold mbind, M_bind, glGetError.
    rewrite He, bool_decide_eq_false_2 by tauto.
    by rewrite orb_false_r.
  - destruct fuel as [|fuel]; [simpl in Hfuel; lia |].
    apply Forall_cons in Hnz as [Hnz1 Hnz2].
    cbn [checkError_loop]. unfold mbind, M_bind, glGetError. rewrite He.
    rewrite bool_decide_eq_true_2 by done.
    unfold emit. cbn -[checkError_loop].
    match goal with
    | |- context [checkError_loop fuel tag true ?s0] =>
        destruct (IH fuel true s0 eq_refl Hnz2 ltac:(simpl in Hfuel; lia))
          as (s' & Hrun & Hs')
    end.
    exists s'. rewrite Hrun. split; [| done].
    by rewrite orb_true_r.
Qed.

(** A pending flag is fatal. *)
Lemma checkError_pending tag s :
  errors s ≠ [] → Forall (λ e, e ≠ 0) (errors s) →
  ∃ s', checkError tag s = Abort s' ∧ errors s' = [].
Proof.
  intros Hne Hnz. unfold checkError.
  destruct (checkError_loop_drains tag (errors s) (S (length (errors s))) false s)
    as (s' & Hrun & Hs'); [done | done | lia |].
  exists s'. unfold mbind, M_bind. rewrite Hrun.
  by rewrite bool_decide_eq_true_2.
Qed.

End CheckError.

Section Destroy.
Import GL.

(** After [destroy] the texture name is zero, and a second [destroy]
    returns without touching the context. *)
Lemma Texture_destroy_idempotent (self : TextureImplementation.t) s :
  ∃ self' s',
    destroy self s = Ok self' s'
    ∧ TextureImplementation.id self' = 0
    ∧ destroy self' s' = Ok self' s'.
Proof.
  destruct self as [bt id]. cbn. unfold TextureImplementation.destroy.
  cbn [TextureImplementation.id TextureImplementation.bindType].
  case_bool_decide; cbn;
    (do 2 eexists; split; [reflexivity |]; split; [done |]);
    by rewrite bool_decide_eq_false_2 by (intros Hz; by apply Hz).
Qed.

Lemma FrameBuffer_destroy_idempotent (self : FrameBufferImplementation.t) s :
  ∃ self' s',
    destroy self s = Ok self' s'
    ∧ FrameBufferImplementation.id self' = 0
    ∧ FrameBufferImplementation.getTextureId self' = 0
    ∧ destroy self' s' = Ok self' s'.
Proof.
  destruct self as [w h id [bt tid]]. cbn.
  unfold FrameBufferImplementation.destroy, TextureImplementation.destroy.
  cbn [FrameBufferImplementation.id FrameBufferImplementation.texture
       FrameBufferImplementation.width FrameBufferImplementation.height
       TextureImplementation.id TextureImplementation.bindType].
  do 2 case_bool_decide; cbn;
    (do 2 eexists; split; [reflexivity |]; split; [done |]; split; [done |]);
    by rewrite !bool_decide_eq_false_2 by (intros Hz; by apply Hz).
Qed.

Lemma GlslProgram_destroy_idempotent (self : GlslProgramImplementation.t) s :
  ∃ self' s',
    destroy self s = Ok self' s'
    ∧ GlslProgramImplementation.program self' = 0
    ∧ destroy self' s' = Ok self' s'.
Proof.
  destruct self as [p]. cbn. unfold GlslProgramImplementation.destroy.
  cbn [GlslProgramImplementation.program].
  case_bool_decide as Hp.
  - do 2 eexists. split; [reflexivity |]. split; [done |].
    by rewrite bool_decide_eq_false_2 by (intros Hz; by apply Hz).
  - assert (p = 0) as -> by lia.
    do 2 eexists. split; [reflexivity |]. split; [done |].
    by rewrite bool_decide_eq_false_2 by (intros Hz; by apply Hz).
Qed.

(** The runner is the odd one out: [destroy] clears the program name, but
    leaves both buffer names as they were, so the guard of the second call
    is still true and both buffers are deleted again. *)
Lemma GlslFragmentShader_destroy_again (self : GlslFragmentShaderImplementation.t) s :
  GlslFragmentShaderImplementation.vertexBuffer self ≠ 0 →
  ∃ self' s' s'',
    destroy self s = Ok self' s'
    ∧ GlslFragmentShaderImplementation.vertexBuffer self'
      = GlslFragmentShaderImplementation.vertexBuffer self
    ∧ GlslFragmentShaderImplementation.getId self' = 0
    ∧ destroy self' s' = Ok self' s''
    ∧ released s''
      = released s'
        ++ [glDeleteBuffers (GlslFragmentShaderImplementation.vertexBuffer self);
            glDeleteBuffers (GlslFragmentShaderImplementation.vertexIndexBuffer self)].
Proof.
  intros Hvb. destruct self as [vb vib av [p]]. cbn in Hvb |- *.
  unfold GlslFragmentShaderImplementation.destroy, GlslProgramImplementation.destroy.
  cbn [GlslFragmentShaderImplementation.vertexBuffer
       GlslFragmentShaderImplementation.vertexIndexBuffer
       GlslFragmentShaderImplementation.aVertexData
       GlslFragmentShaderImplementation.program GlslProgramImplementation.program].
  rewrite !(bool_decide_eq_true_2 (vb ≠ 0)) by done.
  destruct (decide (p = 0)) as [->|Hp].
  - rewrite !(bool_decide_eq_false_2 (0 ≠ 0)) by (intros Hz; by apply Hz).
    do 3 eexists. split; [reflexivity |]. do 2 (split; [done |]).
    rewrite (bool_decide_eq_true_2 (vb ≠ 0)) by done.
    rewrite (bool_decide_eq_false_2 (0 ≠ 0)) by (intros Hz; by apply Hz).
    split; [reflexivity |]. cbn. by rewrite <- !app_assoc.
  - rewrite (bool_decide_eq_true_2 (p ≠ 0)) by done.
    do 3 eexists. split; [reflexivity |]. do 2 (split; [done |]).
    rewrite (bool_decide_eq_true_2 (vb ≠ 0)) by done.
    rewrite (bool_decide_eq_false_2 (0 ≠ 0)) by (intros Hz; by apply Hz).
    split; [reflexivity |]. cbn. by rewrite <- !app_assoc.
Qed.

(** C5, evaluated: a runner with buffers 1 and 2 and program 3. The first
    [destroy] releases the three objects and leaves [vertexBuffer] at 1;
    the second one issues [glDeleteBuffers] for both buffers once more. *)
Theorem GlslFragmentShader_destroy_twice :
  let runner :=
    GlslFragmentShaderImplementation.mk 1 2 0 (GlslProgramImplementation.mk 3) in
  let twice := (self ← destroy runner; destroy self) in
  ∃ self',
    result (destroy runner quiet) = Some self'
    ∧ GlslFragmentShaderImplementation.vertexBuffer self' = 1
    ∧ released (final (destroy runner quiet))
      = [glDeleteBuffers 1; glDeleteBuffers 2; glDeleteProgram 3]
    ∧ released (final (twice quiet))
      = [glDeleteBuffers 1; glDeleteBuffers 2; glDeleteProgram 3;
         glDeleteBuffers 1; glDeleteBuffers 2].
Proof. intros runner twice. eexists. by repeat split. Qed.

End Destroy.

Section Finalization.
Import GL.

(** No destructor calls into OpenGL or aborts, whatever the handle. *)
Lemma destructors_return tex fb prog runner s :
  (∃ s', TextureImplementation.destructor tex s = Ok () s' ∧ same_context s s')
  ∧ (∃ s', FrameBufferImplementation.destructor fb s = Ok () s' ∧ same_context s s')
  ∧ (∃ s', GlslProgramImplementation.destructor prog s = Ok () s' ∧ same_context s s')
  ∧ (∃ s', GlslFragmentShaderImplementation.destructor runner s = Ok () s'
           ∧ same_context s s').
Proof.
  unfold GlslFragmentShaderImplementation.destructor,
    FrameBufferImplementation.destructor, TextureImplementation.destructor,
    GlslProgramImplementation.destructor.
  repeat split; repeat case_bool_decide; cbn;
    eexists; (split; [reflexivity |]); by repeat split.
Qed.

(** C9: a texture, frame buffer or program wrapper that is finalized
    with a non-zero handle appends its warning to the log and returns
    normally; it does not abort and leaves the context as it was. (The
    frame buffer's member texture is finalized after it and adds its own
    warning when its name is non-zero too.) *)
Theorem leaked_handle_warns_and_continues tex fb prog s :
  TextureImplementation.id tex ≠ 0 →
  FrameBufferImplementation.id fb ≠ 0 →
  GlslProgramImplementation.program prog ≠ 0 →
  (∃ s', TextureImplementation.destructor tex s = Ok () s'
         ∧ log s' = log s ++ [log_warn "leaking GL texture" []]
         ∧ same_context s s')
  ∧ (∃ s', FrameBufferImplementation.destructor fb s = Ok () s'
           ∧ log s'
             = log s
               ++ log_warn "leaking frame buffer %d" [FrameBufferImplementation.id fb]
                  :: (if bool_decide (FrameBufferImplementation.getTextureId fb ≠ 0)
                      then [log_warn "leaking GL texture" []] else [])
           ∧ same_context s s')
  ∧ (∃ s', GlslProgramImplementation.destructor prog s = Ok () s'
           ∧ log s'
             = log s
               ++ [log_warn "leaking GL program %d" [GlslProgramImplementation.program prog]]
           ∧ same_context s s').
Proof.
  intros Htex Hfb Hprog.
  unfold FrameBufferImplementation.destructor, TextureImplementation.destructor,
    GlslProgramImplementation.destructor, FrameBufferImplementation.getTextureId,
    TextureImplementation.getId.
  rewrite (bool_decide_eq_true_2 _ Htex), (bool_decide_eq_true_2 _ Hfb),
    (bool_decide_eq_true_2 _ Hprog).
  split; [| split].
  - eexists. split; [reflexivity |]. by repeat split.
  - case_bool_decide; cbn; (eexists; split; [reflexivity |]); cbn;
      rewrite <- ?app_assoc; by repeat split.
  - eexists. split; [reflexivity |]. by repeat split.
Qed.

Lemma leaked_handle_warns_and_continues_witness :
  let fb := FrameBufferImplementation.mk 8 8 5 (TextureImplementation.mk GL_TEXTURE_2D 4) in
  ∃ s', FrameBufferImplementation.destructor fb quiet = Ok () s'
        ∧ log s'
          = [log_warn "leaking frame buffer %d" [5]; log_warn "leaking GL texture" []]
        ∧ same_context quiet s'.
Proof.
  exact (proj1 (proj2
    (leaked_handle_warns_and_continues
       (TextureImplementation.mk GL_TEXTURE_2D 4)
       (FrameBufferImplementation.mk 8 8 5 (TextureImplementation.mk GL_TEXTURE_2D 4))
       (GlslProgramImplementation.mk 6) quiet
       ltac:(simpl; lia) ltac:(simpl; lia) ltac:(simpl; lia)))).
Defined.

(** After [destroy], finalization is silent. *)
Lemma destroyed_texture_is_silent (tex : TextureImplementation.t) s self' s' :
  destroy tex s = Ok self' s' →
  TextureImplementation.destructor self' s' = Ok () s'.
Proof.
  destruct (Texture_destroy_idempotent tex s) as (t1 & s1 & Hd & Hid & _).
  rewrite Hd. intros [= <- <-]. unfold TextureImplementation.destructor.
  by rewrite bool_decide_eq_false_2 by (rewrite Hid; intros Hz; by apply Hz).
Qed.

End Finalization.

Section Unbind.
Import GL.

Lemma boundTexture_same_context s s' target :
  same_context s s' → boundTexture s' target = boundTexture s target.
Proof.
  intros (Hat & Htb & _). unfold boundTexture. by rewrite Hat, Htb.
Qed.

Lemma Texture_unbind_clears (self : TextureImplementation.t) s :
  boundTexture (final (unbind self s)) (TextureImplementation.bindType self) = 0.
Proof.
  cbn. unfold TextureImplementation.unbind, mbind, M_bind, gl.
  rewrite (boundTexture_same_context _ _ _ (checkError_frame _ _)).
  unfold boundTexture, effect. cbn. by rewrite lookup_insert_eq.
Qed.

Lemma FrameBuffer_unbind_clears (self : FrameBufferImplementation.t) s :
  framebufferBinding (final (unbind self s)) = 0.
Proof.
  cbn. unfold FrameBufferImplementation.unbind, mbind, M_bind, gl.
  by destruct (checkError_frame "unbind" (effect (glBindFramebuffer 0) s))
    as (_ & _ & _ & -> & _).
Qed.

Lemma GlslProgram_unbind_clears (self : GlslProgramImplementation.t) s :
  unbind self s = Ok () (effect (glUseProgram 0) s)
  ∧ currentProgram (final (unbind self s)) = 0.
Proof. done. Qed.

(** A [Binder] scope that is left normally ran [bind], the body and
    [unbind], in this order. *)
Lemma Binder_Ok `{Target T} {A} (target : T) (body : M A) s a s' :
  Binder target body s = Ok a s' →
  ∃ s1 s2, bind target s = Ok () s1 ∧ body s1 = Ok a s2
           ∧ unbind target s2 = Ok () s'.
Proof.
  unfold Binder, mbind, M_bind, mret, M_ret.
  destruct (bind target s) as [[] s1|]; [| done].
  destruct (body s1) as [a' s2|] eqn:Hb; [| done].
  destruct (unbind target s2) as [[] s3|] eqn:Hu; [| done].
  intros [= -> ->]. eauto.
Qed.

(** C10: [unbind] of a texture, frame buffer or program wrapper leaves
    the null object bound (also when the error check that follows
    aborts), whatever [bind] had replaced; so a [Binder] scope around
    such a wrapper, once left, has the binding at 0, not at the value it
    had before the scope. *)
Theorem unbind_clears_binding {A}
    (tex : TextureImplementation.t) (fb : FrameBufferImplementation.t)
    (prog : GlslProgramImplementation.t) (body : M A) (s : Driver) :
  boundTexture (final (unbind tex s)) (TextureImplementation.bindType tex) = 0
  ∧ framebufferBinding (final (unbind fb s)) = 0
  ∧ currentProgram (final (unbind prog s)) = 0
  ∧ (∀ a s', Binder tex body s = Ok a s' →
       boundTexture s' (TextureImplementation.bindType tex) = 0)
  ∧ (∀ a s', Binder fb body s = Ok a s' → framebufferBinding s' = 0)
  ∧ (∀ a s', Binder prog body s = Ok a s' → currentProgram s' = 0).
Proof.
  split; [apply Texture_unbind_clears |].
  split; [apply FrameBuffer_unbind_clears |].
  split; [apply GlslProgram_unbind_clears |].
  split; [| split]; intros a s' Hscope;
    apply Binder_Ok in Hscope as (s1 & s2 & _ & _ & Hu).
  - pose proof (Texture_unbind_clears tex s2) as Hc. by rewrite Hu in Hc.
  - pose proof (FrameBuffer_unbind_clears fb s2) as Hc. by rewrite Hu in Hc.
  - pose proof (proj2 (GlslProgram_unbind_clears prog s2)) as Hc. by rewrite Hu in Hc.
Qed.

(** A scope entered with texture 7 bound: it is left with 0 bound. *)
Lemma unbind_clears_binding_witness :
  let tex := TextureImplementation.mk GL_TEXTURE_2D 3 in
  let s := effect (glBindTexture GL_TEXTURE_2D 7) quiet in
  boundTexture s GL_TEXTURE_2D = 7
  ∧ ∃ s', Binder tex (mret ()) s = Ok () s' ∧ boundTexture s' GL_TEXTURE_2D = 0.
Proof.
  intros tex s. split; [reflexivity |].
  eexists. split; [reflexivity |].
  refine (proj1 (proj2 (proj2 (proj2
    (unbind_clears_binding tex
       (FrameBufferImplementation.mk 1 1 1 tex)
       (GlslProgramImplementation.mk 1) (mret ()) s)))) () _ _).
  reflexivity.
Defined.

End Unbind.

(** ** Read adapter: width of the intermediate image *)

Section TargetWidth.
Import ReadAdapters.

(** The rounded-up quotient, in integer arithmetic. *)
Lemma Qceiling_div w k :
  0 < k →
  Qceiling (Qdiv (inject_Z w) (inject_Z k))
  = w `div` k + (if bool_decide (w `mod` k ≠ 0) then 1 else 0).
Proof.
  intros Hk. destruct k as [|p|p]; try lia.
  unfold Qceiling, Qfloor, Qdiv, Qinv, Qmult, Qopp, inject_Z. cbn.
  rewrite Z.mul_1_r, Pos.mul_1_l.
  case_bool_decide as Hm.
  - rewrite Z.div_opp_l_nz by lia. lia.
  - assert (w `mod` Z.pos p = 0) as Hz by lia.
    rewrite Z.div_opp_l_z by lia. lia.
Qed.

Lemma Qceiling_div_bounds w k :
  0 < k →
  let t := Qceiling (Qdiv (inject_Z w) (inject_Z k)) in
  k * (t - 1) < w ≤ k * t.
Proof.
  intros Hk t. unfold t. rewrite Qceiling_div by done.
  pose proof (Z.div_mod w k ltac:(lia)).
  pose proof (Z.mod_pos_bound w k ltac:(lia)).
  case_bool_decide; nia.
Qed.

(** [createFunction] without overflow: the quotient, plus one when the
    division leaves a remainder. *)
Lemma createFunction_exact img k :
  1 ≤ channels img → 0 ≤ width img → 2 ≤ k →
  channels img * width img ≤ CInt.INT_MAX →
  k * channels img ≤ CInt.INT_MAX →
  createFunction img (k * channels img)
  = Some (mkBuilder (shaderBody (channels img) (k * channels img)) img
            (k * channels img),
          width img `div` k
          + (if bool_decide (width img `mod` k ≠ 0) then 1 else 0)).
Proof.
  intros HM Hw Hk Hrow Htgt.
  set (M := channels img) in *. set (w := width img) in *.
  unfold CInt.INT_MAX in *.
  assert (Hrange : ∀ z, 0 ≤ z ≤ M * w → CInt.in_range z).
  { intros z Hz. unfold CInt.in_range, CInt.INT_MIN, CInt.INT_MAX. lia. }
  assert (0 ≤ M * w) by nia.
  assert (Hq : Z.quot (M * w) (k * M) = w `div` k).
  { rewrite Z.quot_div_nonneg by nia.
    rewrite (Z.mul_comm M w). apply Z.div_mul_cancel_r; lia. }
  assert (Hr : Z.rem (M * w) (k * M) = (w `mod` k) * M).
  { rewrite Z.rem_mod_nonneg by nia.
    rewrite (Z.mul_comm M w). apply Z.mul_mod_distr_r; lia. }
  pose proof (Z.div_mod w k ltac:(lia)) as Hdm.
  pose proof (Z.mod_pos_bound w k ltac:(lia)) as Hmb.
  assert (0 ≤ w `div` k) by (apply Z.div_pos; lia).
  assert (w `div` k ≤ M * w) by nia.
  unfold createFunction. fold M w.
  rewrite (bool_decide_eq_false_2 (M = 0)) by lia.
  rewrite (bool_decide_eq_true_2 (M < k * M)) by nia.
  rewrite rem_exact; rewrite Z.rem_mul by lia;
    [| int_range].
  rewrite (bool_decide_eq_true_2 (0 = 0)) by done. cbn [negb].
  rewrite (mul_exact M w) by (apply Hrange; lia).
  rewrite div_exact; rewrite Hq; [| apply Hrange; lia].
  rewrite rem_exact; rewrite Hr; [| apply Hrange; nia].
  do 2 f_equal.
  destruct (decide (w `mod` k = 0)) as [Hz|Hnz].
  - rewrite Hz, Z.mul_0_l.
    rewrite !bool_decide_eq_false_2 by (intros Hne; by apply Hne). lia.
  - rewrite !bool_decide_eq_true_2 by nia.
    apply add_exact.
    unfold CInt.in_range, CInt.INT_MIN, CInt.INT_MAX. nia.
Qed.

(** C4: for a source image with M >= 1 channels and width >= 0, and a
    target of k * M channels with k >= 2 (both products within [int]),
    [createFunction] succeeds and leaves ceil(width / k) in
    [targetWidth]. *)
Theorem createFunction_targetWidth img k :
  1 ≤ channels img → 0 ≤ width img → 2 ≤ k →
  channels img * width img ≤ CInt.INT_MAX →
  k * channels img ≤ CInt.INT_MAX →
  ∃ builder,
    createFunction img (k * channels img)
    = Some (builder, Qceiling (Qdiv (inject_Z (width img)) (inject_Z k))).
Proof.
  intros HM Hw Hk Hrow Htgt.
  rewrite createFunction_exact, Qceiling_div by (done || lia). eauto.
Qed.

Lemma createFunction_targetWidth_witness :
  ∃ builder, createFunction (mkImage 5 3 2 1) (2 * 2) = Some (builder, 3).
Proof.
  apply (createFunction_targetWidth (mkImage 5 3 2 1) 2);
    unfold CInt.INT_MAX; simpl; lia.
Defined.

End TargetWidth.

(** ** Read adapter: the read function *)

Section ReadFunction.
Import ReadAdapters.

(** C6: a call of the read function first runs the repack pass; then,
    with a [cpuFunction] installed, it issues [readRaw] into the
    adapter's [cpuBuffer], enqueues the copy to [outData] on the
    [Processor] and returns the future of that [enqueue]; with none
    installed it issues [readRaw] into [outData], returns that call's
    future and enqueues nothing. *)
Theorem read_enqueues_iff_cpuFunction adapter outData w :
  match cpuFunction adapter with
  | Some _ =>
      ∃ pulled,
        trace (read adapter outData w).2
        = trace w ++ [callUnary; readRaw adapterCpuBuffer pulled;
                      enqueue (cpuCopy outData) (read adapter outData w).1]
  | None =>
      trace (read adapter outData w).2
      = trace w ++ [callUnary; readRaw (callerData outData) (read adapter outData w).1]
      ∧ filter is_enqueue (trace (read adapter outData w).2)
        = filter is_enqueue (trace w)
  end.
Proof.
  unfold read. destruct (cpuFunction adapter) as [f|]; cbn.
  - eexists. by rewrite <- !app_assoc.
  - rewrite <- !app_assoc. split; [done |].
    rewrite filter_app. cbn. by rewrite app_nil_r.
Qed.

(** [setRepackFunction] installs the closure exactly when the two byte
    sizes differ. *)
Lemma setRepackFunction_installs a image flag a' :
  cpuFunction a = None →
  setRepackFunction a image = Some (flag, a') →
  (flag = true ↔ size (buffer a) ≠ size image)
  ∧ (is_Some (cpuFunction a') ↔ flag = true)
  ∧ buffer a' = buffer a.
Proof.
  intros Hnone. unfold setRepackFunction.
  case_bool_decide as Hsz.
  - intros [= <- <-]. rewrite Hnone. split; [done |].
    split; [| done]. split; [by intros [? ?] | done].
  - case_bool_decide; [| done]. intros [= <- <-]. cbn.
    split; [done |]. split; [| done]. split; [done | eauto].
Qed.

(** The adapter of a two-channel image (the case this build sends
    through a four-channel intermediate image): the buffer is half as
    wide, rounded up, and the closure is installed, and the warning
    logged, exactly when the width is odd. *)
Lemma createReadAdpater_two_channels w h bpc :
  1 ≤ w → 1 ≤ h → 1 ≤ bpc → 2 * (w + 1) * bpc ≤ CInt.INT_MAX →
  let odd := bool_decide (w `mod` 2 ≠ 0) in
  let targetWidth := w `div` 2 + (if odd then 1 else 0) in
  ∃ a,
    createReadAdpater (mkImage w h 2 bpc) = Some (a, odd)
    ∧ buffer a = mkImage targetWidth h 4 bpc
    ∧ cpuFunction a
      = (if odd then Some (mkRepack (w * (2 * bpc)) (targetWidth * (4 * bpc)))
         else None)
    ∧ (odd = true →
       Z.of_nat (length (cpuBuffer a)) = size (buffer a)
       ∧ w * (2 * bpc) < targetWidth * (4 * bpc)
       ∧ size (buffer a) = h * (targetWidth * (4 * bpc))).
Proof.
  intros Hw Hh Hbpc Hmax odd targetWidth. unfold CInt.INT_MAX in Hmax.
  pose proof (Z.div_mod w 2 ltac:(lia)) as Hdm.
  pose proof (Z.mod_pos_bound w 2 ltac:(lia)) as Hmb.
  unfold createReadAdpater. cbn [channels width height bytesPerChannel].
  rewrite (bool_decide_eq_true_2 (2 = 2)) by done.
  pose proof (createFunction_exact (mkImage w h 2 bpc) 2) as Hcf.
  cbn [channels width] in Hcf. change (2 * 2) with 4 in Hcf.
  rewrite Hcf by (unfold CInt.INT_MAX; nia). clear Hcf.
  cbn [mbind option_bind].
  unfold setRepackFunction, size, bytesPerPixel.
  cbn [buffer cpuBuffer width height channels bytesPerChannel].
  assert (Hr : ∀ z, 0 ≤ z ≤ 2 * (w + 1) * bpc → CInt.in_range z).
  { intros z Hz. unfold CInt.in_range, CInt.INT_MIN, CInt.INT_MAX. lia. }
  subst odd targetWidth.
  destruct (decide (w `mod` 2 = 0)) as [Hmod|Hodd].
  - rewrite !(bool_decide_eq_false_2 (w `mod` 2 ≠ 0)) by lia.
    rewrite bool_decide_eq_true_2 by nia.
    cbn [mbind option_bind]. eexists. split; [reflexivity |].
    cbn [buffer cpuFunction cpuBuffer]. by repeat split.
  - assert (Hmod : w `mod` 2 = 1) by lia.
    rewrite !(bool_decide_eq_true_2 (w `mod` 2 ≠ 0)) by lia.
    rewrite bool_decide_eq_false_2 by nia.
    rewrite !wrap_in_range by (apply Hr; nia).
    rewrite !mul_exact by (apply Hr; nia).
    rewrite bool_decide_eq_true_2 by nia.
    cbn [mbind option_bind]. eexists. split; [reflexivity |].
    cbn [buffer cpuFunction cpuBuffer width height channels bytesPerChannel].
    split; [done |]. split; [done |].
    intros _. rewrite length_resize. split; [nia |]. split; nia.
Qed.

End ReadFunction.

(** ** Read adapter: row compaction *)

Section RowCompaction.
Import ReadAdapters.

Lemma memcpy_Some dst dstOff src srcOff n :
  0 ≤ n → 0 ≤ srcOff → srcOff + n ≤ Z.of_nat (length src) →
  0 ≤ dstOff → dstOff + n ≤ Z.of_nat (length dst) →
  memcpy dst dstOff src srcOff n
  = Some (list_inserts (Z.to_nat dstOff)
            (take (Z.to_nat n) (drop (Z.to_nat srcOff) src)) dst).
Proof. intros. unfold memcpy. by rewrite bool_decide_eq_true_2. Qed.

Lemma flat_map_seqZ_succ {A} (f : Z → list A) m n :
  flat_map f (seqZ (Z.succ m) n) = flat_map (λ i, f (Z.succ i)) (seqZ m n).
Proof.
  replace (Z.succ m) with (1 + m) by lia. rewrite <- fmap_add_seqZ.
  induction (seqZ m n) as [|i l IH]; [done |].
  cbn. rewrite IH. by replace (1 + i) with (Z.succ i) by lia.
Qed.

Lemma compacted_nil cb orw brw from : compacted cb orw brw from 0 = [].
Proof. done. Qed.

(** The first row, then the rows of the rest of the buffer. *)
Lemma compacted_succ cb orw brw from (r : nat) :
  compacted cb orw brw from (Z.of_nat (S r))
  = take (Z.to_nat orw) (drop (Z.to_nat from) cb)
    ++ compacted cb orw brw (from + brw) (Z.of_nat r).
Proof.
  unfold compacted. rewrite seqZ_cons by lia. cbn [flat_map].
  rewrite Z.mul_0_l, Z.add_0_r. f_equal.
  replace (Z.pred (Z.of_nat (S r))) with (Z.of_nat r) by lia.
  rewrite flat_map_seqZ_succ. apply flat_map_ext. intros i.
  do 3 f_equal. lia.
Qed.

Lemma length_compacted cb orw brw (r : nat) : ∀ from,
  0 ≤ orw ≤ brw → 0 ≤ from →
  from + Z.of_nat r * brw ≤ Z.of_nat (length cb) →
  Z.of_nat (length (compacted cb orw brw from (Z.of_nat r))) = Z.of_nat r * orw.
Proof.
  induction r as [|r IH]; intros from Hw Hfrom Hlen; [done |].
  assert (Hr : Z.of_nat (S r) * brw = Z.of_nat r * brw + brw) by lia.
  assert (Hr' : Z.of_nat (S r) * orw = Z.of_nat r * orw + orw) by lia.
  assert (0 ≤ Z.of_nat r * brw) by nia.
  rewrite compacted_succ, length_app, Nat2Z.inj_add, IH by lia.
  rewrite length_take, length_drop. lia.
Qed.

(** The loop writes the compacted rows, back to back, from [outOffset]
    and advances [inOffset] by one stride per row. *)
Lemma repack_loop_spec cb orw brw (r : nat) : ∀ inOffset outOffset out,
  0 ≤ orw ≤ brw →
  0 ≤ inOffset → inOffset + Z.of_nat r * brw ≤ Z.of_nat (length cb) →
  inOffset + Z.of_nat r * brw ≤ CInt.INT_MAX →
  0 ≤ outOffset → outOffset + Z.of_nat r * orw ≤ Z.of_nat (length out) →
  outOffset + Z.of_nat r * orw ≤ CInt.INT_MAX →
  repack_loop cb orw brw r inOffset outOffset out
  = Some (list_inserts (Z.to_nat outOffset)
            (compacted cb orw brw inOffset (Z.of_nat r)) out,
          inOffset + Z.of_nat r * brw).
Proof.
  induction r as [|r IH]; intros inOffset outOffset out Hw Hin0 Hin1 Hin2 Hout0 Hout1 Hout2.
  - cbn. do 2 f_equal. lia.
  - assert (Hr : Z.of_nat (S r) * brw = Z.of_nat r * brw + brw) by lia.
    assert (Hr' : Z.of_nat (S r) * orw = Z.of_nat r * orw + orw) by lia.
    assert (0 ≤ Z.of_nat r * brw) by nia.
    assert (0 ≤ Z.of_nat r * orw) by nia.
    cbn [repack_loop]. rewrite memcpy_Some by lia. cbn [mbind option_bind].
    unfold CInt.INT_MAX in *.
    rewrite !add_exact by int_range.
    rewrite IH by (rewrite ?length_inserts; unfold CInt.INT_MAX; lia).
    f_equal. f_equal; [| lia].
    rewrite compacted_succ, list_inserts_app_l. f_equal.
    rewrite length_take, length_drop. lia.
Qed.

End RowCompaction.

Section RowCompactionResult.
Import ReadAdapters.

(** Byte [b] of compacted row [i] is byte [b] of input row [i]. *)
Lemma lookup_compacted cb orw brw (r : nat) : ∀ from i b,
  0 ≤ orw ≤ brw → 0 ≤ from →
  from + Z.of_nat r * brw ≤ Z.of_nat (length cb) →
  0 ≤ i < Z.of_nat r → 0 ≤ b < orw →
  compacted cb orw brw from (Z.of_nat r) !! Z.to_nat (i * orw + b)
  = cb !! Z.to_nat (from + i * brw + b).
Proof.
  induction r as [|r IH]; intros from i b Hw Hfrom Hlen Hi Hb; [lia |].
  assert (Hr : Z.of_nat (S r) * brw = Z.of_nat r * brw + brw) by lia.
  assert (0 ≤ Z.of_nat r * brw) by nia.
  rewrite compacted_succ.
  assert (Hfirst : length (take (Z.to_nat orw) (drop (Z.to_nat from) cb)) = Z.to_nat orw).
  { rewrite length_take, length_drop. lia. }
  destruct (decide (i = 0)) as [->|Hi0].
  - rewrite lookup_app_l by (rewrite Hfirst; lia).
    rewrite lookup_take_lt, lookup_drop by lia. f_equal. lia.
  - assert (0 ≤ (i - 1) * orw) by nia.
    assert (i * orw = (i - 1) * orw + orw) by lia.
    assert (i * brw = (i - 1) * brw + brw) by lia.
    rewrite lookup_app_r by (rewrite Hfirst; lia). rewrite Hfirst.
    replace (Z.to_nat (i * orw + b) - Z.to_nat orw)%nat
      with (Z.to_nat ((i - 1) * orw + b)) by lia.
    rewrite IH by lia. f_equal. lia.
Qed.

Lemma inserts_front {A} (k l : list A) :
  (length k ≤ length l)%nat →
  list_inserts 0 k l = k ++ drop (length k) l.
Proof.
  intros Hlen. rewrite <- (take_drop (length k) l) at 1.
  apply list_inserts_0_r. rewrite length_take. lia.
Qed.

(** C2: with [0 <= origRowWidth < bufRowWidth], a buffer of [height]
    rows of [bufRowWidth] bytes held in [cpuBuffer] and room for
    [height * origRowWidth] bytes at [out], the repack closure succeeds;
    the front of [out] then holds exactly [height] contiguous rows of
    [origRowWidth] bytes, row [i] being the first [origRowWidth] bytes
    found at offset [i * bufRowWidth] of the buffer, so that no padding
    byte is copied, and what follows in [out] is not written. *)
Theorem cpuFunction_compacts_rows a f out :
  let h := height (buffer a) in
  let orw := origRowWidth f in
  let brw := bufRowWidth f in
  0 ≤ orw < brw → 0 ≤ h →
  size (buffer a) = h * brw →
  size (buffer a) ≤ CInt.INT_MAX →
  Z.of_nat (length (cpuBuffer a)) = size (buffer a) →
  h * orw ≤ Z.of_nat (length out) →
  ∃ out',
    call_cpuFunction a f out = Some out'
    ∧ take (Z.to_nat (h * orw)) out' = compacted (cpuBuffer a) orw brw 0 h
    ∧ Z.of_nat (length (compacted (cpuBuffer a) orw brw 0 h)) = h * orw
    ∧ drop (Z.to_nat (h * orw)) out' = drop (Z.to_nat (h * orw)) out
    ∧ ∀ i b, 0 ≤ i < h → 0 ≤ b < orw →
        out' !! Z.to_nat (i * orw + b) = cpuBuffer a !! Z.to_nat (i * brw + b).
Proof.
  intros h orw brw Hw Hh Hsize Hmax Hcb Hout.
  assert (Hhr : Z.of_nat (Z.to_nat h) = h) by lia.
  assert (0 ≤ h * orw ≤ h * brw) by nia.
  pose proof (length_compacted (cpuBuffer a) orw brw (Z.to_nat h) 0
                ltac:(lia) ltac:(lia) ltac:(lia)) as Hclen.
  rewrite Hhr in Hclen.
  set (rows := compacted (cpuBuffer a) orw brw 0 h) in *.
  exists (rows ++ drop (length rows) out).
  split; [| split; [| split; [done | split]]].
  - unfold call_cpuFunction. fold h orw brw.
    rewrite repack_loop_spec by lia.
    cbn [mbind option_bind]. rewrite Hhr, Z.add_0_l.
    rewrite wrap_in_range
      by int_range.
    rewrite bool_decide_eq_true_2 by lia.
    f_equal. fold rows. change (Z.to_nat 0) with 0%nat.
    apply inserts_front. lia.
  - replace (Z.to_nat (h * orw)) with (length rows) by lia.
    by rewrite take_app_length.
  - replace (Z.to_nat (h * orw)) with (length rows) by lia.
    by rewrite drop_app_length.
  - intros i b Hi Hb.
    assert (0 ≤ i * orw) by nia.
    assert (i * orw + orw ≤ h * orw) by nia.
    rewrite lookup_app_l by lia.
    unfold rows. rewrite <- Hhr at 1.
    rewrite lookup_compacted by lia. f_equal.
Qed.

Lemma cpuFunction_compacts_rows_witness :
  let a :=
    mkAdapter [x01; x02; x03; x04; x05; x06; x07; x08]%byte None (mkImage 1 2 4 1) in
  let out := replicate 7 xff%byte in
  ∃ out',
    call_cpuFunction a (mkRepack 3 4) out = Some out'
    ∧ take 6 out' = [x01; x02; x03; x05; x06; x07]%byte
    ∧ Z.of_nat (length [x01; x02; x03; x05; x06; x07]%byte) = 6
    ∧ drop 6 out' = [xff%byte]
    ∧ ∀ i b, 0 ≤ i < 2 → 0 ≤ b < 3 →
        out' !! Z.to_nat (i * 3 + b) = cpuBuffer a !! Z.to_nat (i * 4 + b).
Proof.
  intros a out.
  apply (cpuFunction_compacts_rows a (mkRepack 3 4) out);
    subst a out;
    first [reflexivity | unfold CInt.INT_MAX, size, bytesPerPixel; simpl; lia].
Defined.

End RowCompactionResult.

(** ** Read adapter: the channel-repack shader *)

Section ShaderRun.
Import ReadAdapters.
Context {V : Type}.
Variable texelFetch : Z → Z → list V.
Variables texCoord outSize : Q * Q.

Lemma run_app body1 body2 : ∀ f : Frag V,
  run texelFetch texCoord outSize f (body1 ++ body2)
  = run texelFetch texCoord outSize f body1
      ≫= λ f', run texelFetch texCoord outSize f' body2.
Proof.
  induction body1 as [|st body1 IH]; intros f; [done |].
  cbn [app run]. destruct (exec _ _ _ f st) as [f'|]; [| done].
  cbn [mbind option_bind]. apply IH.
Qed.

(** The inner loop: the components of column [i] go to consecutive
    components of [outValue], from [base]. *)
Lemma run_assigns i base (v : list V) (n : nat) : ∀ j0 (f : Frag V),
  col f !! i = Some v →
  0 ≤ j0 → j0 + Z.of_nat n ≤ Z.of_nat (length v) →
  0 ≤ base → base + j0 + Z.of_nat n ≤ Z.of_nat (length (outValue f)) →
  base + j0 + Z.of_nat n ≤ CInt.INT_MAX →
  run texelFetch texCoord outSize f
    (map (λ j, AssignOut (base [+] j) i j) (seqZ j0 (Z.of_nat n)))
  = Some (mkFrag (outCoord f) (x0 f) (col f)
            (list_inserts (Z.to_nat (base + j0))
               (Some <$> take n (drop (Z.to_nat j0) v)) (outValue f))).
Proof.
  induction n as [|n IH]; intros j0 f Hcol Hj0 Hv Hbase Hout Hmax.
  - rewrite seqZ_nil by lia. by destruct f.
  - rewrite seqZ_cons by lia. cbn [map run exec].
    replace (Z.pred (Z.of_nat (S n))) with (Z.of_nat n) by lia.
    unfold CInt.INT_MAX in Hmax.
    rewrite add_exact by int_range.
    rewrite Hcol. cbn [mbind option_bind].
    destruct (lookup_lt_is_Some_2 v (Z.to_nat j0) ltac:(lia)) as [a Ha].
    rewrite (at_Some _ _ a) by done. cbn [mbind option_bind].
    rewrite store_Some by lia. cbn [mbind option_bind].
    rewrite IH; cbn [col outValue outCoord x0]; rewrite ?length_insert;
      try done; try (unfold CInt.INT_MAX; lia).
    do 2 f_equal. rewrite (drop_S _ _ _ Ha). cbn [take fmap list_fmap list_inserts].
    replace (Z.to_nat (base + Z.succ j0)) with (S (Z.to_nat (base + j0))) by lia.
    replace (Z.to_nat (Z.succ j0)) with (S (Z.to_nat j0)) by lia.
    by rewrite list_insert_inserts_lt by lia.
Qed.

End ShaderRun.

Section ShaderColumns.
Import ReadAdapters.
Context {V : Type}.
Variable texelFetch : Z → Z → list V.
Variables texCoord outSize : Q * Q.
Variable M : Z.
Hypothesis HM : 1 ≤ M.
Hypothesis Hvec : ∀ x y, M ≤ Z.of_nat (length (texelFetch x y)).

(** The outer loop: column [i] is the texel at [x0 + i] of row
    [outCoord.y], and the columns fill [outValue] back to back. *)
Lemma run_columns X Y xv (n : nat) : ∀ i0 (f : Frag V),
  outCoord f = Some (X, Y) → x0 f = Some xv →
  0 ≤ i0 →
  (i0 + Z.of_nat n) * M ≤ Z.of_nat (length (outValue f)) →
  (i0 + Z.of_nat n) * M ≤ CInt.INT_MAX →
  CInt.in_range (xv + i0) → CInt.in_range (xv + i0 + Z.of_nat n) →
  ∃ cols,
    run texelFetch texCoord outSize f
      (flat_map (λ i,
           DeclCol i M :: map (λ j, AssignOut (i [*] M [+] j) i j) (seqZ 0 M))
         (seqZ i0 (Z.of_nat n)))
    = Some (mkFrag (outCoord f) (x0 f) cols
              (list_inserts (Z.to_nat (i0 * M))
                 (Some <$> flat_map (λ i, take (Z.to_nat M) (texelFetch (xv + i) Y))
                             (seqZ i0 (Z.of_nat n)))
                 (outValue f))).
Proof.
  induction n as [|n IH]; intros i0 f Hoc Hx0 Hi0 Hout Hmax Hlo Hhi.
  - rewrite !(seqZ_nil i0) by lia. exists (col f). by destruct f.
  - assert (Hsplit : (i0 + Z.of_nat (S n)) * M = i0 * M + M + Z.of_nat n * M)
      by (rewrite Nat2Z.inj_succ; ring).
    assert (0 ≤ Z.of_nat n * M) by nia.
    assert (0 ≤ i0 * M) by nia.
    rewrite !(seqZ_cons i0) by lia.
    replace (Z.pred (Z.of_nat (S n))) with (Z.of_nat n) by lia.
    cbn [flat_map app run exec]. rewrite Hoc, Hx0. cbn [mbind option_bind snd].
    rewrite run_app.
    unfold CInt.INT_MAX in Hmax.
    rewrite mul_exact by int_range.
    rewrite add_exact by (eapply in_range_between; [exact Hlo | exact Hhi | lia]).
    set (v := take (Z.to_nat M) (texelFetch (xv + i0) Y)).
    assert (Hlen : length v = Z.to_nat M).
    { unfold v. rewrite length_take. specialize (Hvec (xv + i0) Y). lia. }
    match goal with
    | |- context [run _ _ _ ?f1 (map _ _)] =>
        pose proof (run_assigns texelFetch texCoord outSize i0 (i0 * M) v
                      (Z.to_nat M) 0 f1) as Hinner
    end.
    rewrite Z2Nat.id in Hinner by lia.
    cbn [col outValue outCoord x0] in Hinner.
    rewrite lookup_insert_eq in Hinner.
    rewrite Hinner by (try done; unfold CInt.INT_MAX; lia).
    cbn [mbind option_bind].
    match goal with
    | |- context [run _ _ _ ?f1 _] =>
        destruct (IH (Z.succ i0) f1) as [cols Hrun];
          cbn [col outValue outCoord x0]; rewrite ?length_inserts;
          try done; try (unfold CInt.INT_MAX; lia)
    end.
    { eapply in_range_between; [exact Hlo | exact Hhi | lia]. }
    { replace (xv + Z.succ i0 + Z.of_nat n) with (xv + i0 + Z.of_nat (S n)) by lia.
      done. }
    exists cols. rewrite Hrun. cbn [col outValue outCoord x0].
    do 2 f_equal. rewrite Z.add_0_r. change (Z.to_nat 0) with 0%nat.
    rewrite drop_0, take_ge by lia. fold v.
    rewrite fmap_app, list_inserts_app_l, length_fmap, Hlen.
    f_equal. lia.
Qed.

End ShaderColumns.

Section ShaderResult.
Import ReadAdapters.
Context {V : Type}.
Variable texelFetch : Z → Z → list V.

(** The quotient of a texture coordinate of the unit square by a size of
    one pixel or more is below one: its integer part is zero. *)
Lemma outCoord_component_zero w x :
  0 ≤ x < w →
  Qtruncate (Qdiv (Qdiv (Qmake (2 * x + 1) 2) (inject_Z w)) (inject_Z w)) = 0.
Proof.
  intros Hx. destruct w as [|p|p]; try lia.
  unfold Qtruncate, Qfloor, Qdiv, Qinv, Qmult, inject_Z. cbn -[Z.mul Z.div].
  rewrite bool_decide_eq_true_2 by lia.
  apply Z.div_small. nia.
Qed.

Lemma outCoord_origin w h x y :
  0 ≤ x < w → 0 ≤ y < h →
  (Qtruncate (Qdiv (v_texCoord w h x y).1 (u_outSize w h).1),
   Qtruncate (Qdiv (v_texCoord w h x y).2 (u_outSize w h).2)) = (0, 0).
Proof.
  intros Hx Hy. unfold v_texCoord, u_outSize. cbn [fst snd].
  by rewrite !outCoord_component_zero.
Qed.

Lemma length_columns M xv Y (n : nat) : ∀ i0,
  0 ≤ M → (∀ x y, M ≤ Z.of_nat (length (texelFetch x y))) →
  length (flat_map (λ i, take (Z.to_nat M) (texelFetch (xv + i) Y))
            (seqZ i0 (Z.of_nat n)))
  = (n * Z.to_nat M)%nat.
Proof.
  intros i0 HM Hvec. revert i0. induction n as [|n IH]; intros i0.
  - by rewrite seqZ_nil.
  - rewrite seqZ_cons by lia.
    replace (Z.pred (Z.of_nat (S n))) with (Z.of_nat n) by lia.
    cbn [flat_map]. rewrite length_app, length_take, IH.
    specialize (Hvec (xv + i0) Y). lia.
Qed.

(** The body that [createFunction] generates, run with any inputs: the
    fragment receives the channels of the [k] texels that start at column
    [outCoord.x * k] of row [outCoord.y], where [outCoord] is what the
    first line of the shader computes. *)
Lemma fragment_repacks M k texCoord outSize :
  1 ≤ M → 1 ≤ k → k * M ≤ CInt.INT_MAX →
  (∀ x y, M ≤ Z.of_nat (length (texelFetch x y))) →
  let X := Qtruncate (Qdiv texCoord.1 outSize.1) in
  let Y := Qtruncate (Qdiv texCoord.2 outSize.2) in
  CInt.in_range (X * k) → CInt.in_range (X * k + k) →
  fragment (shaderBody M (k * M)) (k * M) texelFetch texCoord outSize
  = Some (repacked M k texelFetch X Y).
Proof.
  intros HM Hk Hmax Hvec X Y Hlo Hhi.
  assert (Hkr : CInt.in_range k).
  { unfold CInt.in_range, CInt.INT_MIN, CInt.INT_MAX in *. nia. }
  unfold fragment, shaderBody.
  rewrite div_exact; rewrite Z.quot_mul by lia; [| done].
  cbn [run exec outCoord x0 col outValue mbind option_bind fst snd]. fold X Y.
  rewrite (mul_exact X k) by done.
  match goal with
  | |- context [run _ _ _ ?f1 _] =>
      pose proof (run_columns texelFetch texCoord outSize M HM Hvec X Y (X * k)
                    (Z.to_nat k) 0 f1) as Hrun
  end.
  rewrite Z2Nat.id, !Z.add_0_r, Z.add_0_l in Hrun by lia.
  cbn [outCoord x0 col outValue] in Hrun. rewrite length_replicate in Hrun.
  destruct Hrun as [cols Hrun]; try done; try lia.
  rewrite Hrun. cbn [mbind option_bind outValue].
  fold (repacked M k texelFetch X Y).
  assert (Hlen : Z.of_nat (length (repacked M k texelFetch X Y)) = k * M).
  { unfold repacked.
    replace (seqZ 0 k) with (seqZ 0 (Z.of_nat (Z.to_nat k))) by (f_equal; lia).
    rewrite length_columns by (try done; lia). lia. }
  change (Z.to_nat (0 * M)) with 0%nat.
  rewrite inserts_front by (rewrite length_fmap, length_replicate; lia).
  rewrite length_fmap, drop_ge, app_nil_r by (rewrite length_replicate; lia).
  by apply mapM_fmap_Some.
Qed.

(** Every pixel of the target is shaded from the origin: the body
    divides the texture coordinate by the size, so [outCoord] is (0, 0)
    wherever the fragment lies, and all output pixels receive the first
    [k] source pixels of row 0. *)
Lemma shade_reads_origin M k w h x y :
  1 ≤ M → 1 ≤ k → k * M ≤ CInt.INT_MAX →
  (∀ x y, M ≤ Z.of_nat (length (texelFetch x y))) →
  0 ≤ x < w → 0 ≤ y < h →
  shade (shaderBody M (k * M)) (k * M) texelFetch w h x y
  = Some (repacked M k texelFetch 0 0).
Proof.
  intros HM Hk Hmax Hvec Hx Hy. unfold shade.
  assert (HX : Qtruncate (Qdiv (v_texCoord w h x y).1 (u_outSize w h).1) = 0)
    by exact (outCoord_component_zero w x Hx).
  assert (HY : Qtruncate (Qdiv (v_texCoord w h x y).2 (u_outSize w h).2) = 0)
    by exact (outCoord_component_zero h y Hy).
  rewrite fragment_repacks; rewrite ?HX, ?HY; try done.
  unfold CInt.in_range, CInt.INT_MIN, CInt.INT_MAX in *. nia.
Qed.

End ShaderResult.

Section ShaderExample.
Import ReadAdapters.

(** C1, evaluated: a 4 x 1 source with two channels, pixel [x] holding
    [10x + 1, 10x + 2], repacked to four channels (k = 2, target 2 x 1).
    The specification puts source pixels 2 and 3 in output pixel (1, 0); the
    generated pass writes source pixels 0 and 1 there, as it does at
    (0, 0). *)
Theorem repack_pass_second_pixel :
  let texelFetch := λ x y : Z, [10 * x + 1; 10 * x + 2; 0; 1] in
  ∃ builder,
    createFunction (mkImage 4 1 2 1) 4 = Some (builder, 2)
    ∧ shade (fragmentShaderBody builder) 4 texelFetch 2 1 1 0 = Some [1; 2; 11; 12]
    ∧ shade (fragmentShaderBody builder) 4 texelFetch 2 1 0 0 = Some [1; 2; 11; 12]
    ∧ repacked 2 2 texelFetch 1 0 = [21; 22; 31; 32].
Proof. intros texelFetch. eexists. split; [reflexivity |]. by repeat split. Qed.

(** The text of that body, with the vector type and swizzle of a
    two-channel source. *)
Example repack_pass_text :
  renderBody "vec2" "rg" (shaderBody 2 4)
  = "void main() {" +:+ nl
    +:+ "ivec2 outCoord = ivec2(v_texCoord / u_outSize);" +:+ nl
    +:+ "int x0 = int(outCoord.x * 2);" +:+ nl
    +:+ "vec2 col0 = texelFetch(u_texture, ivec2(x0 + 0, outCoord.y), 0).rg;" +:+ nl
    +:+ "outValue.r = col0.r;" +:+ nl
    +:+ "outValue.g = col0.g;" +:+ nl
    +:+ "vec2 col1 = texelFetch(u_texture, ivec2(x0 + 1, outCoord.y), 0).rg;" +:+ nl
    +:+ "outValue.b = col1.r;" +:+ nl
    +:+ "outValue.a = col1.g;" +:+ nl
    +:+ "}" +:+ nl.
Proof. reflexivity. Qed.

End ShaderExample.

(* ===================================================================== *)
(** * Part III: further properties of the code                            *)
(* ===================================================================== *)

(** ** Host image: whole pixels, raw buffers, fresh images *)

Section PixelBlocks.
Import CpuImage CpuImageBulk.

Lemma valid_with_data img d :
  valid img → length d = length (data img) → valid (with_data img d).
Proof.
  unfold valid, size, with_data. cbn [width height channels bytesPerChannel data].
  intros (? & ? & ? & ? & ? & ?) ->. done.
Qed.

Lemma get_at_spec img x y channel targetArray off :
  valid img →
  0 ≤ x < width img → 0 ≤ y < height img → 0 ≤ channel < channels img →
  0 ≤ off → off + bytesPerChannel img ≤ Z.of_nat (length targetArray) →
  let bpc := bytesPerChannel img in
  let offset := (y * width img + x) * channels img * bpc + channel * bpc in
  get_at img x y channel targetArray off
  = Some (list_inserts (Z.to_nat off)
            (take (Z.to_nat bpc) (drop (Z.to_nat offset) (data img))) targetArray).
Proof.
  intros Hvalid Hx Hy Hc Hoff0 Hoff1 bpc offset.
  destruct (offset_exact img Hvalid x y channel Hx Hy Hc) as (Hoff & Ho0 & Ho1).
  fold bpc offset in Hoff, Ho0, Ho1.
  pose proof Hvalid as (_ & _ & _ & Hbpc & _). fold bpc in Hbpc.
  unfold get_at. rewrite bool_decide_eq_true_2 by lia.
  fold bpc. rewrite Hoff. rewrite copy_loop_spec by lia.
  by rewrite !Z.add_0_l.
Qed.

Lemma set_at_spec img x y channel srcArray off :
  valid img →
  0 ≤ x < width img → 0 ≤ y < height img → 0 ≤ channel < channels img →
  0 ≤ off → off + bytesPerChannel img ≤ Z.of_nat (length srcArray) →
  let bpc := bytesPerChannel img in
  let offset := (y * width img + x) * channels img * bpc + channel * bpc in
  set_at img x y channel srcArray off
  = Some (with_data img
            (list_inserts (Z.to_nat offset)
               (take (Z.to_nat bpc) (drop (Z.to_nat off) srcArray)) (data img))).
Proof.
  intros Hvalid Hx Hy Hc Hoff0 Hoff1 bpc offset.
  destruct (offset_exact img Hvalid x y channel Hx Hy Hc) as (Hoff & Ho0 & Ho1).
  fold bpc offset in Hoff, Ho0, Ho1.
  pose proof Hvalid as (_ & _ & _ & Hbpc & _). fold bpc in Hbpc.
  unfold set_at. rewrite bool_decide_eq_true_2 by lia.
  fold bpc. rewrite Hoff. rewrite copy_loop_spec by lia.
  cbn [mbind option_bind]. by rewrite !Z.add_0_l.
Qed.

(** Two adjacent blocks written one after the other are one block. *)
Lemma inserts_adjacent {A} (src dst : list A) (so o a b : nat) :
  (so + a ≤ length src)%nat →
  list_inserts (o + a) (take b (drop (so + a) src))
    (list_inserts o (take a (drop so src)) dst)
  = list_inserts o (take (a + b) (drop so src)) dst.
Proof.
  intros Hlen. rewrite <- take_take_drop, drop_drop, list_inserts_app_l.
  rewrite length_take, length_drop.
  by replace (a `min` (length src - so) + o)%nat with (o + a)%nat by lia.
Qed.

End PixelBlocks.

Section PixelLoops.
Import CpuImage CpuImageBulk.

Variable img0 : Image.
Variables x y : Z.
Hypothesis Hx : 0 ≤ x < width img0.
Hypothesis Hy : 0 ≤ y < height img0.

Local Abbreviation bpc := (bytesPerChannel img0).
Local Abbreviation pixel := ((y * width img0 + x) * channels img0 * bytesPerChannel img0).

(** The channels read so far form one block of the caller's array. *)
Lemma get_loop_spec (n : nat) : ∀ i targetArray,
  valid img0 →
  0 ≤ i → i + Z.of_nat n ≤ channels img0 →
  (i + Z.of_nat n) * bpc ≤ Z.of_nat (length targetArray) →
  get_loop img0 x y targetArray i n
  = Some (list_inserts (Z.to_nat (i * bpc))
            (take (n * Z.to_nat bpc)
               (drop (Z.to_nat (pixel + i * bpc)) (data img0)))
            targetArray).
Proof.
  induction n as [|n IH]; intros i t Hvalid Hi Hn Ht; [done |].
  pose proof Hvalid as (_ & _ & _ & Hbpc & _ & Hlen).
  pose proof (pixel_bounds img0 Hvalid x y Hx Hy) as (_ & _ & _ & Hpix & _).
  assert (Hsplit : (i + Z.of_nat (S n)) * bpc = i * bpc + bpc + Z.of_nat n * bpc)
    by (rewrite Nat2Z.inj_succ; ring).
  assert (0 ≤ Z.of_nat n * bpc) by nia.
  assert (0 ≤ i * bpc) by nia.
  assert (i * bpc + bpc ≤ channels img0 * bpc) by nia.
  cbn [get_loop]. rewrite get_at_spec by (try done; lia).
  cbn [mbind option_bind].
  rewrite IH by (rewrite ?length_inserts; try done; lia).
  f_equal.
  replace (Z.to_nat ((i + 1) * bpc)) with (Z.to_nat (i * bpc) + Z.to_nat bpc)%nat by lia.
  replace (Z.to_nat (pixel + (i + 1) * bpc))
    with (Z.to_nat (pixel + i * bpc) + Z.to_nat bpc)%nat by lia.
  rewrite inserts_adjacent by lia. done.
Qed.

End PixelLoops.

Section PixelStores.
Import CpuImage CpuImageBulk.

(** The channels written so far form one block of the vector. *)
Lemma set_loop_spec x y srcArray (n : nat) : ∀ i img,
  valid img →
  0 ≤ x < width img → 0 ≤ y < height img →
  0 ≤ i → i + Z.of_nat n ≤ channels img →
  (i + Z.of_nat n) * bytesPerChannel img ≤ Z.of_nat (length srcArray) →
  let bpc := bytesPerChannel img in
  let pixel := (y * width img + x) * channels img * bpc in
  set_loop img x y srcArray i n
  = Some (with_data img
            (list_inserts (Z.to_nat (pixel + i * bpc))
               (take (n * Z.to_nat bpc) (drop (Z.to_nat (i * bpc)) srcArray))
               (data img))).
Proof.
  induction n as [|n IH]; intros i img Hvalid Hx Hy Hi Hn Hsrc bpc pixel.
  - cbn. by destruct img.
  - pose proof Hvalid as (_ & _ & _ & Hbpc & _ & Hlen). fold bpc in Hbpc.
    pose proof (pixel_bounds img Hvalid x y Hx Hy) as (_ & _ & _ & Hpix & _).
    fold bpc pixel in Hpix.
    assert (Hsplit : (i + Z.of_nat (S n)) * bpc = i * bpc + bpc + Z.of_nat n * bpc)
      by (rewrite Nat2Z.inj_succ; ring).
    assert (0 ≤ Z.of_nat n * bpc) by nia.
    assert (0 ≤ i * bpc) by nia.
    assert (i * bpc + bpc ≤ channels img * bpc) by nia.
    cbn [set_loop]. fold bpc. rewrite set_at_spec by (try done; lia).
    cbn [mbind option_bind]. fold bpc pixel.
    match goal with
    | |- context [set_loop (with_data img ?d) _ _ _ _ _] =>
        pose proof (IH (i + 1) (with_data img d)) as IH';
          assert (Hd : length d = length (data img)) by apply length_inserts
    end.
    cbn [with_data width height channels bytesPerChannel data] in IH'.
    fold bpc pixel in IH'.
    rewrite IH' by (try (apply valid_with_data); try done; lia). clear IH'.
    unfold with_data. cbn [width height channels bytesPerChannel data].
    do 2 f_equal.
    replace (Z.to_nat ((i + 1) * bpc)) with (Z.to_nat (i * bpc) + Z.to_nat bpc)%nat by lia.
    replace (Z.to_nat (pixel + (i + 1) * bpc))
      with (Z.to_nat (pixel + i * bpc) + Z.to_nat bpc)%nat by lia.
    rewrite inserts_adjacent by lia. done.
Qed.

End PixelStores.

Section PixelTheorems.
Import CpuImage CpuImageBulk.

(** X1: the whole-pixel [set] on an in-bounds pixel of a valid image
    succeeds and is one block write: the first [channels * bytesPerChannel]
    bytes of the source array replace the bytes from offset
    [(y*width + x) * channels * bytesPerChannel]; all other bytes of the
    image, and its extents, stay as they were. *)
Theorem set_all_writes_pixel img x y srcArray :
  valid img →
  0 ≤ x < width img → 0 ≤ y < height img →
  channels img * bytesPerChannel img ≤ Z.of_nat (length srcArray) →
  let stride := channels img * bytesPerChannel img in
  set_all img x y srcArray
  = Some (with_data img
            (list_inserts (Z.to_nat ((y * width img + x) * stride))
               (take (Z.to_nat stride) srcArray) (data img))).
Proof.
  intros Hvalid Hx Hy Hsrc stride. unfold set_all.
  pose proof Hvalid as (_ & _ & Hch & Hbpc & _).
  rewrite set_loop_spec by (try done; lia).
  rewrite Z.mul_0_l, Z.add_0_r. change (Z.to_nat 0) with 0%nat. rewrite drop_0.
  replace ((y * width img + x) * stride)
    with ((y * width img + x) * channels img * bytesPerChannel img)
    by (unfold stride; ring).
  by replace (Z.to_nat stride)
    with (Z.to_nat (channels img) * Z.to_nat (bytesPerChannel img))%nat
    by (unfold stride; nia).
Qed.

Lemma set_all_writes_pixel_witness :
  set_all (create 2 2 2 1) 1 0 [x0a; x0b; x0c]%byte
  = Some (with_data (create 2 2 2 1)
            [x00; x00; x0a; x0b; x00; x00; x00; x00]%byte).
Proof.
  apply (set_all_writes_pixel (create 2 2 2 1) 1 0 [x0a; x0b; x0c]%byte);
    try (simpl; lia).
  unfold valid, size, CInt.INT_MAX. simpl. lia.
Defined.

(** X2: on a valid image, the whole-pixel [set] followed by the
    whole-pixel [get] at the same in-bounds coordinates delivers the
    written bytes of all channels to the front of the caller's array and
    leaves the rest of that array alone. *)
Theorem set_all_get_all_roundtrip img x y srcArray targetArray :
  valid img →
  0 ≤ x < width img → 0 ≤ y < height img →
  channels img * bytesPerChannel img ≤ Z.of_nat (length srcArray) →
  channels img * bytesPerChannel img ≤ Z.of_nat (length targetArray) →
  let stride := Z.to_nat (channels img * bytesPerChannel img) in
  ∃ img',
    set_all img x y srcArray = Some img'
    ∧ get_all img' x y targetArray
      = Some (take stride srcArray ++ drop stride targetArray).
Proof.
  intros Hvalid Hx Hy Hsrc Htgt stride.
  pose proof Hvalid as (_ & _ & Hch & Hbpc & _ & Hlen).
  pose proof (pixel_bounds img Hvalid x y Hx Hy) as (_ & _ & _ & Hpix & _).
  assert (0 ≤ channels img * bytesPerChannel img) by nia.
  eexists. split.
  { unfold set_all. apply set_loop_spec; try done; lia. }
  rewrite Z.mul_0_l, Z.add_0_r. change (Z.to_nat 0) with 0%nat. rewrite drop_0.
  replace (Z.to_nat (channels img) * Z.to_nat (bytesPerChannel img))%nat
    with stride by (unfold stride; nia).
  set (written := take stride srcArray).
  assert (Hw : length written = stride).
  { unfold written. rewrite length_take. lia. }
  unfold get_all.
  rewrite get_loop_spec;
    cbn [with_data width height channels bytesPerChannel data];
    rewrite ?length_inserts; try done; try lia.
  2: { apply valid_with_data; [done |]. by rewrite length_inserts. }
  rewrite Z.mul_0_l, Z.add_0_r. change (Z.to_nat 0) with 0%nat.
  replace (Z.to_nat (channels img) * Z.to_nat (bytesPerChannel img))%nat
    with stride by (unfold stride; nia).
  f_equal. rewrite <- Hw at 1. rewrite take_drop_inserts by (unfold stride in *; lia).
  rewrite inserts_front by lia. by rewrite Hw.
Qed.

Lemma set_all_get_all_roundtrip_witness :
  ∃ img',
    set_all (create 2 2 2 1) 1 1 [x0a; x0b]%byte = Some img'
    ∧ get_all img' 1 1 [x01; x02; x03]%byte = Some [x0a; x0b; x03]%byte.
Proof.
  apply (set_all_get_all_roundtrip (create 2 2 2 1) 1 1
           [x0a; x0b]%byte [x01; x02; x03]%byte); try (simpl; lia).
  unfold valid, size, CInt.INT_MAX. simpl. lia.
Defined.

End PixelTheorems.

Section RawAccess.
Import CpuImage CpuImageBulk.

Lemma writeRaw_spec img inputData :
  valid img → size img ≤ Z.of_nat (length inputData) →
  writeRaw img inputData
  = Some (with_data img (take (Z.to_nat (size img)) inputData)).
Proof.
  intros Hvalid Hin. pose proof Hvalid as (Hw & Hh & Hch & Hbpc & _ & Hlen).
  assert (0 ≤ size img) by (unfold size; nia).
  unfold writeRaw. rewrite memcpy_Some by lia. cbn [mbind option_bind].
  change (Z.to_nat 0) with 0%nat. rewrite drop_0.
  rewrite inserts_front by (rewrite length_take; lia).
  rewrite drop_ge, app_nil_r by (rewrite length_take; lia). done.
Qed.

Lemma readRaw_spec img outputData :
  valid img → size img ≤ Z.of_nat (length outputData) →
  readRaw img outputData
  = Some (data img ++ drop (Z.to_nat (size img)) outputData).
Proof.
  intros Hvalid Hout. pose proof Hvalid as (Hw & Hh & Hch & Hbpc & _ & Hlen).
  assert (0 ≤ size img) by (unfold size; nia).
  unfold readRaw. rewrite memcpy_Some by lia.
  change (Z.to_nat 0) with 0%nat. rewrite drop_0, take_ge by lia.
  rewrite inserts_front by lia. do 3 f_equal. lia.
Qed.

Lemma take_drop_take {A} (l : list A) (a o s : nat) :
  (o + a ≤ s)%nat → take a (drop o (take s l)) = take a (drop o l).
Proof.
  intros Hs. rewrite !take_drop_commute, take_take.
  by replace ((o + a) `min` s)%nat with (o + a)%nat by lia.
Qed.

(** X3: the raw layout is row-major and channel-interleaved without
    padding: after [writeRaw] of a buffer of at least [size()] bytes, the
    whole-pixel [get] at an in-bounds [(x, y)] returns the
    [channels * bytesPerChannel] bytes found at offset
    [(y*width + x) * channels * bytesPerChannel] of that buffer. *)
Theorem writeRaw_get_all img inputData x y targetArray :
  valid img → size img ≤ Z.of_nat (length inputData) →
  0 ≤ x < width img → 0 ≤ y < height img →
  channels img * bytesPerChannel img ≤ Z.of_nat (length targetArray) →
  let stride := channels img * bytesPerChannel img in
  ∃ img',
    writeRaw img inputData = Some img'
    ∧ get_all img' x y targetArray
      = Some (take (Z.to_nat stride)
                (drop (Z.to_nat ((y * width img + x) * stride)) inputData)
              ++ drop (Z.to_nat stride) targetArray).
Proof.
  intros Hvalid Hin Hx Hy Htgt stride.
  pose proof Hvalid as (_ & _ & Hch & Hbpc & _ & Hlen).
  pose proof (pixel_bounds img Hvalid x y Hx Hy) as (_ & _ & _ & Hpix & _).
  assert (0 ≤ stride) by (unfold stride; nia).
  assert (0 ≤ size img) by lia.
  eexists. split; [by apply writeRaw_spec |].
  assert (Hvalid' : valid (with_data img (take (Z.to_nat (size img)) inputData))).
  { apply valid_with_data; [done |]. rewrite length_take. lia. }
  unfold get_all.
  rewrite get_loop_spec;
    cbn [with_data width height channels bytesPerChannel data]; try done; try lia.
  rewrite Z.mul_0_l, Z.add_0_r. change (Z.to_nat 0) with 0%nat.
  replace (Z.to_nat (channels img) * Z.to_nat (bytesPerChannel img))%nat
    with (Z.to_nat stride) by (unfold stride; nia).
  replace ((y * width img + x) * stride)
    with ((y * width img + x) * channels img * bytesPerChannel img)
    by (unfold stride; ring).
  rewrite take_drop_take by (unfold stride in *; lia).
  f_equal. rewrite inserts_front by (rewrite length_take, length_drop; lia).
  rewrite length_take, length_drop. do 2 f_equal. unfold stride in *. lia.
Qed.

Lemma writeRaw_get_all_witness :
  ∃ img',
    writeRaw (create 2 2 1 1) [x01; x02; x03; x04; x05]%byte = Some img'
    ∧ get_all img' 0 1 [xff; xff]%byte = Some [x03; xff]%byte.
Proof.
  apply (writeRaw_get_all (create 2 2 1 1) [x01; x02; x03; x04; x05]%byte 0 1
           [xff; xff]%byte); try (simpl; lia).
  - unfold valid, size, CInt.INT_MAX. simpl. lia.
  - unfold size. simpl. lia.
Defined.

(** X4: [writeRaw] followed by [readRaw] returns the first [size()]
    bytes of the written buffer and leaves what follows them in the
    output array untouched; dimensions are unchanged. *)
Theorem writeRaw_readRaw_roundtrip img inputData outputData :
  valid img →
  size img ≤ Z.of_nat (length inputData) →
  size img ≤ Z.of_nat (length outputData) →
  ∃ img',
    writeRaw img inputData = Some img'
    ∧ size img' = size img
    ∧ readRaw img' outputData
      = Some (take (Z.to_nat (size img)) inputData
              ++ drop (Z.to_nat (size img)) outputData).
Proof.
  intros Hvalid Hin Hout.
  pose proof Hvalid as (Hw & Hh & Hch & Hbpc & _ & Hlen).
  assert (0 ≤ size img) by (unfold size; nia).
  eexists. split; [by apply writeRaw_spec |]. split; [done |].
  rewrite readRaw_spec; [done | | done].
  apply valid_with_data; [done |]. rewrite length_take. lia.
Qed.

Lemma writeRaw_readRaw_roundtrip_witness :
  ∃ img',
    writeRaw (create 2 1 1 1) [x01; x02; x03]%byte = Some img'
    ∧ size img' = 2
    ∧ readRaw img' [xff; xff; xff]%byte = Some [x01; x02; xff]%byte.
Proof.
  apply (writeRaw_readRaw_roundtrip (create 2 1 1 1) [x01; x02; x03]%byte
           [xff; xff; xff]%byte); try (unfold size; simpl; lia).
  unfold valid, size, CInt.INT_MAX. simpl. lia.
Defined.

Lemma valid_create w h ch bpc :
  1 ≤ w → 1 ≤ h → 1 ≤ ch → 1 ≤ bpc → w * h * ch * bpc ≤ CInt.INT_MAX →
  valid (create w h ch bpc).
Proof.
  intros. unfold valid, size, create.
  cbn [width height channels bytesPerChannel data].
  rewrite length_replicate. repeat split; try done. nia.
Qed.

(** X5: a freshly constructed image is zero-filled: the whole-pixel
    [get] at any in-bounds pixel delivers [channels * bytesPerChannel]
    zero bytes. *)
Theorem create_reads_zero w h ch bpc x y targetArray :
  1 ≤ w → 1 ≤ h → 1 ≤ ch → 1 ≤ bpc → w * h * ch * bpc ≤ CInt.INT_MAX →
  0 ≤ x < w → 0 ≤ y < h →
  ch * bpc ≤ Z.of_nat (length targetArray) →
  get_all (create w h ch bpc) x y targetArray
  = Some (replicate (Z.to_nat (ch * bpc)) x00%byte
          ++ drop (Z.to_nat (ch * bpc)) targetArray).
Proof.
  intros Hw Hh Hch Hbpc Hmax Hx Hy Htgt.
  pose proof (valid_create w h ch bpc Hw Hh Hch Hbpc Hmax) as Hvalid.
  pose proof (pixel_bounds _ Hvalid x y Hx Hy) as (_ & _ & _ & Hpix & _).
  unfold size in Hpix. cbn [create width height channels bytesPerChannel] in Hpix.
  assert (0 ≤ ch * bpc) by nia.
  unfold get_all.
  rewrite get_loop_spec;
    cbn [create width height channels bytesPerChannel data]; try done; try lia.
  rewrite Z.mul_0_l, Z.add_0_r. change (Z.to_nat 0) with 0%nat.
  replace (Z.to_nat ch * Z.to_nat bpc)%nat with (Z.to_nat (ch * bpc)) by nia.
  rewrite drop_replicate, take_replicate.
  replace (Z.to_nat (ch * bpc)
           `min` (Z.to_nat (w * h * ch * bpc) - Z.to_nat ((y * w + x) * ch * bpc)))%nat
    with (Z.to_nat (ch * bpc)) by lia.
  apply f_equal. rewrite inserts_front by (rewrite length_replicate; lia).
  by rewrite length_replicate.
Qed.

Lemma create_reads_zero_witness :
  get_all (create 2 2 2 1) 1 1 [x01; x02; x03]%byte = Some [x00; x00; x03]%byte.
Proof.
  apply (create_reads_zero 2 2 2 1 1 1 [x01; x02; x03]%byte);
    unfold CInt.INT_MAX; simpl; lia.
Defined.



End RawAccess.

(** ** Border modes outside the extent *)

Section BorderModes.
Import CpuImage.

(** X7: MIRROR supports exactly one reflection. For an index outside
    [0, size) it returns [-i] when [-size < i < 0] and
    [2 * (size - 1) - i] when [size <= i <= 2 * size - 2] (the edge pixel
    is not repeated), both valid; any index further out fails the
    assertion. *)
Theorem applyBorder1D_MIRROR_single_reflection i size :
  1 ≤ size → size ≤ CInt.INT_MAX → CInt.INT_MIN < i ≤ CInt.INT_MAX →
  applyBorder1D i size MIRROR
  = if bool_decide (0 ≤ i < size) then Some (true, i)
    else if bool_decide (- size < i < 0) then Some (true, - i)
    else if bool_decide (size ≤ i ≤ 2 * size - 2)
         then Some (true, 2 * (size - 1) - i)
    else None.
Proof.
  intros Hs Hmax Hi. unfold applyBorder1D.
  unfold CInt.INT_MIN, CInt.INT_MAX in *.
  case_bool_decide as Hin; [done |].
  destruct (decide (i < 0)) as [Hneg|Hpos].
  - rewrite (bool_decide_eq_true_2 (i < 0)) by done.
    rewrite neg_exact by int_range.
    repeat case_bool_decide; try done; lia.
  - rewrite (bool_decide_eq_false_2 (i < 0)) by done.
    rewrite (bool_decide_eq_true_2 (size ≤ i)) by lia.
    rewrite (sub_exact size 1) by int_range.
    rewrite (sub_exact i) by int_range.
    rewrite sub_exact by int_range.
    rewrite (bool_decide_eq_false_2 (- size < i < 0)) by lia.
    repeat case_bool_decide; try done; try lia.
    do 2 f_equal. lia.
Qed.

Lemma applyBorder1D_MIRROR_single_reflection_witness :
  applyBorder1D (-2) 4 MIRROR = Some (true, 2).
Proof.
  apply (applyBorder1D_MIRROR_single_reflection (-2) 4);
    unfold CInt.INT_MIN, CInt.INT_MAX; lia.
Defined.

Lemma applyBorder1D_REPEAT_clamp i size :
  1 ≤ size → size ≤ CInt.INT_MAX →
  applyBorder1D i size REPEAT = Some (true, Z.max 0 (Z.min i (size - 1))).
Proof.
  intros Hs Hmax. unfold applyBorder1D. unfold CInt.INT_MAX in *.
  repeat case_bool_decide; rewrite ?sub_exact by int_range;
    do 2 f_equal; lia.
Qed.

(** X8: REPEAT clamps each coordinate to the image, so from any pair
    of coordinates [applyBorder] reports a valid sample and leaves a
    pixel of the image: [x] in [0, width), [y] in [0, height). *)
Theorem applyBorder_REPEAT_clamps img x y :
  1 ≤ width img ≤ CInt.INT_MAX → 1 ≤ height img ≤ CInt.INT_MAX →
  let x' := Z.max 0 (Z.min x (width img - 1)) in
  let y' := Z.max 0 (Z.min y (height img - 1)) in
  applyBorder img x y REPEAT = Some (true, x', y')
  ∧ 0 ≤ x' < width img ∧ 0 ≤ y' < height img.
Proof.
  intros Hw Hh x' y'. unfold applyBorder.
  rewrite !applyBorder1D_REPEAT_clamp by lia.
  split; [done | lia].
Qed.

Lemma applyBorder_REPEAT_clamps_witness :
  applyBorder (create 4 3 1 1) (-5) 9 REPEAT = Some (true, 0, 2)
  ∧ 0 ≤ 0 < 4 ∧ 0 ≤ 2 < 3.
Proof.
  apply (applyBorder_REPEAT_clamps (create 4 3 1 1) (-5) 9);
    unfold CInt.INT_MAX; simpl; lia.
Defined.

(** X9: WRAP is the mathematical remainder for every non-negative
    index and for every negative index that is not a multiple of [size]:
    the result is [i mod size], inside [0, size). *)
Theorem applyBorder1D_WRAP_modulo i size :
  1 ≤ size → size ≤ CInt.INT_MAX → CInt.INT_MIN < i ≤ CInt.INT_MAX →
  0 ≤ i ∨ i `mod` size ≠ 0 →
  applyBorder1D i size WRAP = Some (true, i `mod` size)
  ∧ 0 ≤ i `mod` size < size.
Proof.
  intros Hs Hmax Hi Hnm. unfold CInt.INT_MIN, CInt.INT_MAX in *.
  pose proof (Z.mod_pos_bound i size ltac:(lia)) as Hb.
  split; [| done]. unfold applyBorder1D.
  case_bool_decide as Hin.
  { by rewrite Z.mod_small by lia. }
  destruct (decide (i < 0)) as [Hneg|Hpos].
  - rewrite (bool_decide_eq_true_2 (i < 0)) by done.
    destruct Hnm as [? | Hnm]; [lia |].
    rewrite neg_exact by int_range.
    pose proof (Z.mod_pos_bound (- i) size ltac:(lia)) as Hb'.
    assert (Hopp : i `mod` size = size - (- i) `mod` size).
    { rewrite <- (Z.opp_involutive i) at 1.
      apply Z.mod_opp_l_nz; [lia |].
      intros Hz. apply Hnm.
      rewrite <- (Z.opp_involutive i). by apply Z.mod_opp_l_z; [lia |]. }
    rewrite rem_exact; rewrite Z.rem_mod_nonneg by lia; [| int_range].
    rewrite sub_exact by int_range. by rewrite Hopp.
  - rewrite (bool_decide_eq_false_2 (i < 0)) by done.
    rewrite rem_exact; rewrite Z.rem_mod_nonneg by lia; [done | int_range].
Qed.

Lemma applyBorder1D_WRAP_modulo_witness :
  applyBorder1D (-5) 4 WRAP = Some (true, 3) ∧ 0 ≤ 3 < 4.
Proof.
  apply (applyBorder1D_WRAP_modulo (-5) 4);
    unfold CInt.INT_MIN, CInt.INT_MAX; try lia.
  right. reflexivity || (vm_compute; discriminate).
Defined.

End BorderModes.

(** ** OpenGL wrappers: error check and teardown *)

Section ErrorCheck.
Import GL GLExt.

Lemma checkError_loop_result tag : ∀ pending fuel any s,
  errors s = pending → Forall (λ e, e ≠ 0) pending →
  (length pending < fuel)%nat →
  checkError_loop fuel tag any s
  = Ok (any || bool_decide (pending ≠ [])) (drained tag s).
Proof.
  induction pending as [|e es IH]; intros fuel any s He Hnz Hfuel.
  - destruct fuel as [|fuel]; [simpl in Hfuel; lia |].
    cbn [checkError_loop]. unfold mbind, M_bind, glGetError. rewrite He.
    rewrite bool_decide_eq_false_2 by tauto. unfold mret, M_ret.
    rewrite orb_false_r. f_equal.
    destruct s; unfold drained; simpl in *; subst. by rewrite app_nil_r.
  - destruct fuel as [|fuel]; [simpl in Hfuel; lia |].
    apply Forall_cons in Hnz as [Hnz1 Hnz2].
    cbn [checkError_loop]. unfold mbind, M_bind, glGetError. rewrite He.
    rewrite bool_decide_eq_true_2 by done.
    unfold emit. cbn -[checkError_loop].
    match goal with
    | |- checkError_loop fuel tag true ?s0 = _ =>
        rewrite (IH fuel true s0 eq_refl Hnz2) by (simpl in Hfuel; lia)
    end.
    rewrite orb_true_r. f_equal. unfold drained. cbn.
    by rewrite He, <- app_assoc.
Qed.

(** X10: provided the pending error flags are non-zero codes,
    [checkError] returns without any effect when none is pending, and
    otherwise aborts after reading out the whole queue, with one
    [log_error] line per flag, in order, and nothing else changed. *)
Theorem checkError_drains tag s :
  Forall (λ e, e ≠ 0) (errors s) →
  checkError tag s
  = if bool_decide (errors s = []) then Ok () s else Abort (drained tag s).
Proof.
  intros Hnz. unfold checkError, mbind, M_bind.
  rewrite (checkError_loop_result tag (errors s)) by (done || lia).
  cbn [orb]. destruct (decide (errors s = [])) as [He|He].
  - rewrite (bool_decide_eq_true_2 _ He), bool_decide_eq_false_2 by tauto.
    unfold mret, M_ret. f_equal.
    destruct s; unfold drained; simpl in *; subst. by rewrite app_nil_r.
  - by rewrite (bool_decide_eq_false_2 _ He), bool_decide_eq_true_2.
Qed.

Lemma checkError_drains_witness :
  let s := mkDriver 0 ∅ ∅ 0 0 [0x502; 0x501] [] [] [] in
  checkError "bind" s
  = Abort (mkDriver 0 ∅ ∅ 0 0 [] [] []
             [log_error "bind" "%s produced glError (0x%x)" [0x502];
              log_error "bind" "%s produced glError (0x%x)" [0x501]]).
Proof.
  intros s. apply (checkError_drains "bind" s).
  subst s. repeat constructor; simpl; lia.
Defined.

End ErrorCheck.

Section Teardown.
Import GL.

(** X11: for a texture, a frame buffer and a program wrapper, [destroy]
    issues one delete call per non-zero handle (the frame buffer before
    its texture), leaves the handle at zero, and a second [destroy]
    returns with the context exactly as the first one left it. *)
Theorem destroy_releases_once
    (tex : TextureImplementation.t) (fb : FrameBufferImplementation.t)
    (prog : GlslProgramImplementation.t) (s : Driver) :
  (∃ self' s',
     destroy tex s = Ok self' s'
     ∧ released s'
       = released s
         ++ (if bool_decide (TextureImplementation.id tex ≠ 0)
             then [glDeleteTextures (TextureImplementation.id tex)] else [])
     ∧ TextureImplementation.id self' = 0
     ∧ destroy self' s' = Ok self' s')
  ∧ (∃ self' s',
       destroy fb s = Ok self' s'
       ∧ released s'
         = released s
           ++ (if bool_decide (FrameBufferImplementation.id fb ≠ 0)
               then [glDeleteFramebuffers (FrameBufferImplementation.id fb)] else [])
           ++ (if bool_decide (FrameBufferImplementation.getTextureId fb ≠ 0)
               then [glDeleteTextures (FrameBufferImplementation.getTextureId fb)]
               else [])
       ∧ FrameBufferImplementation.id self' = 0
       ∧ FrameBufferImplementation.getTextureId self' = 0
       ∧ destroy self' s' = Ok self' s')
  ∧ (∃ self' s',
       destroy prog s = Ok self' s'
       ∧ released s'
         = released s
           ++ (if bool_decide (GlslProgramImplementation.program prog ≠ 0)
               then [glDeleteProgram (GlslProgramImplementation.program prog)]
               else [])
       ∧ GlslProgramImplementation.program self' = 0
       ∧ destroy self' s' = Ok self' s').
Proof.
  destruct tex as [bt tid], fb as [w h fid [fbt ftid]], prog as [p].
  cbn [destroy Texture_Destroyable FrameBuffer_Destroyable GlslProgram_Destroyable].
  unfold FrameBufferImplementation.destroy, TextureImplementation.destroy,
    GlslProgramImplementation.destroy, FrameBufferImplementation.getTextureId,
    TextureImplementation.getId.
  cbn [FrameBufferImplementation.id FrameBufferImplementation.texture
       FrameBufferImplementation.width FrameBufferImplementation.height
       TextureImplementation.id TextureImplementation.bindType
       GlslProgramImplementation.program].
  split; [| split].
  - case_bool_decide; cbn;
      (do 2 eexists; split; [reflexivity |]; cbn;
       rewrite ?app_nil_r; split; [done |]; split; [done |]);
      by rewrite bool_decide_eq_false_2 by (intros Hz; by apply Hz).
  - do 2 case_bool_decide; cbn;
      (do 2 eexists; split; [reflexivity |]; cbn;
       rewrite <- ?app_assoc, ?app_nil_r; split; [done |];
       split; [done |]; split; [done |]);
      by rewrite !bool_decide_eq_false_2 by (intros Hz; by apply Hz).
  - case_bool_decide as Hp; cbn.
    + do 2 eexists. split; [reflexivity |]. cbn. split; [done |]. split; [done |].
      by rewrite bool_decide_eq_false_2 by (intros Hz; by apply Hz).
    + assert (p = 0) as -> by lia.
      do 2 eexists. split; [reflexivity |]. rewrite app_nil_r.
      split; [done |]. split; [done |].
      by rewrite bool_decide_eq_false_2 by (intros Hz; by apply Hz).
Qed.

(** X12: after [destroy], finalization is silent: for the texture, the
    frame buffer, the program and the fragment-shader runner, the
    destructor that follows a [destroy] returns with the context, and in
    particular the log, unchanged. *)
Theorem destroy_then_destructor_silent
    (tex : TextureImplementation.t) (fb : FrameBufferImplementation.t)
    (prog : GlslProgramImplementation.t)
    (runner : GlslFragmentShaderImplementation.t) (s : Driver) :
  (∃ self' s', destroy tex s = Ok self' s'
               ∧ TextureImplementation.destructor self' s' = Ok () s')
  ∧ (∃ self' s', destroy fb s = Ok self' s'
                 ∧ FrameBufferImplementation.destructor self' s' = Ok () s')
  ∧ (∃ self' s', destroy prog s = Ok self' s'
                 ∧ GlslProgramImplementation.destructor self' s' = Ok () s')
  ∧ (∃ self' s', destroy runner s = Ok self' s'
                 ∧ GlslFragmentShaderImplementation.destructor self' s' = Ok () s').
Proof.
  destruct tex as [bt tid], fb as [w h fid [fbt ftid]], prog as [p],
    runner as [vb vib av [rp]].
  cbn [destroy Texture_Destroyable FrameBuffer_Destroyable GlslProgram_Destroyable
       GlslFragmentShader_Destroyable].
  unfold FrameBufferImplementation.destroy, TextureImplementation.destroy,
    GlslProgramImplementation.destroy, GlslFragmentShaderImplementation.destroy,
    FrameBufferImplementation.destructor, TextureImplementation.destructor,
    GlslProgramImplementation.destructor,
    GlslFragmentShaderImplementation.destructor.
  cbn [FrameBufferImplementation.id FrameBufferImplementation.texture
       FrameBufferImplementation.width FrameBufferImplementation.height
       TextureImplementation.id TextureImplementation.bindType
       GlslProgramImplementation.program
       GlslFragmentShaderImplementation.vertexBuffer
       GlslFragmentShaderImplementation.vertexIndexBuffer
       GlslFragmentShaderImplementation.aVertexData
       GlslFragmentShaderImplementation.program].
  repeat split.
  - case_bool_decide; cbn; (do 2 eexists; split; [reflexivity |]); cbn;
      by rewrite bool_decide_eq_false_2 by (intros Hz; by apply Hz).
  - do 2 case_bool_decide; cbn; (do 2 eexists; split; [reflexivity |]); cbn;
      by rewrite !bool_decide_eq_false_2 by (intros Hz; by apply Hz).
  - case_bool_decide as Hp; cbn; (do 2 eexists; split; [reflexivity |]); cbn.
    + by rewrite bool_decide_eq_false_2 by (intros Hz; by apply Hz).
    + subst p. by rewrite bool_decide_eq_false_2 by (intros Hz; by apply Hz).
  - unfold GlslProgramImplementation.destroy, GlslProgramImplementation.destructor.
    cbn [GlslProgramImplementation.program].
    assert (Hz : bool_decide (0 ≠ 0) = false)
      by (apply bool_decide_eq_false_2; intros Hz; by apply Hz).
    destruct (bool_decide (vb ≠ 0)); destruct (decide (rp = 0)) as [->|Hp];
      rewrite ?Hz, ?(bool_decide_eq_true_2 (rp ≠ 0)) by done; cbn;
      (do 2 eexists; split; [reflexivity |]); cbn; by rewrite ?Hz.
Qed.

End Teardown.

(** ** The fragment-shader runner as a bind target *)

Section RunnerScope.
Import GL.

Lemma same_context_Ok tag s s' :
  checkError tag s = Ok () s' → same_context s s'.
Proof.
  intros Hc. pose proof (checkError_frame tag s) as Hf. by rewrite Hc in Hf.
Qed.

Lemma runner_bind_Ok (self : GlslFragmentShaderImplementation.t) s s' :
  GlslFragmentShaderImplementation.bind self s = Ok () s' →
  currentProgram s' = GlslFragmentShaderImplementation.getId self
  ∧ boundBuffer s' GL_ARRAY_BUFFER = GlslFragmentShaderImplementation.vertexBuffer self
  ∧ boundBuffer s' GL_ELEMENT_ARRAY_BUFFER
    = GlslFragmentShaderImplementation.vertexIndexBuffer self.
Proof.
  unfold GlslFragmentShaderImplementation.bind, GlslProgramImplementation.bind,
    mbind, M_bind, gl.
  destruct (checkError "bind/glBindBuffer x 2" _) as [[] s1|] eqn:Hc1; [| done].
  apply same_context_Ok in Hc1 as (_ & _ & Hbb1 & _ & Hcp1 & _).
  intros Hc2. apply same_context_Ok in Hc2 as (_ & _ & Hbb2 & _ & Hcp2 & _).
  cbn in Hbb2, Hcp2, Hbb1, Hcp1. unfold boundBuffer.
  rewrite Hcp2, Hcp1, Hbb2, Hbb1. split; [done |].
  rewrite lookup_insert_ne by done. by rewrite !lookup_insert_eq.
Qed.

Lemma runner_unbind_Ok (self : GlslFragmentShaderImplementation.t) s s' :
  GlslFragmentShaderImplementation.unbind self s = Ok () s' →
  currentProgram s' = 0
  ∧ boundBuffer s' GL_ARRAY_BUFFER = 0
  ∧ boundBuffer s' GL_ELEMENT_ARRAY_BUFFER = 0.
Proof.
  unfold GlslFragmentShaderImplementation.unbind, GlslProgramImplementation.unbind,
    mbind, M_bind, gl.
  destruct (checkError "unbind/glDisableVertexAttribArray x 2" _)
    as [[] s1|] eqn:Hc1; [| done].
  destruct (checkError "unbind/glBindBuffer x 2" _) as [[] s2|] eqn:Hc2; [| done].
  apply same_context_Ok in Hc2 as (_ & _ & Hbb2 & _).
  intros [= <-]. cbn in Hbb2 |- *. unfold boundBuffer. cbn. rewrite Hbb2.
  split; [done |]. rewrite lookup_insert_eq.
  rewrite lookup_insert_ne by done. by rewrite lookup_insert_eq.
Qed.

(** X13: a [Binder] scope around the fragment-shader runner that is
    left normally started its body with the runner's program current and
    its vertex and index buffers bound, and ends with no program current
    and neither buffer bound. *)
Theorem runner_scope_bindings {A}
    (runner : GlslFragmentShaderImplementation.t) (body : M A) s a s' :
  Binder runner body s = Ok a s' →
  (∃ s1 s2,
     body s1 = Ok a s2
     ∧ currentProgram s1 = GlslFragmentShaderImplementation.getId runner
     ∧ boundBuffer s1 GL_ARRAY_BUFFER
       = GlslFragmentShaderImplementation.vertexBuffer runner
     ∧ boundBuffer s1 GL_ELEMENT_ARRAY_BUFFER
       = GlslFragmentShaderImplementation.vertexIndexBuffer runner)
  ∧ currentProgram s' = 0
  ∧ boundBuffer s' GL_ARRAY_BUFFER = 0
  ∧ boundBuffer s' GL_ELEMENT_ARRAY_BUFFER = 0.
Proof.
  intros Hscope. apply Binder_Ok in Hscope as (s1 & s2 & Hb & Hbody & Hu).
  split.
  - exists s1, s2. split; [done |]. by apply runner_bind_Ok in Hb.
  - by apply runner_unbind_Ok in Hu.
Qed.

Lemma runner_scope_bindings_witness :
  let runner :=
    GlslFragmentShaderImplementation.mk 1 2 0 (GlslProgramImplementation.mk 3) in
  (∃ s1 s2,
     (mret () : M ()) s1 = Ok () s2
     ∧ currentProgram s1 = 3
     ∧ boundBuffer s1 GL_ARRAY_BUFFER = 1
     ∧ boundBuffer s1 GL_ELEMENT_ARRAY_BUFFER = 2)
  ∧ currentProgram (final (Binder runner (mret ()) quiet)) = 0
  ∧ boundBuffer (final (Binder runner (mret ()) quiet)) GL_ARRAY_BUFFER = 0
  ∧ boundBuffer (final (Binder runner (mret ()) quiet)) GL_ELEMENT_ARRAY_BUFFER = 0.
Proof.
  intros runner.
  apply (runner_scope_bindings runner (mret ()) quiet ()).
  vm_compute. reflexivity.
Defined.

End RunnerScope.

(** ** Flags, texture units and the draw *)

Section ExtScopes.
Import GL GLExt.

Lemma BinderX_Returned `{TargetX T} {A} (target : T) (body : MX A) k a k' :
  BinderX target body k = Returned a k' →
  ∃ k1 k2, bindX target k = Returned () k1 ∧ body k1 = Returned a k2
           ∧ unbindX target k2 = Returned () k'.
Proof.
  unfold BinderX, mbind, MX_bind, mret, MX_ret.
  destruct (bindX target k) as [[] k1|]; [| done].
  destruct (body k1) as [a' k2|] eqn:Hb; [| done].
  destruct (unbindX target k2) as [[] k3|] eqn:Hu; [| done].
  intros [= -> ->]. eauto.
Qed.

Lemma flag_differs (a b : bool) : bool_decide (a ≠ b) = xorb a b.
Proof. by destruct a, b; vm_compute. Qed.

(** X14: a block that starts with a [GlFlagSetter<flag, target>] and
    is left normally ran its body with the flag in the target state and
    all other capabilities as on entry; when the body leaves the flag in
    the target state, the flag has its entry value again afterwards, and
    the other capabilities are as the body left them. *)
Theorem withFlag_restores {A} flag target (body : MX A) k a k' :
  withFlag flag target body k = Returned a k' →
  ∃ k1 k2,
    body k1 = Returned a k2
    ∧ (flag ∈ enabled k1 ↔ target = true)
    ∧ (∀ c, c ≠ flag → c ∈ enabled k1 ↔ c ∈ enabled k)
    ∧ (∀ c, c ≠ flag → c ∈ enabled k' ↔ c ∈ enabled k2)
    ∧ ((flag ∈ enabled k2 ↔ target = true) →
       (flag ∈ enabled k' ↔ flag ∈ enabled k)).
Proof.
  unfold withFlag, GlFlagSetter.constructor, GlFlagSetter.destructor, isEnabled.
  unfold mbind, MX_bind, mret, MX_ret.
  cbn [GlFlagSetter.origState GlFlagSetter.targetState GlFlagSetter.flag].
  rewrite !flag_differs.
  destruct (decide (flag ∈ enabled k)) as [Hin|Hout].
  - rewrite (bool_decide_eq_true_2 _ Hin). destruct target; cbn [xorb glx negb].
    + destruct (body _) as [a' k2|] eqn:Hb; [| done]. intros [= -> ->].
      do 2 eexists. split; [exact Hb |]. cbn. set_solver.
    + destruct (body _) as [a' k2|] eqn:Hb; [| done]. intros [= -> <-].
      do 2 eexists. split; [exact Hb |]. cbn. set_solver.
  - rewrite (bool_decide_eq_false_2 _ Hout). destruct target; cbn [xorb glx negb].
    + destruct (body _) as [a' k2|] eqn:Hb; [| done]. intros [= -> <-].
      do 2 eexists. split; [exact Hb |]. cbn. set_solver.
    + destruct (body _) as [a' k2|] eqn:Hb; [| done]. intros [= -> ->].
      do 2 eexists. split; [exact Hb |]. cbn. set_solver.
Qed.

Lemma withFlag_restores_witness :
  let k := mkContext quiet {[GL_DEPTH_TEST; GL_BLEND]} (0, 0, 0, 0) ∅ [] in
  ∃ k1 k2,
    (mret () : MX ()) k1 = Returned () k2
    ∧ (GL_DEPTH_TEST ∈ enabled k1 ↔ false = true)
    ∧ (∀ c, c ≠ GL_DEPTH_TEST → c ∈ enabled k1 ↔ c ∈ enabled k)
    ∧ (∀ c, c ≠ GL_DEPTH_TEST →
         c ∈ enabled (finalX (withFlag GL_DEPTH_TEST false (mret ()) k))
         ↔ c ∈ enabled k2)
    ∧ ((GL_DEPTH_TEST ∈ enabled k2 ↔ false = true) →
       (GL_DEPTH_TEST ∈ enabled (finalX (withFlag GL_DEPTH_TEST false (mret ()) k))
        ↔ GL_DEPTH_TEST ∈ enabled k)).
Proof.
  intros k.
  apply (withFlag_restores GL_DEPTH_TEST false (mret ()) k ()).
  reflexivity.
Defined.

End ExtScopes.

Section TextureUnits.
Import GL GLExt.

(** X15: a [Binder] scope around a texture-uniform binder never aborts
    by itself. Its body starts with the binder's unit active, the
    binder's texture bound there at the binder's bind type, and the
    sampler uniform of the current program set to the slot; once left,
    unit 0 is active again and the binder's unit has the null texture
    bound. *)
Theorem textureUniformBinder_scope {A}
    (binder : TextureUniformBinder.t) (body : MX A) k a k' :
  BinderX binder body k = Returned a k' →
  (∃ k1 k2,
     body k1 = Returned a k2
     ∧ activeTexture (driver k1) = TextureUniformBinder.slot binder
     ∧ boundTexture (driver k1) (TextureUniformBinder.bindType binder)
       = TextureUniformBinder.textureId binder
     ∧ uniforms k1
         !! (currentProgram (driver k), TextureUniformBinder.uniformId binder)
       = Some [TextureUniformBinder.slot binder])
  ∧ activeTexture (driver k') = 0
  ∧ textureBinding (driver k')
      !! (TextureUniformBinder.slot binder, TextureUniformBinder.bindType binder)
    = Some 0.
Proof.
  intros Hscope. apply BinderX_Returned in Hscope as (k1 & k2 & Hb & Hbody & Hu).
  destruct binder as [sl bt uid tid].
  cbn [bindX unbindX TextureUniformBinder_Target] in Hb, Hu.
  unfold TextureUniformBinder.bind, TextureUniformBinder.unbind in Hb, Hu.
  cbn in Hb, Hu. injection Hb as <-. injection Hu as <-.
  cbn [TextureUniformBinder.slot TextureUniformBinder.bindType
       TextureUniformBinder.uniformId TextureUniformBinder.textureId].
  split.
  - do 2 eexists. split; [exact Hbody |]. unfold boundTexture. cbn.
    replace (GL_TEXTURE0 + sl - GL_TEXTURE0) with sl by lia.
    by rewrite !lookup_insert_eq.
  - cbn. replace (GL_TEXTURE0 + sl - GL_TEXTURE0) with sl by lia.
    split; [done |]. by rewrite lookup_insert_eq.
Qed.

Lemma textureUniformBinder_scope_witness :
  let binder := TextureUniformBinder.mk 1 GL_TEXTURE_2D 5 7 in
  let k := mkContext quiet ∅ (0, 0, 0, 0) ∅ [] in
  (∃ k1 k2,
     (mret () : MX ()) k1 = Returned () k2
     ∧ activeTexture (driver k1) = 1
     ∧ boundTexture (driver k1) GL_TEXTURE_2D = 7
     ∧ uniforms k1 !! (0, 5) = Some [1])
  ∧ activeTexture (driver (finalX (BinderX binder (mret ()) k))) = 0
  ∧ textureBinding (driver (finalX (BinderX binder (mret ()) k)))
      !! (1, GL_TEXTURE_2D) = Some 0.
Proof.
  intros binder k.
  apply (textureUniformBinder_scope binder (mret ()) k ()).
  reflexivity.
Defined.

Lemma lookup_makeBinders inputs (index : nat) :
  GlslPipelineImplementation.makeBinders inputs !! index
  = (λ input, TextureUniformBinder.mk (Z.of_nat index) input.1 input.2 (-1))
      <$> inputs !! index.
Proof.
  unfold GlslPipelineImplementation.makeBinders. by rewrite list_lookup_imap.
Qed.

(** X16: in a pipeline whose binders were built by the constructor's
    loop, [bindTexture(index, id)] fails for an index that is not the
    position of an input, and otherwise returns the binder of texture
    unit [index] with the bind type and uniform of that input and the
    given texture id; the binders of the other inputs are unchanged. *)
Theorem bindTexture_makeBinders outSize runner inputs (index : nat) textureId :
  let pipeline :=
    GlslPipelineImplementation.mk outSize runner
      (GlslPipelineImplementation.makeBinders inputs) in
  match inputs !! index with
  | None => GlslPipelineImplementation.bindTexture pipeline index textureId = None
  | Some input =>
      ∃ pipeline',
        GlslPipelineImplementation.bindTexture pipeline index textureId
        = Some (pipeline',
                TextureUniformBinder.mk (Z.of_nat index) input.1 input.2 textureId)
        ∧ ∀ other : nat, other ≠ index →
            GlslPipelineImplementation.textureBinders pipeline' !! other
            = GlslPipelineImplementation.textureBinders pipeline !! other
  end.
Proof.
  intros pipeline. unfold GlslPipelineImplementation.bindTexture, pipeline.
  cbn [GlslPipelineImplementation.textureBinders
       GlslPipelineImplementation.outSizeUniform GlslPipelineImplementation.program].
  rewrite lookup_makeBinders.
  destruct (inputs !! index) as [input|]; [| done].
  cbn. eexists. split; [reflexivity |].
  intros other Hne. cbn. by rewrite list_lookup_insert_ne.
Qed.

End TextureUnits.

(** ** Call sequences on a driver that raises no error *)

Section Trace.
Import GL GLExt GLTrace.

Lemma calm_apply k c : calm k → calm (apply k c).
Proof.
  destruct k as [[at_ tb bb fbb cp errs flts rel lg] en vp un dr].
  unfold calm. cbn. intros [-> ->]. by destruct c as [c|c]; destruct c.
Qed.

Lemma calm_replay cs : ∀ k, calm k → calm (replay cs k).
Proof.
  induction cs as [|c cs IH]; intros k Hk; [done |].
  apply (IH (apply k c)), calm_apply, Hk.
Qed.

Lemma replay_app cs cs' k : replay (cs ++ cs') k = replay cs' (replay cs k).
Proof. apply foldl_app. Qed.

Lemma issues_cs_eq {A} (m : MX A) k cs cs' a :
  issues m k cs a → cs = cs' → issues m k cs' a.
Proof. by intros H <-. Qed.

Lemma issues_ret {A} (a : A) k : issues (mret a) k [] a.
Proof. by intros _. Qed.

Lemma issues_bind {A B} (m : MX A) (f : A → MX B) k cs a cs' b :
  issues m k cs a → issues (f a) (replay cs k) cs' b →
  issues (m ≫= f) k (cs ++ cs') b.
Proof.
  intros Hm Hf Hk. unfold mbind, MX_bind. rewrite (Hm Hk).
  rewrite (Hf (calm_replay cs k Hk)). by rewrite replay_app.
Qed.

Lemma issues_glx c k : issues (glx c) k [ext c] ().
Proof. by intros _. Qed.

Lemma issues_isEnabled cap k :
  issues (isEnabled cap) k [ext (glIsEnabled cap)] (bool_decide (cap ∈ enabled k)).
Proof. by intros _. Qed.

Lemma issues_lift_gl c k : issues (lift (gl c)) k [base c] ().
Proof. by intros _. Qed.

Lemma issues_lift_checkError tag k : issues (lift (checkError tag)) k [] ().
Proof.
  intros [He _]. unfold lift. rewrite checkError_quiet by done. by destruct k.
Qed.

Lemma issues_lift_bind {A B} (m : M A) (f : A → M B) k cs a cs' b :
  issues (lift m) k cs a → issues (lift (f a)) (replay cs k) cs' b →
  issues (lift (m ≫= f)) k (cs ++ cs') b.
Proof.
  intros Hm Hf Hk. specialize (Hm Hk). specialize (Hf (calm_replay cs k Hk)).
  unfold lift, mbind, M_bind in *.
  destruct (m (driver k)) as [a' s|s]; [| done].
  injection Hm as -> Hs. rewrite <- Hs in Hf. cbn [driver set_driver] in Hf.
  destruct (f a s) as [b' s'|s']; [| done].
  injection Hf as -> Hs'. rewrite replay_app, <- Hs, <- Hs'. by destruct k.
Qed.

Lemma issues_runner_bind (runner : GlslFragmentShaderImplementation.t) k :
  issues (lift (GlslFragmentShaderImplementation.bind runner)) k
    [base (glUseProgram (GlslFragmentShaderImplementation.getId runner));
     base (glBindBuffer GL_ARRAY_BUFFER
             (GlslFragmentShaderImplementation.vertexBuffer runner));
     base (glBindBuffer GL_ELEMENT_ARRAY_BUFFER
             (GlslFragmentShaderImplementation.vertexIndexBuffer runner));
     base (glEnableVertexAttribArray
             (GlslFragmentShaderImplementation.aVertexData runner));
     base (glVertexAttribPointer
             (GlslFragmentShaderImplementation.aVertexData runner))] ().
Proof.
  unfold GlslFragmentShaderImplementation.bind, GlslProgramImplementation.bind.
  eapply issues_cs_eq.
  - repeat (eapply issues_lift_bind;
            [first [apply issues_lift_gl | apply issues_lift_checkError] |]).
    apply issues_lift_checkError.
  - reflexivity.
Qed.

Lemma issues_runner_unbind (runner : GlslFragmentShaderImplementation.t) k :
  issues (lift (GlslFragmentShaderImplementation.unbind runner)) k
    [base (glDisableVertexAttribArray
             (GlslFragmentShaderImplementation.aVertexData runner));
     base (glBindBuffer GL_ELEMENT_ARRAY_BUFFER 0);
     base (glBindBuffer GL_ARRAY_BUFFER 0);
     base (glUseProgram 0)] ().
Proof.
  unfold GlslFragmentShaderImplementation.unbind, GlslProgramImplementation.unbind.
  eapply issues_cs_eq.
  - repeat (eapply issues_lift_bind;
            [first [apply issues_lift_gl | apply issues_lift_checkError] |]).
    apply issues_lift_gl.
  - reflexivity.
Qed.

Lemma issues_frameBuffer_bind (fb : FrameBufferImplementation.t) k :
  issues (lift (FrameBufferImplementation.bind fb)) k
    [base (glBindFramebuffer (FrameBufferImplementation.id fb))] ().
Proof.
  unfold FrameBufferImplementation.bind. eapply issues_cs_eq.
  - eapply issues_lift_bind; [apply issues_lift_gl | apply issues_lift_checkError].
  - reflexivity.
Qed.

Lemma issues_frameBuffer_unbind (fb : FrameBufferImplementation.t) k :
  issues (lift (FrameBufferImplementation.unbind fb)) k
    [base (glBindFramebuffer 0)] ().
Proof.
  unfold FrameBufferImplementation.unbind. eapply issues_cs_eq.
  - eapply issues_lift_bind; [apply issues_lift_gl | apply issues_lift_checkError].
  - reflexivity.
Qed.

Lemma issues_binder_bind (binder : TextureUniformBinder.t) k :
  issues (TextureUniformBinder.bind binder) k
    [ext (glActiveTexture (GL_TEXTURE0 + TextureUniformBinder.slot binder));
     base (glBindTexture (TextureUniformBinder.bindType binder)
             (TextureUniformBinder.textureId binder));
     ext (glUniform1i (TextureUniformBinder.uniformId binder)
            (TextureUniformBinder.slot binder))] ().
Proof. by intros _. Qed.

Lemma issues_binder_unbind (binder : TextureUniformBinder.t) k :
  issues (TextureUniformBinder.unbind binder) k
    [ext (glActiveTexture (GL_TEXTURE0 + TextureUniformBinder.slot binder));
     base (glBindTexture (TextureUniformBinder.bindType binder) 0);
     ext (glActiveTexture GL_TEXTURE0)] ().
Proof. by intros _. Qed.

(** A flag setter scope issues the query, the switch when the flag is
    not in the target state, the body, and the switch back. *)
Lemma issues_withFlag {A} flag target (body : MX A) k cs a :
  let orig := bool_decide (flag ∈ enabled k) in
  issues body
    (replay (ext (glIsEnabled flag)
             :: (if xorb orig target
                 then [ext (if target then glEnable flag else glDisable flag)]
                 else [])) k) cs a →
  issues (withFlag flag target body) k (flagCalls flag target orig cs) a.
Proof.
  intros orig Hbody Hk.
  assert (Hk1 := calm_replay
    (ext (glIsEnabled flag)
     :: (if xorb orig target
         then [ext (if target then glEnable flag else glDisable flag)] else []))
    k Hk).
  specialize (Hbody Hk1).
  unfold withFlag, GlFlagSetter.constructor, GlFlagSetter.destructor, isEnabled.
  unfold mbind, MX_bind, mret, MX_ret.
  cbn [GlFlagSetter.origState GlFlagSetter.targetState GlFlagSetter.flag].
  rewrite !flag_differs. fold orig. unfold flagCalls.
  destruct (xorb orig target) eqn:Hx.
  - assert (Hstep : (if target then glx (glEnable flag) else glx (glDisable flag))
                      (effect (glIsEnabled flag) k)
                    = Returned ()
                        (replay [ext (glIsEnabled flag);
                                 ext (if target then glEnable flag else glDisable flag)] k))
      by (by destruct target).
    rewrite Hstep, Hbody.
    cbn [GlFlagSetter.origState GlFlagSetter.targetState GlFlagSetter.flag].
    rewrite flag_differs, Hx.
    assert (Hback : ∀ k2,
              (if orig then glx (glEnable flag) else glx (glDisable flag)) k2
              = Returned ()
                  (replay [ext (if orig then glEnable flag else glDisable flag)] k2))
      by (intros k2; by destruct orig).
    rewrite Hback. f_equal.
    change (ext (glIsEnabled flag)
            :: [ext (if target then glEnable flag else glDisable flag)]
               ++ cs ++ [ext (if orig then glEnable flag else glDisable flag)])
      with ([ext (glIsEnabled flag);
             ext (if target then glEnable flag else glDisable flag)]
            ++ cs ++ [ext (if orig then glEnable flag else glDisable flag)]).
    by rewrite !replay_app.
  - cbn [mret MX_ret]. change (effect (glIsEnabled flag) k)
      with (replay [ext (glIsEnabled flag)] k).
    rewrite Hbody.
    cbn [GlFlagSetter.origState GlFlagSetter.targetState GlFlagSetter.flag].
    rewrite flag_differs, Hx. cbn [mret MX_ret].
    f_equal. rewrite app_nil_r.
    change (ext (glIsEnabled flag) :: [] ++ cs)
      with ([ext (glIsEnabled flag)] ++ cs).
    by rewrite replay_app.
Qed.

End Trace.

Section ShaderFunctionTrace.
Import GL GLExt GLTrace.

Lemma issues_withFlag_eq {A} flag target (body : MX A) k cs a orig :
  orig = bool_decide (flag ∈ enabled k) →
  issues body
    (replay (ext (glIsEnabled flag)
             :: (if xorb orig target
                 then [ext (if target then glEnable flag else glDisable flag)]
                 else [])) k) cs a →
  issues (withFlag flag target body) k (flagCalls flag target orig cs) a.
Proof. intros ->. apply issues_withFlag. Qed.

Lemma issues_pipeline_bind (p : GlslPipelineImplementation.t) k :
  issues (bindX p) k
    [base (glUseProgram (GlslPipelineImplementation.getId p));
     base (glBindBuffer GL_ARRAY_BUFFER
             (GlslFragmentShaderImplementation.vertexBuffer
                (GlslPipelineImplementation.program p)));
     base (glBindBuffer GL_ELEMENT_ARRAY_BUFFER
             (GlslFragmentShaderImplementation.vertexIndexBuffer
                (GlslPipelineImplementation.program p)));
     base (glEnableVertexAttribArray
             (GlslFragmentShaderImplementation.aVertexData
                (GlslPipelineImplementation.program p)));
     base (glVertexAttribPointer
             (GlslFragmentShaderImplementation.aVertexData
                (GlslPipelineImplementation.program p)))] ().
Proof. apply (issues_runner_bind (GlslPipelineImplementation.program p)). Qed.

Lemma issues_pipeline_unbind (p : GlslPipelineImplementation.t) k :
  issues (unbindX p) k
    [base (glDisableVertexAttribArray
             (GlslFragmentShaderImplementation.aVertexData
                (GlslPipelineImplementation.program p)));
     base (glBindBuffer GL_ELEMENT_ARRAY_BUFFER 0);
     base (glBindBuffer GL_ARRAY_BUFFER 0);
     base (glUseProgram 0)] ().
Proof. apply (issues_runner_unbind (GlslPipelineImplementation.program p)). Qed.

(** The draw of the runner, between the flag setters and the frame
    buffer's binder. *)
Lemma issues_call runner (fb : FrameBufferImplementation.t) k :
  issues (call runner fb) k
    (flagCalls GL_DEPTH_TEST false (bool_decide (GL_DEPTH_TEST ∈ enabled k))
       (flagCalls GL_BLEND false (bool_decide (GL_BLEND ∈ enabled k))
          [base (glBindFramebuffer (FrameBufferImplementation.id fb));
           ext (glViewport 0 0 (FrameBufferImplementation.width fb)
                  (FrameBufferImplementation.height fb));
           ext (glDrawElements GL_TRIANGLES 6 GL_UNSIGNED_INT);
           base (glBindFramebuffer 0)])) ().
Proof.
  unfold call.
  apply issues_withFlag.
  eapply issues_withFlag_eq.
  { destruct (bool_decide (GL_DEPTH_TEST ∈ enabled k)); cbn;
      apply bool_decide_ext; set_solver. }
  unfold BinderX, setViewport. eapply issues_cs_eq.
  - eapply issues_bind; [apply issues_frameBuffer_bind |].
    eapply issues_bind;
      [| eapply issues_bind; [apply issues_frameBuffer_unbind | apply issues_ret]].
    eapply issues_bind;
      [eapply issues_bind; [apply issues_glx | apply issues_lift_checkError] |].
    eapply issues_bind; [apply issues_glx | apply issues_lift_checkError].
  - reflexivity.
Qed.

Lemma shaderFunction_replay (p : GlslPipelineImplementation.t)
    binder inputTextureId (output : FrameBufferImplementation.t) k :
  GlslPipelineImplementation.textureBinders p !! 0%nat = Some binder →
  issues (shaderFunction p inputTextureId output) k
    (shaderFunctionCalls p binder inputTextureId output
       (bool_decide (GL_DEPTH_TEST ∈ enabled k))
       (bool_decide (GL_BLEND ∈ enabled k))) ().
Proof.
  intros Hb. unfold shaderFunction, GlslPipelineImplementation.bindTexture.
  rewrite Hb. cbn [mbind option_bind]. unfold shaderFunctionCalls, BinderX.
  eapply issues_cs_eq.
  - eapply issues_bind; [apply issues_pipeline_bind |].
    eapply issues_bind;
      [| eapply issues_bind; [apply issues_pipeline_unbind | apply issues_ret]].
    eapply issues_bind; [apply issues_binder_bind |].
    eapply issues_bind;
      [| eapply issues_bind; [apply issues_binder_unbind | apply issues_ret]].
    unfold GlslPipelineImplementation.call.
    eapply issues_bind; [apply issues_glx |].
    eapply issues_bind; [apply issues_lift_checkError |].
    apply issues_call.
  - cbn [GlslPipelineImplementation.program GlslPipelineImplementation.outSizeUniform
         TextureUniformBinder.setTextureId TextureUniformBinder.slot
         TextureUniformBinder.bindType TextureUniformBinder.uniformId
         TextureUniformBinder.textureId].
    unfold GlslPipelineImplementation.getId.
    cbn [replay foldl apply effect set_driver enabled app].
    by rewrite <- !app_assoc.
Qed.

End ShaderFunctionTrace.

Section ShaderFunction.
Import GL GLExt GLTrace.

Local Ltac ctx_simpl :=
  cbn [replay foldl apply GLExt.effect GL.effect set_driver raise
       set_activeTexture app xorb is_release hd tl
       driver enabled viewport uniforms draws
       atDriver atEnabled atViewport atUniforms
       activeTexture textureBinding bufferBinding framebufferBinding
       currentProgram errors faults released log].

(** X17: on a driver that raises no error, the function of a shader
    with one input returns, and the context it leaves is the one reached
    by these calls in this order: the pipeline's bind, the binder of the
    input texture, the output size, the two flag setters around the frame
    buffer's bind, viewport, draw and unbind, then the unbinds of the
    texture binder and of the pipeline. *)
Theorem shaderFunction_issues_calls (p : GlslPipelineImplementation.t)
    binder inputTextureId (output : FrameBufferImplementation.t) k :
  calm k →
  GlslPipelineImplementation.textureBinders p !! 0%nat = Some binder →
  shaderFunction p inputTextureId output k
  = Returned ()
      (replay
         (shaderFunctionCalls p binder inputTextureId output
            (bool_decide (GL_DEPTH_TEST ∈ enabled k))
            (bool_decide (GL_BLEND ∈ enabled k))) k).
Proof.
  intros Hk Hb. exact (shaderFunction_replay p binder inputTextureId output k Hb Hk).
Qed.

Lemma shaderFunction_issues_calls_witness :
  let runner :=
    GlslFragmentShaderImplementation.mk 11 12 13 (GlslProgramImplementation.mk 5) in
  let binder := TextureUniformBinder.mk 0 GL_TEXTURE_2D 21 (-1) in
  let p := GlslPipelineImplementation.mk 20 runner [binder] in
  let output :=
    FrameBufferImplementation.mk 3 2 9 (TextureImplementation.mk GL_TEXTURE_2D 8) in
  let k := mkContext quiet {[GL_DEPTH_TEST]} (0, 0, 0, 0) ∅ [] in
  shaderFunction p 7 output k
  = Returned ()
      (replay
         (shaderFunctionCalls p binder 7 output
            (bool_decide (GL_DEPTH_TEST ∈ enabled k))
            (bool_decide (GL_BLEND ∈ enabled k))) k).
Proof.
  intros runner binder p output k.
  apply (shaderFunction_issues_calls p binder 7 output k);
    subst runner binder p output k; [split |]; reflexivity.
Defined.

End ShaderFunction.

(** ** What a sequence of calls leaves of each part of the context *)

Section Observables.
Import GL GLExt GLTrace.

Lemma observe_replay {T} (o : Context → T) (g : AnyCall → T → T) :
  (∀ k c, o (apply k c) = g c (o k)) →
  ∀ cs k, o (replay cs k) = foldl (λ x c, g c x) (o k) cs.
Proof.
  intros Hstep cs. induction cs as [|c cs IH]; intros k; [done |].
  cbn [replay foldl]. fold (replay cs (apply k c)). by rewrite IH, Hstep.
Qed.

Lemma program_replay cs k :
  currentProgram (driver (replay cs k))
  = foldl (λ x c, program_after c x) (currentProgram (driver k)) cs.
Proof.
  refine (observe_replay (λ k, currentProgram (driver k)) program_after _ cs k).
  by intros k' [[]|[]].
Qed.

Lemma framebuffer_replay cs k :
  framebufferBinding (driver (replay cs k))
  = foldl (λ x c, framebuffer_after c x) (framebufferBinding (driver k)) cs.
Proof.
  refine (observe_replay (λ k, framebufferBinding (driver k)) framebuffer_after _ cs k).
  by intros k' [[]|[]].
Qed.

Lemma viewport_replay cs k :
  viewport (replay cs k) = foldl (λ x c, viewport_after c x) (viewport k) cs.
Proof.
  refine (observe_replay viewport viewport_after _ cs k). by intros k' [[]|[]].
Qed.

Lemma unit_replay cs k :
  activeTexture (driver (replay cs k))
  = foldl (λ x c, unit_after c x) (activeTexture (driver k)) cs.
Proof.
  refine (observe_replay (λ k, activeTexture (driver k)) unit_after _ cs k).
  by intros k' [[]|[]].
Qed.

Lemma flag_replay flag cs k :
  bool_decide (flag ∈ enabled (replay cs k))
  = foldl (λ x c, flag_after flag c x) (bool_decide (flag ∈ enabled k)) cs.
Proof.
  refine (observe_replay (λ k, bool_decide (flag ∈ enabled k)) (flag_after flag) _ cs k).
  intros k' [c|c]; [done |]. destruct c; try done; cbn.
  - destruct (decide (cap = flag)) as [->|Hne].
    + rewrite (bool_decide_eq_true_2 (flag = flag)) by done.
      apply bool_decide_eq_true_2. set_solver.
    + rewrite (bool_decide_eq_false_2 (cap = flag)) by done.
      apply bool_decide_ext. set_solver.
  - destruct (decide (cap = flag)) as [->|Hne].
    + rewrite (bool_decide_eq_true_2 (flag = flag)) by done.
      apply bool_decide_eq_false_2. set_solver.
    + rewrite (bool_decide_eq_false_2 (cap = flag)) by done.
      apply bool_decide_ext. set_solver.
Qed.

Lemma buffer_replay target cs k :
  bufferBinding (driver (replay cs k)) !! target
  = foldl (λ x c, buffer_after target c x) (bufferBinding (driver k) !! target) cs.
Proof.
  refine (observe_replay (λ k, bufferBinding (driver k) !! target)
            (buffer_after target) _ cs k).
  intros k' [c|c]; [| by destruct c]. destruct c; try done. cbn.
  case_bool_decide as Heq.
  - subst. by rewrite lookup_insert_eq.
  - by rewrite lookup_insert_ne.
Qed.

Lemma texture_replay key cs k :
  (activeTexture (driver (replay cs k)), textureBinding (driver (replay cs k)) !! key)
  = foldl (λ x c, texture_after key c x)
      (activeTexture (driver k), textureBinding (driver k) !! key) cs.
Proof.
  refine (observe_replay
            (λ k, (activeTexture (driver k), textureBinding (driver k) !! key))
            (texture_after key) _ cs k).
  intros k' [c|c]; [| by destruct c]. destruct c; try done. cbn.
  case_bool_decide as Heq.
  - subst. by rewrite lookup_insert_eq.
  - by rewrite lookup_insert_ne.
Qed.

Lemma uniform_replay key cs k :
  (currentProgram (driver (replay cs k)), uniforms (replay cs k) !! key)
  = foldl (λ x c, uniform_after key c x)
      (currentProgram (driver k), uniforms k !! key) cs.
Proof.
  refine (observe_replay (λ k, (currentProgram (driver k), uniforms k !! key))
            (uniform_after key) _ cs k).
  intros k' [c|c]; [by destruct c |]. destruct c; try done; cbn.
  - case_bool_decide as Heq.
    + subst. by rewrite lookup_insert_eq.
    + by rewrite lookup_insert_ne.
  - case_bool_decide as Heq.
    + subst. by rewrite lookup_insert_eq.
    + by rewrite lookup_insert_ne.
Qed.

(** The draws recorded are those of before, then one per draw call. *)
Lemma draws_replay cs : ∀ pre k,
  draws (replay cs (replay pre k))
  = draws (replay pre k)
    ++ map (λ pre', snapshot (replay pre' k)) (draw_prefixes pre cs).
Proof.
  induction cs as [|c cs IH]; intros pre k.
  - cbn. by rewrite app_nil_r.
  - cbn [replay foldl draw_prefixes]. fold (replay cs (apply (replay pre k) c)).
    replace (apply (replay pre k) c) with (replay (pre ++ [c]) k)
      by (by rewrite replay_app).
    rewrite IH, map_app, app_assoc. f_equal.
    rewrite replay_app. cbn [replay foldl].
    by destruct c as [c|c]; destruct c; cbn; rewrite ?app_nil_r.
Qed.

Lemma draws_replay_from cs k :
  draws (replay cs k)
  = draws k ++ map (λ pre', snapshot (replay pre' k)) (draw_prefixes [] cs).
Proof. exact (draws_replay cs [] k). Qed.

End Observables.

Section ShaderFunctionState.
Import GL GLExt GLTrace.

Lemma texture_replay_value key cs k :
  textureBinding (driver (replay cs k)) !! key
  = (foldl (λ x c, texture_after key c x)
       (activeTexture (driver k), textureBinding (driver k) !! key) cs).2.
Proof. by rewrite <- texture_replay. Qed.

Lemma uniform_replay_value key cs k :
  uniforms (replay cs k) !! key
  = (foldl (λ x c, uniform_after key c x)
       (currentProgram (driver k), uniforms k !! key) cs).2.
Proof. by rewrite <- uniform_replay. Qed.

Lemma gset_eq_bool (A B : gset Z) :
  (∀ f, bool_decide (f ∈ A) = bool_decide (f ∈ B)) → A = B.
Proof.
  intros H. apply set_eq. intros f. specialize (H f).
  split; intros Hin.
  - apply (bool_decide_eq_true_1 (f ∈ B)). rewrite <- H.
    by apply bool_decide_eq_true_2.
  - apply (bool_decide_eq_true_1 (f ∈ A)). rewrite H.
    by apply bool_decide_eq_true_2.
Qed.

Local Ltac run_calls :=
  cbn [foldl program_after framebuffer_after viewport_after unit_after
       texture_after uniform_after fst snd].

(** X18: on a driver that raises no error, the shader function issues
    exactly one draw, and at that draw the pipeline's program is current,
    the output frame buffer is bound, the viewport is the whole output,
    depth test and blending are off, the input texture is bound on the
    binder's unit, which is the active one, and the uniforms of the
    program hold the output size and (at a location of its own) the unit
    of the sampler. *)
Theorem shaderFunction_draws_once (p : GlslPipelineImplementation.t)
    binder inputTextureId (output : FrameBufferImplementation.t) k :
  calm k →
  GlslPipelineImplementation.textureBinders p !! 0%nat = Some binder →
  let id := GlslPipelineImplementation.getId p in
  let w := FrameBufferImplementation.width output in
  let h := FrameBufferImplementation.height output in
  ∃ k' snap,
    shaderFunction p inputTextureId output k = Returned () k'
    ∧ draws k' = draws k ++ [snap]
    ∧ currentProgram (atDriver snap) = id
    ∧ framebufferBinding (atDriver snap) = FrameBufferImplementation.id output
    ∧ atViewport snap = (0, 0, w, h)
    ∧ (GL_DEPTH_TEST ∉ atEnabled snap)
    ∧ (GL_BLEND ∉ atEnabled snap)
    ∧ activeTexture (atDriver snap) = TextureUniformBinder.slot binder
    ∧ boundTexture (atDriver snap) (TextureUniformBinder.bindType binder)
      = inputTextureId
    ∧ atUniforms snap !! (id, GlslPipelineImplementation.outSizeUniform p)
      = Some [w; h]
    ∧ ((TextureUniformBinder.uniformId binder
        ≠ GlslPipelineImplementation.outSizeUniform p) →
       atUniforms snap !! (id, TextureUniformBinder.uniformId binder)
       = Some [TextureUniformBinder.slot binder]).
Proof.
  intros Hk Hb id w h. subst id w h.
  rewrite (shaderFunction_replay p binder inputTextureId output k Hb Hk).
  unfold GlslPipelineImplementation.getId.
  assert (Hunit : GL_TEXTURE0 + TextureUniformBinder.slot binder - GL_TEXTURE0
                  = TextureUniformBinder.slot binder) by lia.
  destruct (bool_decide (GL_DEPTH_TEST ∈ enabled k)) eqn:Hd;
    destruct (bool_decide (GL_BLEND ∈ enabled k)) eqn:Hbl;
    (do 2 eexists; split; [reflexivity |];
     rewrite draws_replay_from;
     unfold shaderFunctionCalls, flagCalls;
     cbn [draw_prefixes is_draw app xorb map];
     split; [reflexivity |];
     cbn [snapshot atDriver atEnabled atViewport atUniforms];
     unfold boundTexture;
     rewrite program_replay, framebuffer_replay, viewport_replay, unit_replay,
       texture_replay_value, !uniform_replay_value;
     run_calls; rewrite !Hunit;
     do 3 (split; [reflexivity |]);
     (split;
      [intros Hin; apply (bool_decide_eq_true_2 _) in Hin;
       rewrite flag_replay, Hd in Hin; vm_compute in Hin; discriminate Hin |]);
     (split;
      [intros Hin; apply (bool_decide_eq_true_2 _) in Hin;
       rewrite flag_replay, Hbl in Hin; vm_compute in Hin; discriminate Hin |]);
     split; [reflexivity |];
     split; [by rewrite bool_decide_eq_true_2 |];
     split; [by rewrite bool_decide_eq_true_2 |];
     intros Hne; rewrite bool_decide_eq_false_2 by congruence;
     by rewrite bool_decide_eq_true_2).
Qed.

Lemma shaderFunction_draws_once_witness :
  let runner :=
    GlslFragmentShaderImplementation.mk 11 12 13 (GlslProgramImplementation.mk 5) in
  let binder := TextureUniformBinder.mk 0 GL_TEXTURE_2D 21 (-1) in
  let p := GlslPipelineImplementation.mk 20 runner [binder] in
  let output :=
    FrameBufferImplementation.mk 3 2 9 (TextureImplementation.mk GL_TEXTURE_2D 8) in
  let k := mkContext quiet {[GL_DEPTH_TEST]} (0, 0, 0, 0) ∅ [] in
  let id := GlslPipelineImplementation.getId p in
  let w := FrameBufferImplementation.width output in
  let h := FrameBufferImplementation.height output in
  ∃ k' snap,
    shaderFunction p 7 output k = Returned () k'
    ∧ draws k' = draws k ++ [snap]
    ∧ currentProgram (atDriver snap) = id
    ∧ framebufferBinding (atDriver snap) = FrameBufferImplementation.id output
    ∧ atViewport snap = (0, 0, w, h)
    ∧ (GL_DEPTH_TEST ∉ atEnabled snap)
    ∧ (GL_BLEND ∉ atEnabled snap)
    ∧ activeTexture (atDriver snap) = TextureUniformBinder.slot binder
    ∧ boundTexture (atDriver snap) (TextureUniformBinder.bindType binder) = 7
    ∧ atUniforms snap !! (id, GlslPipelineImplementation.outSizeUniform p)
      = Some [w; h]
    ∧ ((TextureUniformBinder.uniformId binder
        ≠ GlslPipelineImplementation.outSizeUniform p) →
       atUniforms snap !! (id, TextureUniformBinder.uniformId binder)
       = Some [TextureUniformBinder.slot binder]).
Proof.
  intros runner binder p output k.
  apply (shaderFunction_draws_once p binder 7 output k);
    subst runner binder p output k; [split |]; reflexivity.
Defined.

(** X19: on a driver that raises no error, the shader function leaves
    no program current, the default frame buffer bound, unit 0 active,
    no vertex or index buffer bound, no texture bound on the binder's
    unit, and the capabilities enabled as they were on entry, whatever
    was bound before; the viewport stays that of the output. *)
Theorem shaderFunction_leaves (p : GlslPipelineImplementation.t)
    binder inputTextureId (output : FrameBufferImplementation.t) k :
  calm k →
  GlslPipelineImplementation.textureBinders p !! 0%nat = Some binder →
  ∃ k',
    shaderFunction p inputTextureId output k = Returned () k'
    ∧ calm k'
    ∧ currentProgram (driver k') = 0
    ∧ framebufferBinding (driver k') = 0
    ∧ activeTexture (driver k') = 0
    ∧ boundBuffer (driver k') GL_ARRAY_BUFFER = 0
    ∧ boundBuffer (driver k') GL_ELEMENT_ARRAY_BUFFER = 0
    ∧ textureBinding (driver k')
      !! (TextureUniformBinder.slot binder, TextureUniformBinder.bindType binder)
      = Some 0
    ∧ enabled k' = enabled k
    ∧ viewport k'
      = (0, 0, FrameBufferImplementation.width output,
         FrameBufferImplementation.height output).
Proof.
  intros Hk Hb.
  rewrite (shaderFunction_replay p binder inputTextureId output k Hb Hk).
  assert (Hunit : GL_TEXTURE0 + TextureUniformBinder.slot binder - GL_TEXTURE0
                  = TextureUniformBinder.slot binder) by lia.
  eexists. split; [reflexivity |]. split; [by apply calm_replay |].
  unfold boundBuffer.
  rewrite program_replay, framebuffer_replay, viewport_replay, unit_replay,
    texture_replay_value, !buffer_replay.
  destruct (bool_decide (GL_DEPTH_TEST ∈ enabled k)) eqn:Hd;
    destruct (bool_decide (GL_BLEND ∈ enabled k)) eqn:Hbl;
    (unfold shaderFunctionCalls, flagCalls; cbn [app xorb];
     do 5 (split; [reflexivity |]);
     split; [run_calls; rewrite !Hunit; by rewrite bool_decide_eq_true_2 |];
     split; [| reflexivity];
     apply gset_eq_bool; intros f; rewrite flag_replay;
     cbn [foldl flag_after];
     destruct (decide (GL_DEPTH_TEST = f)) as [Hf1|Hf1];
     destruct (decide (GL_BLEND = f)) as [Hf2|Hf2];
     rewrite ?(bool_decide_eq_true_2 _ Hf1), ?(bool_decide_eq_false_2 _ Hf1),
       ?(bool_decide_eq_true_2 _ Hf2), ?(bool_decide_eq_false_2 _ Hf2);
     cbn [orb andb negb]; try reflexivity;
     try (destruct (bool_decide (f ∈ enabled k)); reflexivity);
     subst f; rewrite ?Hd, ?Hbl; try reflexivity; discriminate Hf2).
Qed.

Lemma shaderFunction_leaves_witness :
  let runner :=
    GlslFragmentShaderImplementation.mk 11 12 13 (GlslProgramImplementation.mk 5) in
  let binder := TextureUniformBinder.mk 0 GL_TEXTURE_2D 21 (-1) in
  let p := GlslPipelineImplementation.mk 20 runner [binder] in
  let output :=
    FrameBufferImplementation.mk 3 2 9 (TextureImplementation.mk GL_TEXTURE_2D 8) in
  let k := mkContext quiet {[GL_DEPTH_TEST]} (0, 0, 0, 0) ∅ [] in
  ∃ k',
    shaderFunction p 7 output k = Returned () k'
    ∧ calm k'
    ∧ currentProgram (driver k') = 0
    ∧ framebufferBinding (driver k') = 0
    ∧ activeTexture (driver k') = 0
    ∧ boundBuffer (driver k') GL_ARRAY_BUFFER = 0
    ∧ boundBuffer (driver k') GL_ELEMENT_ARRAY_BUFFER = 0
    ∧ textureBinding (driver k')
      !! (TextureUniformBinder.slot binder, TextureUniformBinder.bindType binder)
      = Some 0
    ∧ enabled k' = enabled k
    ∧ viewport k'
      = (0, 0, FrameBufferImplementation.width output,
         FrameBufferImplementation.height output).
Proof.
  intros runner binder p output k.
  apply (shaderFunction_leaves p binder 7 output k);
    subst runner binder p output k; [split |]; reflexivity.
Defined.

(** X20: [GlslPipelineImplementation::call] entered with an error flag
    pending sets the output size and then aborts in its [checkError],
    before the runner is called: nothing is drawn. *)
Theorem pipeline_call_pending_error_aborts (p : GlslPipelineImplementation.t)
    (frameBuffer : FrameBufferImplementation.t) k :
  errors (driver k) ≠ [] →
  Forall (λ e, e ≠ 0) (errors (driver k) ++ hd [] (faults (driver k))) →
  ∃ k',
    GlslPipelineImplementation.call p frameBuffer k = Aborted k'
    ∧ draws k' = draws k
    ∧ errors (driver k') = []
    ∧ uniforms k'
      !! (currentProgram (driver k), GlslPipelineImplementation.outSizeUniform p)
      = Some [FrameBufferImplementation.width frameBuffer;
              FrameBufferImplementation.height frameBuffer].
Proof.
  intros Hne Hnz. unfold GlslPipelineImplementation.call.
  unfold mbind, MX_bind, glx, lift.
  set (k1 := GLExt.effect _ k).
  assert (He1 : errors (driver k1) = errors (driver k) ++ hd [] (faults (driver k)))
    by done.
  destruct (checkError_pending "call" (driver k1)) as (s' & Hrun & Hs').
  { rewrite He1. by destruct (errors (driver k)). }
  { by rewrite He1. }
  rewrite Hrun. eexists. split; [reflexivity |].
  split; [done |]. split; [done |].
  subst k1. cbn. by rewrite lookup_insert_eq.
Qed.

Lemma pipeline_call_pending_error_aborts_witness :
  let runner :=
    GlslFragmentShaderImplementation.mk 11 12 13 (GlslProgramImplementation.mk 5) in
  let p := GlslPipelineImplementation.mk 20 runner [] in
  let output :=
    FrameBufferImplementation.mk 3 2 9 (TextureImplementation.mk GL_TEXTURE_2D 8) in
  let k := mkContext (mkDriver 0 ∅ ∅ 0 5 [1282] [] [] []) ∅ (0, 0, 0, 0) ∅ [] in
  ∃ k',
    GlslPipelineImplementation.call p output k = Aborted k'
    ∧ draws k' = draws k
    ∧ errors (driver k') = []
    ∧ uniforms k'
      !! (currentProgram (driver k), GlslPipelineImplementation.outSizeUniform p)
      = Some [FrameBufferImplementation.width output;
              FrameBufferImplementation.height output].
Proof.
  intros runner p output k.
  apply (pipeline_call_pending_error_aborts p output k); subst runner p output k.
  - simpl. discriminate.
  - simpl. repeat constructor. lia.
Defined.

End ShaderFunctionState.

(** ** Further properties of the read adapter *)

Section ReadAdapterFurther.
Import ReadAdapters.

(** The closure of [setRepackFunction], on any adapter that meets the
    sizes it was built for. *)
Lemma call_cpuFunction_spec a f out :
  let h := height (buffer a) in
  let orw := origRowWidth f in
  let brw := bufRowWidth f in
  0 ≤ orw < brw → 0 ≤ h →
  size (buffer a) = h * brw →
  size (buffer a) ≤ CInt.INT_MAX →
  Z.of_nat (length (cpuBuffer a)) = size (buffer a) →
  h * orw ≤ Z.of_nat (length out) →
  ∃ out',
    call_cpuFunction a f out = Some out'
    ∧ take (Z.to_nat (h * orw)) out' = compacted (cpuBuffer a) orw brw 0 h
    ∧ Z.of_nat (length (compacted (cpuBuffer a) orw brw 0 h)) = h * orw
    ∧ drop (Z.to_nat (h * orw)) out' = drop (Z.to_nat (h * orw)) out
    ∧ ∀ i b, 0 ≤ i < h → 0 ≤ b < orw →
        out' !! Z.to_nat (i * orw + b) = cpuBuffer a !! Z.to_nat (i * brw + b).
Proof.
  intros h orw brw Hw Hh Hsize Hmax Hcb Hout.
  assert (Hhr : Z.of_nat (Z.to_nat h) = h) by lia.
  assert (0 ≤ h * orw ≤ h * brw) by nia.
  pose proof (length_compacted (cpuBuffer a) orw brw (Z.to_nat h) 0
                ltac:(lia) ltac:(lia) ltac:(lia)) as Hclen.
  rewrite Hhr in Hclen.
  set (rows := compacted (cpuBuffer a) orw brw 0 h) in *.
  exists (rows ++ drop (length rows) out).
  split; [| split; [| split; [done | split]]].
  - unfold call_cpuFunction. fold h orw brw.
    rewrite repack_loop_spec by lia.
    cbn [mbind option_bind]. rewrite Hhr, Z.add_0_l.
    rewrite wrap_in_range
      by int_range.
    rewrite bool_decide_eq_true_2 by lia.
    f_equal. fold rows. change (Z.to_nat 0) with 0%nat.
    apply inserts_front. lia.
  - replace (Z.to_nat (h * orw)) with (length rows) by lia.
    by rewrite take_app_length.
  - replace (Z.to_nat (h * orw)) with (length rows) by lia.
    by rewrite drop_app_length.
  - intros i b Hi Hb.
    assert (0 ≤ i * orw) by nia.
    assert (i * orw + orw ≤ h * orw) by nia.
    rewrite lookup_app_l by lia.
    unfold rows. rewrite <- Hhr at 1.
    rewrite lookup_compacted by lia. f_equal.
Qed.

(** X21: in the build without [USE_OPENGL_ES_ONLY], [createReadAdpater]
    on an image whose channel count is not two fails the first [assert]
    of [createFunction], since the target channel count is then the
    image's own. *)
Theorem createReadAdpater_other_channels image :
  channels image ≠ 2 → createReadAdpater image = None.
Proof.
  intros Hch. unfold createReadAdpater, createFunction.
  rewrite (bool_decide_eq_false_2 (channels image = 2)) by done.
  case_bool_decide; [done |].
  by rewrite (bool_decide_eq_false_2 (channels image < channels image)) by lia.
Qed.

Lemma createReadAdpater_other_channels_witness :
  createReadAdpater (mkImage 4 4 4 1) = None.
Proof. apply (createReadAdpater_other_channels (mkImage 4 4 4 1)). simpl. lia. Defined.

(** X22: the adapter of a two-channel image: the intermediate image has
    four channels and half the width, rounded up; the CPU repack closure
    is installed and the warning logged exactly when the width is odd,
    and then the row of the intermediate image is wider, in bytes, than
    the row of the source. *)
Theorem createReadAdpater_halves_width w h bpc :
  1 ≤ w → 1 ≤ h → 1 ≤ bpc → 2 * (w + 1) * bpc ≤ CInt.INT_MAX →
  let odd := bool_decide (w `mod` 2 ≠ 0) in
  let targetWidth := w `div` 2 + (if odd then 1 else 0) in
  ∃ a,
    createReadAdpater (mkImage w h 2 bpc) = Some (a, odd)
    ∧ buffer a = mkImage targetWidth h 4 bpc
    ∧ cpuFunction a
      = (if odd then Some (mkRepack (w * (2 * bpc)) (targetWidth * (4 * bpc)))
         else None)
    ∧ (odd = true →
       Z.of_nat (length (cpuBuffer a)) = size (buffer a)
       ∧ w * (2 * bpc) < targetWidth * (4 * bpc)
       ∧ size (buffer a) = h * (targetWidth * (4 * bpc))).
Proof. exact (createReadAdpater_two_channels w h bpc). Qed.

Lemma createReadAdpater_halves_width_witness :
  let odd := bool_decide (5 `mod` 2 ≠ 0) in
  let targetWidth := 5 `div` 2 + (if odd then 1 else 0) in
  ∃ a,
    createReadAdpater (mkImage 5 3 2 1) = Some (a, odd)
    ∧ buffer a = mkImage targetWidth 3 4 1
    ∧ cpuFunction a
      = (if odd then Some (mkRepack (5 * (2 * 1)) (targetWidth * (4 * 1)))
         else None)
    ∧ (odd = true →
       Z.of_nat (length (cpuBuffer a)) = size (buffer a)
       ∧ 5 * (2 * 1) < targetWidth * (4 * 1)
       ∧ size (buffer a) = 3 * (targetWidth * (4 * 1))).
Proof.
  apply (createReadAdpater_halves_width 5 3 1); unfold CInt.INT_MAX; lia.
Defined.

(** X23: the adapter of a two-channel image of odd width, composed with
    its closure: once the intermediate image has been read into the
    adapter's buffer, the closure passes its assertion and delivers the
    rows of the source, back to back: byte [b] of row [i] of the output
    is byte [b] of row [i] of the buffer, whose rows are one source pixel
    longer; the caller's array is untouched past the last row. *)
Theorem odd_width_read_compacts w h bpc cb out :
  1 ≤ w → 1 ≤ h → 1 ≤ bpc → w `mod` 2 ≠ 0 →
  h * (2 * (w + 1) * bpc) ≤ CInt.INT_MAX →
  Z.of_nat (length cb) = h * (2 * (w + 1) * bpc) →
  h * (w * (2 * bpc)) ≤ Z.of_nat (length out) →
  ∃ a f out',
    createReadAdpater (mkImage w h 2 bpc) = Some (a, true)
    ∧ cpuFunction a = Some f
    ∧ size (buffer a) = h * (2 * (w + 1) * bpc)
    ∧ call_cpuFunction (mkAdapter cb (Some f) (buffer a)) f out = Some out'
    ∧ (∀ i b, 0 ≤ i < h → 0 ≤ b < w * (2 * bpc) →
         out' !! Z.to_nat (i * (w * (2 * bpc)) + b)
         = cb !! Z.to_nat (i * (2 * (w + 1) * bpc) + b))
    ∧ drop (Z.to_nat (h * (w * (2 * bpc)))) out'
      = drop (Z.to_nat (h * (w * (2 * bpc)))) out.
Proof.
  intros Hw Hh Hbpc Hodd Hmax Hcb Hout.
  assert (Hrow : 2 * (w + 1) * bpc ≤ CInt.INT_MAX) by nia.
  destruct (createReadAdpater_two_channels w h bpc Hw Hh Hbpc Hrow)
    as (a & Hcreate & Hbuf & Hfun & Hsizes).
  rewrite (bool_decide_eq_true_2 (w `mod` 2 ≠ 0)) in * by done.
  destruct (Hsizes eq_refl) as (_ & Hlt & Hsize).
  pose proof (Z.div_mod w 2 ltac:(lia)) as Hdm.
  pose proof (Z.mod_pos_bound w 2 ltac:(lia)) as Hmb.
  assert (Hbrw : (w `div` 2 + 1) * (4 * bpc) = 2 * (w + 1) * bpc) by nia.
  rewrite Hbrw in *.
  set (f := mkRepack (w * (2 * bpc)) (2 * (w + 1) * bpc)) in *.
  destruct (call_cpuFunction_spec (mkAdapter cb (Some f) (buffer a)) f out)
    as (out' & Hcall & _ & _ & Hdrop & Hrows);
    cbn [buffer cpuBuffer origRowWidth bufRowWidth f];
    rewrite ?Hbuf; cbn [height]; try lia.
  { by rewrite <- Hbuf. }
  { rewrite <- Hbuf, Hsize. lia. }
  { rewrite <- Hbuf, Hsize. lia. }
  exists a, f, out'. rewrite Hbuf in Hcall, Hdrop, Hrows.
  cbn [buffer height origRowWidth bufRowWidth f] in Hcall, Hdrop, Hrows.
  rewrite Hbuf. by rewrite <- Hbuf at 1.
Qed.

Lemma odd_width_read_compacts_witness :
  let cb := replicate 16 x01%byte in
  let out := replicate 13 x00%byte in
  ∃ a f out',
    createReadAdpater (mkImage 3 2 2 1) = Some (a, true)
    ∧ cpuFunction a = Some f
    ∧ size (buffer a) = 2 * (2 * (3 + 1) * 1)
    ∧ call_cpuFunction (mkAdapter cb (Some f) (buffer a)) f out = Some out'
    ∧ (∀ i b, 0 ≤ i < 2 → 0 ≤ b < 3 * (2 * 1) →
         out' !! Z.to_nat (i * (3 * (2 * 1)) + b)
         = cb !! Z.to_nat (i * (2 * (3 + 1) * 1) + b))
    ∧ drop (Z.to_nat (2 * (3 * (2 * 1)))) out'
      = drop (Z.to_nat (2 * (3 * (2 * 1)))) out.
Proof.
  intros cb out.
  apply (odd_width_read_compacts 3 2 1 cb out); subst cb out;
    first [ reflexivity | unfold CInt.INT_MAX; simpl; lia | by vm_compute ].
Defined.

End ReadAdapterFurther.

Section ShaderBodyFurther.
Import ReadAdapters.



End ShaderBodyFurther.

Section TextureNames.
Import GL GLExt.

(** X25: the uniform names of a pipeline's input textures are pairwise
    distinct: for the same number of textures, [textureName] gives two
    different indices below that number different names. *)
Theorem textureName_distinct (i j n : nat) :
  (i < n)%nat → (j < n)%nat → i ≠ j →
  GlslPipelineImplementation.textureName i n
  ≠ GlslPipelineImplementation.textureName j n.
Proof.
  intros Hin Hjn Hne. unfold GlslPipelineImplementation.textureName.
  rewrite (bool_decide_eq_true_2 (i < n)%nat) by done.
  rewrite (bool_decide_eq_true_2 (j < n)%nat) by done.
  rewrite (bool_decide_eq_true_2 (2 ≤ n ∨ 1 < i)%nat) by lia.
  rewrite (bool_decide_eq_true_2 (2 ≤ n ∨ 1 < j)%nat) by lia.
  cbn. intros Heq. injection Heq as Heq.
  change (pretty (i + 1)%nat = pretty (j + 1)%nat) in Heq.
  apply (inj pretty) in Heq. lia.
Qed.

Lemma textureName_distinct_witness :
  GlslPipelineImplementation.textureName 0 2
  ≠ GlslPipelineImplementation.textureName 1 2.
Proof. apply (textureName_distinct 0 1 2); lia. Defined.

End TextureNames.
